(** * Geometry engine of the territory map: a shallow embedding

    The development follows the TypeScript sources

    - [src/utils/geometry.ts] (convex hull, feature conversion, centroids),
    - [src/hooks/useViewportPolygons.ts] (bounding boxes, viewport culling),
    - the preprocessing script (Douglas-Peucker simplification and the
      ring / polygon / feature processor).

    JavaScript numbers are IEEE 754 binary64 values; they are modelled by
    Rocq's primitive floats, whose operations are the same correctly rounded
    binary64 operations.  The comparison [x > y] of the source is written
    [y <? x]: both are false as soon as one side is NaN.

    [calculateConvexHull] is written over the few operations it performs on
    numbers, so that the same function runs over floats, as in the code, and
    over exact integers, where its geometric properties hold without
    rounding.

    A function of the source that can throw returns an [option], [None]
    being the exception; the recursion of [simplifyLine] is bounded by a
    recursion depth. *)

From Stdlib Require Import Floats ZArith Lia Bool.
From stdpp Require Import base list strings sorting.

Set Warnings "-inexact-float,-register-all".
Set Default Proof Using "Type".

(** ** Numbers *)

Module Num.

Definition gt (x y : float) : bool := PrimFloat.ltb y x.
Definition lt (x y : float) : bool := PrimFloat.ltb x y.

(** [Math.max] and [Math.min]: NaN is contagious, and [-0 < +0]. *)
Definition is_neg_zero (x : float) : bool :=
  PrimFloat.eqb x 0 && PrimFloat.ltb (1 / x) 0.

Definition max (x y : float) : float :=
  if PrimFloat.is_nan x then x
  else if PrimFloat.is_nan y then y
  else if PrimFloat.ltb x y then y
  else if PrimFloat.ltb y x then x
  else if is_neg_zero x then y else x.

Definition min (x y : float) : float :=
  if PrimFloat.is_nan x then x
  else if PrimFloat.is_nan y then y
  else if PrimFloat.ltb x y then x
  else if PrimFloat.ltb y x then y
  else if is_neg_zero x then x else y.

(** The length of an array as a JavaScript number. *)
Definition of_nat (n : nat) : float :=
  PrimFloat.of_uint63 (Uint63.of_Z (Z.of_nat n)).

(** A value is finite when it is neither NaN nor an infinity. *)
Definition is_finite (x : float) : bool :=
  negb (PrimFloat.is_nan x) && negb (PrimFloat.is_infinity x).

End Num.

(** Out-of-range array reads never happen in the modelled code (every index
    is guarded by the loop bounds); [nth] needs a default all the same. *)
Definition undefined_number : float := PrimFloat.nan.

(** ** Data model *)

(** A raw coordinate pair [[x, y]] of the GeoJSON input. *)
Definition Coord : Type := float * float.

(** [google.maps.LatLngLiteral]: a record of two numbers.  The record is
    declared over the type of its numbers, so that the convex hull can also
    be run over exact integers; in the modelled code the numbers are
    floats. *)
Record LatLng (N : Type) : Type := mkLatLng { lat : N; lng : N }.
Arguments mkLatLng {N} _ _.
Arguments lat {N} _.
Arguments lng {N} _.

Definition LatLngLiteral : Type := LatLng float.

#[export] Instance LatLng_eq_dec {N} `{EqDecision N} : EqDecision (LatLng N).
Proof. solve_decision. Defined.

(** [PolygonBounds] and [google.maps.LatLngBoundsLiteral] have the same four
    fields. *)
Record PolygonBounds : Type :=
  mkBounds { north : float; south : float; east : float; west : float }.

(** [coordinates: LatLngLiteral[][] | LatLngLiteral[][][]] *)
Inductive PolygonCoordinates : Type :=
| SingleRings (rings : list (list LatLngLiteral))
| MultiRings (parts : list (list (list LatLngLiteral))).

Record ConvertedPolygon : Type := mkConvertedPolygon {
  id : string;
  fsaId : string;
  provinceId : string;
  provinceName : string;
  coordinates : PolygonCoordinates;
  center : LatLngLiteral;
  isMultiPolygon : bool
}.

(** [PolygonWithBounds extends ConvertedPolygon] *)
Record PolygonWithBounds : Type := mkPolygonWithBounds {
  polygon : ConvertedPolygon;
  bounds : PolygonBounds
}.

(** ** Viewport culling ([useViewportPolygons.ts]) *)

(** The array [allPoints] that the loops of [calculatePolygonBounds] fill,
    for a polygon whose flag [isMultiPolygon] tells the shape of its
    [coordinates], as the converters build them ([consistent] below).  The
    loops go by the flag; on a polygon whose flag contradicts the shape they
    throw or push rings for points, which is [pushedPoints] below. *)
Definition allPoints (p : ConvertedPolygon) : list LatLngLiteral :=
  match coordinates p with
  | MultiRings parts => concat (concat parts)
  | SingleRings rings => concat rings
  end.

(** The box of the source for a polygon whose flag tells its shape; for
    another polygon the source throws or returns edges that are NaN. *)
Definition calculatePolygonBounds (p : ConvertedPolygon) : PolygonBounds :=
  foldl (fun b point =>
           {| north := Num.max (north b) (lat point);
              south := Num.min (south b) (lat point);
              east := Num.max (east b) (lng point);
              west := Num.min (west b) (lng point) |})
        {| north := -90; south := 90; east := -180; west := 180 |}
        (allPoints p).

Definition boundsIntersect (a b : PolygonBounds) : bool :=
  if Num.gt (south a) (north b) || Num.lt (north a) (south b) then false
  else if Num.gt (west a) (east b) || Num.lt (east a) (west b) then false
  else true.

(** The [useMemo] that precomputes one bounding box per polygon. *)
Definition polygonsWithBounds (polygons : list ConvertedPolygon)
  : list PolygonWithBounds :=
  map (fun p => {| polygon := p; bounds := calculatePolygonBounds p |}) polygons.

(** The [useMemo] computing [visiblePolygons]; [mapBounds] is [null] until
    the map reports its viewport, and is reset to [null] whenever the polygon
    set changes. *)
Definition visiblePolygons (mapBounds : option PolygonBounds)
    (pwb : list PolygonWithBounds) : list PolygonWithBounds :=
  match mapBounds with
  | Some mb => filter (fun p => boundsIntersect (bounds p) mb = true) pwb
  | None => pwb
  end.

(** ** GeoJSON input *)

(** The geometry union of GeoJSON, discriminated by its [type] field. *)
Inductive Geometry : Type :=
| Point (position : Coord)
| MultiPoint (positions : list Coord)
| LineString (positions : list Coord)
| MultiLineString (lines : list (list Coord))
| Polygon (rings : list (list Coord))
| MultiPolygon (parts : list (list (list Coord)))
| GeometryCollection (geometries : list Geometry).

Definition geometry_type (g : Geometry) : string :=
  match g with
  | Point _ => "Point"
  | MultiPoint _ => "MultiPoint"
  | LineString _ => "LineString"
  | MultiLineString _ => "MultiLineString"
  | Polygon _ => "Polygon"
  | MultiPolygon _ => "MultiPolygon"
  | GeometryCollection _ => "GeometryCollection"
  end.

(** A feature: a property bag and a geometry. *)
Record Feature (P : Type) : Type := mkFeature {
  properties : P;
  geometry : Geometry
}.
Arguments mkFeature {P} _ _.
Arguments properties {P} _.
Arguments geometry {P} _.

(** The properties of an [FSAFeature] that the converters read. *)
Record FSAProperties : Type := mkFSAProperties {
  gml_id : string;
  CFSAUID : string;
  PRUID : string;
  PRNAME : string
}.

Definition FSAFeature : Type := Feature FSAProperties.

(** The discriminants the processor and the converters handle. *)
Definition supported (g : Geometry) : bool :=
  match g with
  | Polygon _ | MultiPolygon _ => true
  | _ => false
  end.

(** ** Line simplifier (preprocessing script) *)

Definition undefined_coord : Coord := (undefined_number, undefined_number).

(** [x ** 2], taken as the correctly rounded product [x * x]. *)
Definition sq (x : float) : float := (x * x)%float.

Definition perpendicularDistance (point lineStart lineEnd : Coord) : float :=
  let '(x, y) := point in
  let '(x1, y1) := lineStart in
  let '(x2, y2) := lineEnd in
  let dx := (x2 - x1)%float in
  let dy := (y2 - y1)%float in
  if PrimFloat.eqb dx 0 && PrimFloat.eqb dy 0 then
    PrimFloat.sqrt (sq (x - x1) + sq (y - y1))
  else
    let numerator := PrimFloat.abs (dy * x - dx * y + x2 * y1 - y2 * x1) in
    let denominator := PrimFloat.sqrt (sq dx + sq dy) in
    (numerator / denominator)%float.

(** One iteration of the search loop, on the pair [(maxDistance, maxIndex)]. *)
Definition farthest_step (points : list Coord) (first last : Coord)
    (acc : float * nat) (i : nat) : float * nat :=
  let distance := perpendicularDistance (nth i points undefined_coord) first last in
  if Num.gt distance (fst acc) then (distance, i) else acc.

(** [for (let i = 1; i < points.length - 1; i++)], from
    [maxDistance = 0; maxIndex = 0]. *)
Definition farthest (points : list Coord) (first last : Coord) : float * nat :=
  foldl (farthest_step points first last) (0%float, 0) (seq 1 (length points - 2)).

(** [simplifyLine] is recursive on slices of its argument; [fuel] bounds the
    depth of the recursion, and [None] is a run that exceeds it. *)
Fixpoint simplifyLine (fuel : nat) (points : list Coord) (tolerance : float)
  : option (list Coord) :=
  match fuel with
  | O => None
  | S fuel =>
      if decide (length points ≤ 2) then Some points
      else
        let first := nth 0 points undefined_coord in
        let last := nth (length points - 1) points undefined_coord in
        let '(maxDistance, maxIndex) := farthest points first last in
        if Num.gt maxDistance tolerance then
          left ← simplifyLine fuel (take (maxIndex + 1) points) tolerance;
          right ← simplifyLine fuel (drop maxIndex points) tolerance;
          Some (take (length left - 1) left ++ right)
        else Some [first; last]
  end.

(** ** Ring / polygon processor (preprocessing script) and converters *)

Section Projection.

(** [proj4('EPSG:3347', WGS84, [x, y])]: the forward transform of the proj4
    library, which is not part of the repository. *)
Variable proj4 : Coord -> Coord.

Definition convertCoord (x y : float) : Coord :=
  let '(lng, lat) := proj4 (x, y) in (lng, lat).

Definition processRing (fuel : nat) (ring : list Coord) (tolerance : float)
  : option (list Coord) :=
  simplified ← (if Num.gt tolerance 0 then simplifyLine fuel ring tolerance
                else Some ring);
  Some (map (fun '(x, y) => convertCoord x y) simplified).

Definition processPolygon (fuel : nat) (coordinates : list (list Coord))
    (tolerance : float) : option (list (list Coord)) :=
  mapM (fun ring => processRing fuel ring tolerance) coordinates.

Definition processMultiPolygon (fuel : nat)
    (coordinates : list (list (list Coord))) (tolerance : float)
  : option (list (list (list Coord))) :=
  mapM (fun polygon => processPolygon fuel polygon tolerance) coordinates.

Definition processFeature {P} (fuel : nat) (feature : Feature P)
    (tolerance : float) : option (Feature P) :=
  match geometry feature with
  | Polygon coordinates =>
      coordinates' ← processPolygon fuel coordinates tolerance;
      Some {| properties := properties feature;
              geometry := Polygon coordinates' |}
  | MultiPolygon coordinates =>
      coordinates' ← processMultiPolygon fuel coordinates tolerance;
      Some {| properties := properties feature;
              geometry := MultiPolygon coordinates' |}
  | _ => Some feature
  end.

(** The [processedFeatures] of [processGeoJSON]:
    [geoJson.features.map(feature => processFeature(feature, tolerance))]. *)
Definition processedFeatures {P} (fuel : nat) (features : list (Feature P))
    (tolerance : float) : option (list (Feature P)) :=
  mapM (fun feature => processFeature fuel feature tolerance) features.

(** ** Centroids ([geometry.ts]) *)

Definition convertCoordinate (x y : float) : LatLngLiteral :=
  let '(lng, lat) := proj4 (x, y) in {| lat := lat; lng := lng |}.

End Projection.

Record RingCentroid : Type := mkRingCentroid {
  centroid : LatLngLiteral;
  area : float
}.

Definition undefined_point : LatLngLiteral :=
  {| lat := undefined_number; lng := undefined_number |}.

(** The fallback of [calculateRingCentroid]: the two [reduce] sums divided by
    [n]. *)
Definition averagePoint (ring : list LatLngLiteral) (n : nat) : LatLngLiteral :=
  {| lat := (foldl (fun sum p => sum + lat p) 0 ring / Num.of_nat n)%float;
     lng := (foldl (fun sum p => sum + lng p) 0 ring / Num.of_nat n)%float |}.

(** One iteration of the shoelace loop, on
    [(signedArea, centroidLat, centroidLng)]. *)
Definition shoelace_step (ring : list LatLngLiteral) (n : nat)
    (acc : float * float * float) (i : nat) : float * float * float :=
  let '(signedArea, centroidLat, centroidLng) := acc in
  let current := nth i ring undefined_point in
  let next := nth ((i + 1) mod n) ring undefined_point in
  let cross := (lng current * lat next - lng next * lat current)%float in
  ((signedArea + cross)%float,
   (centroidLat + (lat current + lat next) * cross)%float,
   (centroidLng + (lng current + lng next) * cross)%float).

Definition calculateRingCentroid (ring : list LatLngLiteral) : RingCentroid :=
  let n := length ring in
  if decide (n < 3) then
    {| centroid := averagePoint ring n; area := 0 |}
  else
    let '(signedArea, centroidLat, centroidLng) :=
      foldl (shoelace_step ring n) (0, 0, 0)%float (seq 0 n) in
    let signedArea := (signedArea * 0.5)%float in
    let area := PrimFloat.abs signedArea in
    if Num.lt area 1e-10 then
      {| centroid := averagePoint ring n; area := 0 |}
    else
      let factor := (1 / (6 * signedArea))%float in
      {| centroid := {| lat := (centroidLat * factor)%float;
                        lng := (centroidLng * factor)%float |};
         area := area |}.

(** One iteration of the loop of [calculatePolygonCenter], on
    [(bestCentroid, maxArea)]. *)
Definition center_step (acc : LatLngLiteral * float) (ring : list LatLngLiteral)
  : LatLngLiteral * float :=
  let r := calculateRingCentroid ring in
  if Num.gt (area r) (snd acc) then (centroid r, area r) else acc.

Definition calculatePolygonCenter (coordinates : list (list LatLngLiteral))
  : LatLngLiteral :=
  if decide (length coordinates = 0) then {| lat := 0%float; lng := 0%float |}
  else fst (foldl center_step ({| lat := 0%float; lng := 0%float |}, (-1)%float)
                  coordinates).

(** ** Feature converters ([geometry.ts]) *)

Section Converters.

Variable proj4 : Coord -> Coord.

Definition convertPolygonCoordinates (coordinates : list (list Coord))
  : list (list LatLngLiteral) :=
  map (fun ring => map (fun '(x, y) => convertCoordinate proj4 x y) ring)
      coordinates.

(** [convertFeatureToPolygon] tests for [MultiPolygon] only and treats every
    other geometry as a [Polygon].  [coordinates[0]] of a [MultiPolygon]
    without parts is [undefined], on which [calculatePolygonCenter] throws a
    [TypeError]; a [MultiLineString] has the nesting of a [Polygon] and is
    converted as one.  On a [LineString] or a [MultiPoint] the outer [map]
    takes every position for a ring and the inner [map] throws on its first
    number, unless there is no position at all: then the result is a
    polygon without rings.  A [Point] always has a first number, on which
    [ring.map] is not a function, and a [GeometryCollection] has no
    [coordinates].  [None] is a thrown [TypeError]. *)
Definition convertFeatureToPolygon (feature : FSAFeature)
  : option ConvertedPolygon :=
  let properties := properties feature in
  match geometry feature with
  | MultiPolygon parts =>
      let coordinates := map convertPolygonCoordinates parts in
      firstPolygonRings ← head coordinates;
      Some {| id := gml_id properties;
              fsaId := CFSAUID properties;
              provinceId := PRUID properties;
              provinceName := PRNAME properties;
              coordinates := MultiRings coordinates;
              center := calculatePolygonCenter firstPolygonRings;
              isMultiPolygon := true |}
  | Polygon rings | MultiLineString rings =>
      let coordinates := convertPolygonCoordinates rings in
      Some {| id := gml_id properties;
              fsaId := CFSAUID properties;
              provinceId := PRUID properties;
              provinceName := PRNAME properties;
              coordinates := SingleRings coordinates;
              center := calculatePolygonCenter coordinates;
              isMultiPolygon := false |}
  | LineString [] | MultiPoint [] =>
      let coordinates := convertPolygonCoordinates [] in
      Some {| id := gml_id properties;
              fsaId := CFSAUID properties;
              provinceId := PRUID properties;
              provinceName := PRNAME properties;
              coordinates := SingleRings coordinates;
              center := calculatePolygonCenter coordinates;
              isMultiPolygon := false |}
  | _ => None
  end.

Definition convertAllFeatures (features : list FSAFeature)
  : option (list ConvertedPolygon) :=
  mapM convertFeatureToPolygon features.

End Converters.

(** [[lng, lat]] to [{ lat, lng }] *)
Definition reorder (c : Coord) : LatLngLiteral :=
  let '(lng, lat) := c in {| lat := lat; lng := lng |}.

(** The body of the [for] loop of [convertPreprocessedFeatures]: the entries
    it pushes on [result] for one feature, or [None] when it throws (a
    [MultiPolygon] without parts). *)
Definition convertPreprocessedFeature (feature : FSAFeature)
  : option (list ConvertedPolygon) :=
  let properties := properties feature in
  match geometry feature with
  | MultiPolygon polygonCoords =>
      let coordinates := map (map (map reorder)) polygonCoords in
      firstPolygonRings ← head coordinates;
      Some [ {| id := gml_id properties;
                fsaId := CFSAUID properties;
                provinceId := PRUID properties;
                provinceName := PRNAME properties;
                coordinates := MultiRings coordinates;
                center := calculatePolygonCenter firstPolygonRings;
                isMultiPolygon := true |} ]
  | Polygon polygonCoords =>
      let coordinates := map (map reorder) polygonCoords in
      Some [ {| id := gml_id properties;
                fsaId := CFSAUID properties;
                provinceId := PRUID properties;
                provinceName := PRNAME properties;
                coordinates := SingleRings coordinates;
                center := calculatePolygonCenter coordinates;
                isMultiPolygon := false |} ]
  | _ => Some []
  end.

(** The loop itself, threading [result]. *)
Fixpoint convertPreprocessedFeatures_from (result : list ConvertedPolygon)
    (features : list FSAFeature) : option (list ConvertedPolygon) :=
  match features with
  | [] => Some result
  | feature :: features =>
      pushed ← convertPreprocessedFeature feature;
      convertPreprocessedFeatures_from (result ++ pushed) features
  end.

Definition convertPreprocessedFeatures (features : list FSAFeature)
  : option (list ConvertedPolygon) :=
  convertPreprocessedFeatures_from [] features.

(** ** Convex hull ([geometry.ts]) *)

(** The operations [calculateConvexHull] performs on numbers: subtraction,
    multiplication, [===], the test [v <= 0] on a cross product, and the
    test [v > 0] that [Array.prototype.sort] makes on the value of its
    comparator. *)
Class Arithmetic (N : Type) : Type := {
  num_sub : N → N → N;
  num_mul : N → N → N;
  num_eqb : N → N → bool;
  non_positive : N → bool;
  positive : N → bool
}.

(** JavaScript numbers. *)
#[export] Instance float_arithmetic : Arithmetic float := {|
  num_sub := PrimFloat.sub;
  num_mul := PrimFloat.mul;
  num_eqb := PrimFloat.eqb;
  non_positive v := PrimFloat.leb v 0;
  positive v := PrimFloat.ltb 0 v
|}.

(** Exact integers: the same operations without rounding.  The float
    operations round, on integers too; [exact_tests] below is the condition
    under which the two arithmetics make the same tests on a list of
    points. *)
#[export] Instance Z_arithmetic : Arithmetic Z := {|
  num_sub := Z.sub;
  num_mul := Z.mul;
  num_eqb := Z.eqb;
  non_positive v := (v <=? 0)%Z;
  positive v := (0 <? v)%Z
|}.

Section ConvexHull.

Context {N : Type} `{Arithmetic N}.

(** The comparator of the sort: by [lat], then by [lng]. *)
Definition comparePoints (a b : LatLng N) : N :=
  if num_eqb (lat a) (lat b) then num_sub (lng a) (lng b)
  else num_sub (lat a) (lat b).

(** [[...points].sort(compare)]: the sort of ECMAScript is stable, and with a
    consistent comparator its result is the stable sorted order, which this
    insertion sort computes ([x] stays in front of [y] unless
    [compare(x, y) > 0]).  With a NaN coordinate the comparator is not
    consistent and the order is the engine's own. *)
Fixpoint sort_insert (x : LatLng N) (l : list (LatLng N)) : list (LatLng N) :=
  match l with
  | [] => [x]
  | y :: l' =>
      if positive (comparePoints x y) then y :: sort_insert x l' else x :: l
  end.

Definition sortPoints (points : list (LatLng N)) : list (LatLng N) :=
  foldr sort_insert [] points.

Definition crossProduct (o a b : LatLng N) : N :=
  num_sub (num_mul (num_sub (lat a) (lat o)) (num_sub (lng b) (lng o)))
          (num_mul (num_sub (lng a) (lng o)) (num_sub (lat b) (lat o))).

(** The arrays [lower] and [upper] grow and shrink at their end; they are
    kept as stacks, last element first.  [pop_non_left stack p] is the
    [while] loop that pops the last element as long as the last two elements
    and [p] do not make a left turn. *)
Fixpoint pop_non_left (stack : list (LatLng N)) (p : LatLng N)
  : list (LatLng N) :=
  match stack with
  | b :: ((a :: _) as rest) =>
      if non_positive (crossProduct a b p) then pop_non_left rest p else stack
  | _ => stack
  end.

(** One iteration of either [for] loop: the pops, then [push(p)]. *)
Definition push_point (stack : list (LatLng N)) (p : LatLng N)
  : list (LatLng N) :=
  p :: pop_non_left stack p.

(** The array built by a whole [for] loop over [points]. *)
Definition build_chain (points : list (LatLng N)) : list (LatLng N) :=
  reverse (foldl push_point [] points).

Definition calculateConvexHull (points : list (LatLng N)) : list (LatLng N) :=
  if decide (length points < 3) then points
  else
    let sortedPoints := sortPoints points in
    let lower := build_chain sortedPoints in
    let upper := build_chain (reverse sortedPoints) in
    take (length lower - 1) lower ++ upper.

End ConvexHull.

(** ** Bounds of a set of polygons ([geometry.ts]) *)

(** One iteration of the loop that widens a box by a point; it is the loop
    body of [calculatePolygonBounds] and of [calculateBounds]. *)
Definition extendBounds (b : PolygonBounds) (point : LatLngLiteral)
  : PolygonBounds :=
  {| north := Num.max (north b) (lat point);
     south := Num.min (south b) (lat point);
     east := Num.max (east b) (lng point);
     west := Num.min (west b) (lng point) |}.

(** The box the loops start from. *)
Definition emptyBounds : PolygonBounds :=
  {| north := -90; south := 90; east := -180; west := 180 |}.

(** The flag [isMultiPolygon] is what tells the two shapes of [coordinates]
    apart at run time; the converters set it to the shape they build. *)
Definition consistent (p : ConvertedPolygon) : Prop :=
  isMultiPolygon p
  = match coordinates p with MultiRings _ => true | SingleRings _ => false end.

(** The points that the loops of [calculateBounds] push for one polygon.
    The loops go by the flag.  With the flag set on an array of rings, the
    inner loop spreads a point object, which throws unless every ring is
    empty ([None]); with the flag unset on an array of parts, every ring is
    pushed as if it were a point, whose [lat] and [lng] are [undefined]. *)
Definition pushedPoints (p : ConvertedPolygon) : option (list LatLngLiteral) :=
  if isMultiPolygon p then
    match coordinates p with
    | MultiRings parts => Some (concat (concat parts))
    | SingleRings rings =>
        if decide (concat rings = []) then Some [] else None
    end
  else
    match coordinates p with
    | SingleRings rings => Some (concat rings)
    | MultiRings parts => Some (map (λ _, undefined_point) (concat parts))
    end.

(** [calculateBounds]: the outer [None] is a thrown [TypeError], the inner
    one is [null]. *)
Definition calculateBounds (polygons : list ConvertedPolygon)
  : option (option PolygonBounds) :=
  if decide (length polygons = 0) then Some None
  else
    pushed ← mapM pushedPoints polygons;
    let allPoints := concat pushed in
    if decide (length allPoints = 0) then Some None
    else Some (Some (foldl extendBounds emptyBounds allPoints)).

(** ** Counting coordinates (preprocessing script) *)

(** [countCoordinates]; the counts are integers far below [2 ^ 53], on
    which the additions of JavaScript numbers are exact. *)
Definition countCoordinates (geometry : option Geometry) : nat :=
  match geometry with
  | None => 0
  | Some (Polygon coordinates) =>
      foldl (λ sum ring, sum + length ring) 0 coordinates
  | Some (MultiPolygon coordinates) =>
      foldl (λ sum polygon,
               sum + foldl (λ pSum ring, pSum + length ring) 0 polygon)
            0 coordinates
  | Some _ => 0
  end.

(** The two counting loops of [processGeoJSON], over the features read and
    over the features processed. *)
Definition coordCount {P} (features : list (Feature P)) : nat :=
  foldl (λ count feature, count + countCoordinates (Some (geometry feature)))
        0 features.

(** ** The map component and the segment form (callers) *)

(** The geometry that [handleCreateSegment] stores with a new segment. *)
Inductive SegmentGeometry : Type :=
| CircleGeometry (center : LatLngLiteral) (radius : float)
| PolygonGeometry (coordinates : list LatLngLiteral).

(** [geometry] stays [undefined] when no group is selected. *)
Definition segmentGeometry (points : list LatLngLiteral)
  : option SegmentGeometry :=
  match points with
  | [] => None
  | [point] => Some (CircleGeometry point 500)
  | _ => Some (PolygonGeometry (calculateConvexHull points))
  end.

(** [handleSelectFsa]: the value handed to the selection handler. *)
Definition handleSelectFsa (selectedFsaId fsaId : option string)
  : option string :=
  if decide (selectedFsaId = fsaId) then selectedFsaId else fsaId.

(** [FsaMarkerData] *)
Record FsaMarkerData : Type := mkFsaMarker {
  marker_center : LatLngLiteral;
  marker_fsaId : string
}.

(** One iteration of the loop of [fsaMarkers] on the [Map], kept as the
    list of its values in insertion order. *)
Definition fsaMarkers_step (fsaMap : list FsaMarkerData) (p : ConvertedPolygon)
  : list FsaMarkerData :=
  if decide (fsaId p ∈ map marker_fsaId fsaMap) then fsaMap
  else fsaMap ++ [ {| marker_center := center p; marker_fsaId := fsaId p |} ].

Definition fsaMarkers (visible : list ConvertedPolygon)
    (shouldShowMarkers : bool) : list FsaMarkerData :=
  if shouldShowMarkers then foldl fsaMarkers_step [] visible else [].

(** ** The order of floats *)

(** A finite or infinite float, as a key in a lexicographic order of
    integers; NaN has no key. *)
Definition sf_key (f : spec_float) : option (Z * Z * Z) :=
  match f with
  | S754_nan => None
  | S754_infinity true => Some (-2, 0, 0)%Z
  | S754_infinity false => Some (2, 0, 0)%Z
  | S754_zero _ => Some (0, 0, 0)%Z
  | S754_finite true m e => Some (-1, - e, - Z.pos m)%Z
  | S754_finite false m e => Some (1, e, Z.pos m)%Z
  end.

Definition key_lt (a b : Z * Z * Z) : Prop :=
  let '(a1, a2, a3) := a in
  let '(b1, b2, b3) := b in
  (a1 < b1 ∨ (a1 = b1 ∧ (a2 < b2 ∨ (a2 = b2 ∧ a3 < b3))))%Z.

Definition float_key (x : float) : option (Z * Z * Z) := sf_key (Prim2SF x).

(** Neither coordinate of a point is NaN. *)
Definition no_nan (point : LatLngLiteral) : Prop :=
  PrimFloat.is_nan (lat point) = false ∧ PrimFloat.is_nan (lng point) = false.

(** A point lies in a box, edges included. *)
Definition in_bounds (b : PolygonBounds) (point : LatLngLiteral) : Prop :=
  PrimFloat.leb (south b) (lat point) = true
  ∧ PrimFloat.leb (lat point) (north b) = true
  ∧ PrimFloat.leb (west b) (lng point) = true
  ∧ PrimFloat.leb (lng point) (east b) = true.

(** ** Specification vocabulary *)

(** The four separating conditions of [boundsIntersect], as one test. *)
Definition separated (a b : PolygonBounds) : bool :=
  Num.gt (south a) (north b) || Num.lt (north a) (south b)
  || Num.gt (west a) (east b) || Num.lt (east a) (west b).

(** A geometry whose discriminant is neither [Polygon] nor [MultiPolygon]. *)
Definition unsupported (g : Geometry) : Prop :=
  geometry_type g ≠ "Polygon" ∧ geometry_type g ≠ "MultiPolygon".

(** What a returned result of [simplifyLine] looks like. *)
Definition simplified_from (P r : list Coord) : Prop :=
  r `sublist_of` P ∧ head r = head P ∧ last r = last P
  ∧ (2 ≤ length P → 2 ≤ length r).

(** Two squares for the examples: a unit square at the origin and a square
    of side 10 far from it, as raw rings. *)
Definition small_square : list Coord :=
  [(0, 0); (0, 1); (1, 1); (1, 0)]%float.
Definition large_square : list Coord :=
  [(50, 50); (50, 60); (60, 60); (60, 50)]%float.

Definition sample_properties : FSAProperties :=
  {| gml_id := "fsa.1"; CFSAUID := "M5V"; PRUID := "35"; PRNAME := "Ontario" |}.

(** *** Exact points

    Over [Z] the operations of [calculateConvexHull] are exact; the
    geometric statements about the hull are made there. *)

Definition lex_le (a b : LatLng Z) : Prop :=
  (lat a < lat b ∨ (lat a = lat b ∧ lng a ≤ lng b))%Z.

Definition lex_lt (a b : LatLng Z) : Prop :=
  (lat a < lat b ∨ (lat a = lat b ∧ lng a < lng b))%Z.

(** The pairs of consecutive elements of a list. *)
Fixpoint edges {A} (l : list A) : list (A * A) :=
  match l with
  | a :: ((b :: _) as rest) => (a, b) :: edges rest
  | _ => []
  end.

(** The edges of the polygon drawn through the points of a list, the last
    point being joined to the first. *)
Definition closed_edges {A} (polygon : list A) : list (A * A) :=
  edges (polygon ++ take 1 polygon).

(** [q] lies on or inside the convex polygon whose vertices are listed
    counter-clockwise (in the plane of [lat] and [lng]): it is on the left of
    or on every edge, and not beyond the vertices (which matters when the
    polygon is flat). *)
Definition inside_or_on (polygon : list (LatLng Z)) (q : LatLng Z) : Prop :=
  Forall (λ e, (0 ≤ crossProduct e.1 e.2 q)%Z) (closed_edges polygon)
  ∧ Exists (λ u, lex_le u q) polygon
  ∧ Exists (λ v, lex_le q v) polygon.

(** The point mirrored through the origin. *)
Definition opposite (p : LatLng Z) : LatLng Z :=
  {| lat := (- lat p)%Z; lng := (- lng p)%Z |}.

(** The stack of a [for] loop of [calculateConvexHull] over the sorted
    points. *)
Definition scan (points : list (LatLng Z)) : list (LatLng Z) :=
  foldl push_point [] (sortPoints points).

(** The stack of the second loop, which visits the sorted points from the
    last to the first. *)
Definition upper_stack (points : list (LatLng Z)) : list (LatLng Z) :=
  foldl push_point [] (reverse (sortPoints points)).

(** Consecutive elements of a stack (last element first) turn left. *)
Fixpoint stack_convex (stack : list (LatLng Z)) : Prop :=
  match stack with
  | c :: ((b :: a :: _) as rest) =>
      (0 < crossProduct a b c)%Z ∧ stack_convex rest
  | _ => True
  end.

(** [q] is on the left of or on every edge of a stack. *)
Definition above_stack (stack : list (LatLng Z)) (q : LatLng Z) : Prop :=
  Forall (λ e, (0 ≤ crossProduct e.2 e.1 q)%Z) (edges stack).

(** The elements of a stack grow from its bottom to its top. *)
Definition stack_monotone (stack : list (LatLng Z)) : Prop :=
  Forall (λ e, lex_le e.2 e.1) (edges stack).

(** The elements of a stack grow strictly from its bottom to its top. *)
Definition stack_strict (stack : list (LatLng Z)) : Prop :=
  Forall (λ e, lex_lt e.2 e.1) (edges stack).

(** The invariant of a [for] loop of [calculateConvexHull]: [done] are the
    points visited so far, in sorted order. *)
Definition scan_inv (done stack : list (LatLng Z)) : Prop :=
  stack_convex stack ∧ stack_monotone stack
  ∧ (∀ q, q ∈ done → above_stack stack q)
  ∧ head stack = last done ∧ last stack = head done.

(** The invariant of the [while] loop that pops before [p] is pushed. *)
Definition pop_inv (done : list (LatLng Z)) (p : LatLng Z)
    (stack : list (LatLng Z)) : Prop :=
  stack_convex stack ∧ stack_monotone stack
  ∧ (∀ q, q ∈ done → above_stack stack q)
  ∧ last stack = head done
  ∧ ∀ t, head stack = Some t →
         lex_le t p
         ∧ ∀ q, q ∈ done → lex_le t q → (0 ≤ crossProduct t p q)%Z.

(** *** Exact values of floats *)

(** [x * 2 ^ k], when [x] is finite and that number is an integer. *)
Definition scaled (k : Z) (x : float) : option Z :=
  match Prim2SF x with
  | S754_zero _ => Some 0%Z
  | S754_finite negative m e =>
      if (0 <=? e + k)%Z
      then Some ((if negative then Z.neg m else Z.pos m) * 2 ^ (e + k))%Z
      else None
  | _ => None
  end.

Definition scaled_point (k : Z) (p : LatLngLiteral) : option (LatLng Z) :=
  x ← scaled k (lat p); y ← scaled k (lng p); Some {| lat := x; lng := y |}.

(** Four points whose coordinates differ in the last bits of their
    mantissas, and the same points multiplied by [2 ^ 52]. *)
Definition close_points : list LatLngLiteral :=
  [ {| lat := 0; lng := 0 |};
    {| lat := 0; lng := 1 |};
    {| lat := 0x1.0000000000001p+0; lng := 1 |};
    {| lat := 0x1.0000000000002p+0; lng := 0x1.0000000000001p+0 |} ]%float.

Definition close_points_exact : list (LatLng Z) :=
  [ {| lat := 0; lng := 0 |};
    {| lat := 0; lng := 2 ^ 52 |};
    {| lat := 2 ^ 52 + 1; lng := 2 ^ 52 |};
    {| lat := 2 ^ 52 + 2; lng := 2 ^ 52 + 1 |} ]%Z.

#[export] Instance lex_le_dec (a b : LatLng Z) : Decision (lex_le a b).
Proof. unfold lex_le. apply _. Defined.

#[export] Instance inside_or_on_dec (polygon : list (LatLng Z)) (q : LatLng Z)
  : Decision (inside_or_on polygon q).
Proof. unfold inside_or_on. apply _. Defined.

(** No edge of a box is NaN. *)
Definition box_no_nan (b : PolygonBounds) : Prop :=
  PrimFloat.is_nan (north b) = false ∧ PrimFloat.is_nan (south b) = false
  ∧ PrimFloat.is_nan (east b) = false ∧ PrimFloat.is_nan (west b) = false.

(** A polygon lies wholly beyond one edge of a box, the start values of the
    loop included (they matter for a polygon without points). *)
Definition beyond (mb : PolygonBounds) (points : list LatLngLiteral) : Prop :=
  (PrimFloat.ltb (north mb) 90 = true
   ∧ Forall (λ pt, PrimFloat.ltb (north mb) (lat pt) = true) points)
  ∨ (PrimFloat.ltb (-90) (south mb) = true
     ∧ Forall (λ pt, PrimFloat.ltb (lat pt) (south mb) = true) points)
  ∨ (PrimFloat.ltb (east mb) 180 = true
     ∧ Forall (λ pt, PrimFloat.ltb (east mb) (lng pt) = true) points)
  ∨ (PrimFloat.ltb (-180) (west mb) = true
     ∧ Forall (λ pt, PrimFloat.ltb (lng pt) (west mb) = true) points).

(** An edge of a box is the start value of the loop or one of the
    coordinates the loop has seen. *)
Definition edge_attained (edge start : float) (seen : list float) : Prop :=
  edge = start ∨ edge ∈ seen.

(** A polygon of one ring, for the examples. *)
Definition sample_polygon (fsa : string) (ring : list Coord)
  : ConvertedPolygon :=
  {| id := "fsa.1"; fsaId := fsa; provinceId := "35"; provinceName := "Ontario";
     coordinates := SingleRings [map reorder ring];
     center := calculatePolygonCenter [map reorder ring];
     isMultiPolygon := false |}.

(** A viewport around the small square. *)
Definition sample_viewport : PolygonBounds :=
  {| north := 2; south := -1; east := 2; west := -1 |}.

(** What [processRing] makes of a ring: the projection of a simplification
    of the ring, which is the ring itself unless the tolerance is positive. *)
Definition ring_processed (proj4 : Coord → Coord) (t : float)
    (ring r : list Coord) : Prop :=
  ∃ s, simplified_from ring s
       ∧ (Num.gt t 0 = false → s = ring)
       ∧ r = map (λ '(x, y), convertCoord proj4 x y) s.

(** What [processFeature] makes of a feature: the properties and the shape
    of the geometry are kept, ring by ring. *)
Definition processed_from {P} (proj4 : Coord → Coord) (t : float)
    (feature r : Feature P) : Prop :=
  properties r = properties feature
  ∧ match geometry feature, geometry r with
    | Polygon coordinates, Polygon coordinates' =>
        Forall2 (ring_processed proj4 t) coordinates coordinates'
    | MultiPolygon coordinates, MultiPolygon coordinates' =>
        Forall2 (Forall2 (ring_processed proj4 t)) coordinates coordinates'
    | Polygon _, _ | MultiPolygon _, _ => False
    | g, g' => g' = g
    end.

(** The points of a line at a list of indices. *)
Definition kept (P : list Coord) (indices : list nat) : list Coord :=
  (λ i, nth i P undefined_coord) <$> indices.

(** Between two consecutive indices of the list, no point of the line is
    farther than [t] from the chord between the points at the two
    indices. *)
Definition chords_within (t : float) (P : list Coord) (indices : list nat)
  : Prop :=
  ∀ i j k, (i, j) ∈ edges indices → i < k < j →
    Num.gt (perpendicularDistance (nth k P undefined_coord)
              (nth i P undefined_coord) (nth j P undefined_coord)) t = false.

(** The area that [calculateRingCentroid] reports for a ring. *)
Definition ring_area (ring : list LatLngLiteral) : float :=
  area (calculateRingCentroid ring).

(** The ring at index [i] is the first ring of the largest area, among the
    rings whose area is a number. *)
Definition first_largest (coordinates : list (list LatLngLiteral)) (i : nat)
    (ring : list LatLngLiteral) : Prop :=
  coordinates !! i = Some ring
  ∧ PrimFloat.is_nan (ring_area ring) = false
  ∧ (∀ j ring', coordinates !! j = Some ring' →
                PrimFloat.ltb (ring_area ring) (ring_area ring') = false)
  ∧ (∀ j ring', j < i → coordinates !! j = Some ring' →
                PrimFloat.is_nan (ring_area ring') = true
                ∨ PrimFloat.ltb (ring_area ring') (ring_area ring) = true).

(** The test of the [while] loops fails on every three consecutive points
    of a chain: the chain turns left at each of its points, as far as the
    computed cross products tell. *)
Definition left_turns {N} `{Arithmetic N} (chain : list (LatLng N)) : Prop :=
  ∀ i a b c, chain !! i = Some a → chain !! S i = Some b →
             chain !! S (S i) = Some c →
             non_positive (crossProduct a b c) = false.

(** The positions of a polygon or multi-polygon geometry, in order. *)
Definition geometry_points (g : Geometry) : list Coord :=
  match g with
  | Polygon coordinates => concat coordinates
  | MultiPolygon coordinates => concat (concat coordinates)
  | _ => []
  end.

(** A converted polygon carries the four properties of its feature, a flag
    that tells its shape, and the positions of the feature in order. *)
Definition converted_from (feature : FSAFeature) (p : ConvertedPolygon)
  : Prop :=
  id p = gml_id (properties feature)
  ∧ fsaId p = CFSAUID (properties feature)
  ∧ provinceId p = PRUID (properties feature)
  ∧ provinceName p = PRNAME (properties feature)
  ∧ consistent p
  ∧ allPoints p = reorder <$> geometry_points (geometry feature).

(** A feature with every position of its polygons projected, and nothing
    else changed. *)
Definition projectFeature {P} (proj4 : Coord → Coord) (feature : Feature P)
  : Feature P :=
  match geometry feature with
  | Polygon coordinates =>
      {| properties := properties feature;
         geometry :=
           Polygon (map (map (λ '(x, y), convertCoord proj4 x y))
                        coordinates) |}
  | MultiPolygon coordinates =>
      {| properties := properties feature;
         geometry :=
           MultiPolygon (map (map (map (λ '(x, y), convertCoord proj4 x y)))
                             coordinates) |}
  | _ => feature
  end.

(** Two features for the examples. *)
Definition sample_features : list FSAFeature :=
  [ mkFeature sample_properties (Polygon [small_square]);
    mkFeature sample_properties (MultiPolygon [[small_square]; [large_square]]) ].

(** The search loop of [simplifyLine] run on the inner points themselves,
    [i] being the index of the first of them. *)
Fixpoint farthest_scan (first last : Coord) (acc : float * nat) (i : nat)
    (inner : list Coord) : float * nat :=
  match inner with
  | [] => acc
  | x :: inner =>
      farthest_scan first last
        (if Num.gt (perpendicularDistance x first last) (fst acc)
         then (perpendicularDistance x first last, i) else acc)
        (S i) inner
  end.

(** The sign bit of a float is clear. *)
Definition sign_clear (f : spec_float) : Prop :=
  match f with
  | S754_zero s | S754_infinity s | S754_finite s _ _ => s = false
  | S754_nan => True
  end.

(** Two arithmetics make the same tests on the points of a list: the
    comparisons of the sort and the tests of the [while] loops have the
    same outcome on the points and on their images under [f]. *)
Definition same_tests {N1 N2} `{Arithmetic N1} `{Arithmetic N2}
    (f : LatLng N1 → LatLng N2) (points : list (LatLng N1)) : Prop :=
  Forall (λ a, Forall (λ b,
    positive (comparePoints (f a) (f b)) = positive (comparePoints a b))
    points) points
  ∧ Forall (λ o, Forall (λ a, Forall (λ b,
      non_positive (crossProduct (f o) (f a) (f b))
      = non_positive (crossProduct o a b)) points) points) points.

(** The point with both coordinates multiplied by [2 ^ k], when these are
    integers; the origin stands for a point that has no such image. *)
Definition exact_point (k : Z) (p : LatLngLiteral) : LatLng Z :=
  default {| lat := 0%Z; lng := 0%Z |} (scaled_point k p).

(** The rounding of the float operations changes no test that
    [calculateConvexHull] makes on the points: multiplied by [2 ^ k] the
    coordinates are integers, points that differ stay different, and on
    these integers the exact operations give the outcomes that the float
    operations give on the points. *)
Definition exact_tests (k : Z) (points : list LatLngLiteral) : Prop :=
  Forall (λ p, is_Some (scaled_point k p)) points
  ∧ Forall (λ a, Forall (λ b, exact_point k a = exact_point k b → a = b)
                        points) points
  ∧ same_tests (exact_point k) points.

(** Four points computed on the line [lng = 3 * lat + 0.1], each rounded
    on its own: in exact arithmetic no three of them are on a line. *)
Definition near_line_points : list LatLngLiteral :=
  [ {| lat := 0x1.999999999999ap-4; lng := 0x1.999999999999ap-2 |};
    {| lat := 0x1.999999999999ap-1; lng := 0x1.4000000000001p+1 |};
    {| lat := 0x1.999999999999ap-2; lng := 0x1.4cccccccccccep+0 |};
    {| lat := 0x1.999999999999ap-3; lng := 0x1.6666666666667p-1 |} ]%float.

(** The corners of the unit square, its middle and the middle of an edge:
    points on which no float operation of the hull rounds. *)
Definition square_points : list LatLngLiteral :=
  [ {| lat := 0; lng := 0 |}; {| lat := 0.5; lng := 0.5 |};
    {| lat := 0; lng := 1 |}; {| lat := 1; lng := 1 |};
    {| lat := 1; lng := 0 |}; {| lat := 0.5; lng := 0 |} ]%float.

(** * Properties *)

Section Culling.

Implicit Types (a b : PolygonBounds) (pwb : list PolygonWithBounds).

Lemma boundsIntersect_separated a b :
  boundsIntersect a b = negb (separated a b).
Proof.
  unfold boundsIntersect, separated.
  destruct (Num.gt (south a) (north b)), (Num.lt (north a) (south b)),
    (Num.gt (west a) (east b)), (Num.lt (east a) (west b)); reflexivity.
Qed.

Lemma separated_sym a b : separated a b = separated b a.
Proof.
  unfold separated, Num.gt, Num.lt.
  destruct (PrimFloat.ltb (north b) (south a)),
    (PrimFloat.ltb (north a) (south b)),
    (PrimFloat.ltb (east b) (west a)),
    (PrimFloat.ltb (east a) (west b)); reflexivity.
Qed.

(** C6: [boundsIntersect a b] is false exactly when one of
    [a.south > b.north], [a.north < b.south], [a.west > b.east],
    [a.east < b.west] holds, it is true otherwise, and it is symmetric in
    its two arguments. *)
Theorem boundsIntersect_spec a b :
  (boundsIntersect a b = false <->
     Num.gt (south a) (north b) = true \/ Num.lt (north a) (south b) = true \/
     Num.gt (west a) (east b) = true \/ Num.lt (east a) (west b) = true)
  /\ (boundsIntersect a b = true <->
     ~ (Num.gt (south a) (north b) = true \/ Num.lt (north a) (south b) = true \/
        Num.gt (west a) (east b) = true \/ Num.lt (east a) (west b) = true))
  /\ boundsIntersect a b = boundsIntersect b a.
Proof.
  split; [|split].
  - rewrite boundsIntersect_separated. unfold separated.
    rewrite negb_false_iff, !orb_true_iff. tauto.
  - rewrite boundsIntersect_separated. unfold separated.
    rewrite negb_true_iff, <- not_true_iff_false, !orb_true_iff. tauto.
  - rewrite !boundsIntersect_separated. f_equal. apply separated_sym.
Qed.

(** C2: with no viewport ([mapBounds] is null) the culling filter returns
    the whole list of polygons with bounds, one entry per polygon of the
    input and in the same order, whatever the polygons are; a filter by
    [boundsIntersect] is applied only when there is a viewport. *)
Theorem visiblePolygons_fail_open (polygons : list ConvertedPolygon) pwb :
  visiblePolygons None pwb = pwb
  ∧ visiblePolygons None (polygonsWithBounds polygons)
    = polygonsWithBounds polygons
  ∧ map polygon (visiblePolygons None (polygonsWithBounds polygons)) = polygons
  ∧ length (visiblePolygons None (polygonsWithBounds polygons))
    = length polygons
  ∧ (∀ mb, visiblePolygons (Some mb) pwb
           = filter (λ p, boundsIntersect (bounds p) mb = true) pwb)
  ∧ (∀ mb p, p ∈ visiblePolygons (Some mb) pwb ↔
             p ∈ pwb ∧ boundsIntersect (bounds p) mb = true).
Proof.
  assert (map polygon (polygonsWithBounds polygons) = polygons) as Hmap.
  { unfold polygonsWithBounds. rewrite map_map. apply map_id. }
  split; [reflexivity|]. split; [reflexivity|]. split; [exact Hmap|].
  split; [|split; [reflexivity|]].
  - simpl. unfold polygonsWithBounds. apply length_map.
  - intros mb p. unfold visiblePolygons. rewrite list_elem_of_filter. tauto.
Qed.

End Culling.


(** ** The line simplifier *)

Section Simplifier.

Implicit Types (points P r : list Coord) (t tolerance : float) (fuel : nat).

Lemma simplifyLine_unfold fuel points tolerance :
  simplifyLine (S fuel) points tolerance =
  if decide (length points ≤ 2) then Some points
  else
    let first := nth 0 points undefined_coord in
    let last := nth (length points - 1) points undefined_coord in
    let '(maxDistance, maxIndex) := farthest points first last in
    if Num.gt maxDistance tolerance then
      left ← simplifyLine fuel (take (maxIndex + 1) points) tolerance;
      right ← simplifyLine fuel (drop maxIndex points) tolerance;
      Some (take (length left - 1) left ++ right)
    else Some [first; last].
Proof. reflexivity. Qed.

(** The search loop either leaves its accumulator untouched or stops on one
    of the indices it visits. *)
Lemma farthest_fold points first last (indices : list nat) (acc : float * nat) :
  foldl (farthest_step points first last) acc indices = acc
  ∨ snd (foldl (farthest_step points first last) acc indices) ∈ indices.
Proof.
  revert acc. induction indices as [|i indices IH]; intros acc; simpl.
  - left. reflexivity.
  - destruct (IH (farthest_step points first last acc i)) as [E | Hin].
    + rewrite E. unfold farthest_step.
      destruct (Num.gt _ _); [right; simpl; left|left; reflexivity].
    + right. right. exact Hin.
Qed.

Lemma farthest_index points first last :
  farthest points first last = (0%float, 0)
  ∨ 1 ≤ snd (farthest points first last) ≤ length points - 2.
Proof.
  unfold farthest.
  destruct (farthest_fold points first last (seq 1 (length points - 2))
              (0%float, 0)) as [E | Hin]; [left; exact E|right].
  apply list_elem_of_In, in_seq in Hin. lia.
Qed.

Lemma farthest_bound points first last :
  snd (farthest points first last) ≤ length points - 2.
Proof.
  destruct (farthest_index points first last) as [-> | H]; simpl; lia.
Qed.

(** A split happens on an interior index as soon as the tolerance is not
    negative. *)
Lemma farthest_split points first last t :
  PrimFloat.ltb t 0 = false →
  Num.gt (fst (farthest points first last)) t = true →
  1 ≤ snd (farthest points first last) ≤ length points - 2.
Proof.
  intros Ht Hgt. destruct (farthest_index points first last) as [E | H]; [|exact H].
  rewrite E in Hgt. unfold Num.gt in Hgt. simpl in Hgt. congruence.
Qed.

Lemma simplifyLine_mono fuel fuel' P t r :
  simplifyLine fuel P t = Some r → fuel ≤ fuel' →
  simplifyLine fuel' P t = Some r.
Proof.
  revert fuel' P r. induction fuel as [|fuel IH]; intros fuel' P r H Hle.
  - discriminate.
  - destruct fuel' as [|fuel']; [lia|].
    rewrite simplifyLine_unfold in *.
    destruct (decide (length P ≤ 2)); [exact H|].
    cbv zeta in *.
    destruct (farthest P _ _) as [maxDistance maxIndex].
    destruct (Num.gt maxDistance t); [|exact H].
    destruct (simplifyLine fuel (take _ P) t) as [left|] eqn:El; [|discriminate].
    destruct (simplifyLine fuel (drop _ P) t) as [right|] eqn:Er; [|discriminate].
    rewrite (IH fuel' _ _ El), (IH fuel' _ _ Er) by lia. exact H.
Qed.

(** Termination: a tolerance that is not negative makes every recursive call
    strictly shorter, so a recursion depth of [length P] is never exceeded. *)
Lemma simplifyLine_total fuel P t :
  PrimFloat.ltb t 0 = false → length P < fuel →
  is_Some (simplifyLine fuel P t).
Proof.
  intros Ht. revert P. induction fuel as [|fuel IH]; intros P Hlen; [lia|].
  rewrite simplifyLine_unfold.
  destruct (decide (length P ≤ 2)); [eexists; reflexivity|].
  cbv zeta.
  pose proof (farthest_split P (nth 0 P undefined_coord)
                (nth (length P - 1) P undefined_coord) t Ht) as Hsplit.
  destruct (farthest P _ _) as [maxDistance maxIndex]. simpl in Hsplit.
  destruct (Num.gt maxDistance t); [|eexists; reflexivity].
  specialize (Hsplit eq_refl).
  destruct (IH (take (maxIndex + 1) P)) as [left ->].
  { rewrite length_take. lia. }
  destruct (IH (drop maxIndex P)) as [right ->].
  { rewrite length_drop. lia. }
  eexists; reflexivity.
Qed.

Lemma sublist_without_last {A} (l k : list A) :
  l `sublist_of` k →
  take (length l - 1) l `sublist_of` take (length k - 1) k.
Proof.
  destruct l as [|x l _] using rev_ind; [intros _; apply sublist_nil_l|].
  destruct k as [|y k _] using rev_ind.
  { intros H%sublist_nil_r. destruct l; discriminate. }
  rewrite !length_app. simpl.
  replace (length l + 1 - 1) with (length l) by lia.
  replace (length k + 1 - 1) with (length k) by lia.
  rewrite !take_app_length.
  intros (l1 & l2 & E & H1 & H2)%sublist_app_r.
  apply sublist_cons_r in H2 as [H2 | (l2' & -> & H2)].
  - apply sublist_nil_r in H2 as ->. rewrite app_nil_r in E. subst l1.
    etrans; [|exact H1]. apply sublist_inserts_r. reflexivity.
  - apply sublist_nil_r in H2 as ->. apply app_inj_tail in E as [-> _]. exact H1.
Qed.

Lemma simplifyLine_sound fuel P t r :
  simplifyLine fuel P t = Some r → simplified_from P r.
Proof.
  revert P r. induction fuel as [|fuel IH]; intros P r H; [discriminate|].
  rewrite simplifyLine_unfold in H.
  destruct (decide (length P ≤ 2)) as [|Hlen].
  { injection H as <-. repeat split; auto. }
  cbv zeta in H.
  pose proof (farthest_bound P (nth 0 P undefined_coord)
                (nth (length P - 1) P undefined_coord)) as Hidx.
  destruct (farthest P _ _) as [maxDistance maxIndex]. simpl in Hidx.
  destruct (Num.gt maxDistance t).
  - destruct (simplifyLine fuel (take _ P) t) as [left|] eqn:El; [|discriminate].
    destruct (simplifyLine fuel (drop _ P) t) as [right|] eqn:Er; [|discriminate].
    simpl in H. injection H as <-.
    apply IH in El as (Lsub & Lhead & Llast & Llen).
    apply IH in Er as (Rsub & Rhead & Rlast & Rlen).
    rewrite length_take in Llen. rewrite length_drop in Rlen.
    assert (Hright : 2 ≤ length right) by (apply Rlen; lia).
    assert (Hcut : take (length left - 1) left `sublist_of` take maxIndex P).
    { etrans; [apply sublist_without_last, Lsub|].
      rewrite length_take, take_take.
      replace ((maxIndex + 1) `min` length P - 1) with maxIndex by lia.
      replace (maxIndex `min` (maxIndex + 1)) with maxIndex by lia.
      reflexivity. }
    repeat split.
    + rewrite <- (take_drop maxIndex P). apply sublist_app; assumption.
    + destruct (decide (maxIndex = 0)) as [->|Hpos].
      * assert (length left ≤ 1) as Hl.
        { apply sublist_length in Lsub. rewrite length_take in Lsub.
          lia. }
        destruct left as [|? [|]]; simpl in Hl; try lia;
          simpl; rewrite Rhead, drop_0; reflexivity.
      * assert (2 ≤ length left) as Hl by (apply Llen; lia).
        destruct left as [|a [|b left]]; simpl in Hl; try lia.
        simpl in Lhead. rewrite head_lookup, lookup_take_lt in Lhead by lia.
        rewrite <- head_lookup in Lhead. rewrite <- Lhead.
        simpl. replace (length left - 0) with (length left) by lia.
        reflexivity.
    + rewrite last_app. destruct (last right) eqn:E.
      * rewrite last_lookup, lookup_drop, length_drop in Rlast.
        rewrite (last_lookup P), Rlast. f_equal. lia.
      * apply last_None in E. subst right. simpl in Hright. lia.
    + intros _. rewrite length_app. lia.
  - injection H as <-.
    destruct P as [|a [|b P]]; simpl in Hlen; try lia.
    assert (Hlast : (a :: b :: P) !! (length (a :: b :: P) - 1)
                    = Some (nth (length (a :: b :: P) - 1) (a :: b :: P)
                              undefined_coord)).
    { destruct (nth_lookup_or_length (a :: b :: P) (length (a :: b :: P) - 1)
                  undefined_coord) as [Hn|Hn]; [exact Hn|simpl in Hn; lia]. }
    set (last_point := nth (length (a :: b :: P) - 1) (a :: b :: P)
                         undefined_coord) in *.
    repeat split.
    + apply sublist_skip, singleton_sublist_l.
      simpl in Hlast. replace (length P - 0) with (length P) in Hlast by lia.
      apply list_elem_of_lookup_2 in Hlast. exact Hlast.
    + rewrite (last_lookup (a :: b :: P)).
      replace (Init.Nat.pred (length (a :: b :: P)))
        with (length (a :: b :: P) - 1) by lia.
      rewrite Hlast. reflexivity.
    + intros _. simpl. lia.
Qed.

(** C3 (amended): for every polyline [P] and every tolerance [t] that is not
    negative, [simplifyLine P t] returns (within recursion depth [length P]),
    and what it returns is a subsequence of [P] that has the first and the
    last point of [P] and is no longer than [P]; with any tolerance, a result
    that is returned has these properties. *)
Theorem simplifyLine_subsequence P t :
  PrimFloat.ltb t 0 = false →
  (∃ r, (∀ fuel, length P < fuel → simplifyLine fuel P t = Some r)
        ∧ r `sublist_of` P ∧ head r = head P ∧ last r = last P
        ∧ length r ≤ length P)
  ∧ (∀ fuel t' r, simplifyLine fuel P t' = Some r →
                  r `sublist_of` P ∧ head r = head P ∧ last r = last P
                  ∧ length r ≤ length P).
Proof.
  intros Ht. split.
  - destruct (simplifyLine_total (S (length P)) P t Ht) as [r Hr]; [lia|].
    exists r.
    pose proof (simplifyLine_sound _ _ _ _ Hr) as (Hsub & Hhead & Hlast & _).
    repeat split; try assumption.
    + intros fuel Hfuel. apply (simplifyLine_mono _ _ _ _ _ Hr). lia.
    + apply sublist_length, Hsub.
  - intros fuel t' r Hr.
    pose proof (simplifyLine_sound _ _ _ _ Hr) as (Hsub & Hhead & Hlast & _).
    repeat split; try assumption. apply sublist_length, Hsub.
Qed.

Lemma simplifyLine_subsequence_witness :
  (∃ r, (∀ fuel, length [(0, 0); (5, 0.1); (10, 0); (15, 5)]%float < fuel →
                 simplifyLine fuel [(0, 0); (5, 0.1); (10, 0); (15, 5)]%float 1
                 = Some r)
        ∧ r `sublist_of` [(0, 0); (5, 0.1); (10, 0); (15, 5)]%float
        ∧ head r = head [(0, 0); (5, 0.1); (10, 0); (15, 5)]%float
        ∧ last r = last [(0, 0); (5, 0.1); (10, 0); (15, 5)]%float
        ∧ length r ≤ length [(0, 0); (5, 0.1); (10, 0); (15, 5)]%float)
  ∧ (∀ fuel t' r,
       simplifyLine fuel [(0, 0); (5, 0.1); (10, 0); (15, 5)]%float t' = Some r →
       r `sublist_of` [(0, 0); (5, 0.1); (10, 0); (15, 5)]%float
       ∧ head r = head [(0, 0); (5, 0.1); (10, 0); (15, 5)]%float
       ∧ last r = last [(0, 0); (5, 0.1); (10, 0); (15, 5)]%float
       ∧ length r ≤ length [(0, 0); (5, 0.1); (10, 0); (15, 5)]%float).
Proof.
  apply (simplifyLine_subsequence [(0, 0); (5, 0.1); (10, 0); (15, 5)]%float 1).
  reflexivity.
Defined.

(** The scenario of the specification: the second point deviates by less
    than the tolerance and is dropped. *)
Example simplifyLine_scenario :
  simplifyLine 3 [(0, 0); (5, 0.1); (10, 0); (15, 5)]%float 1
  = Some [(0, 0); (10, 0); (15, 5)]%float.
Proof. vm_compute. reflexivity. Qed.

(** With a negative tolerance three collinear points make [simplifyLine]
    call itself on its own argument: no recursion depth is enough, the call
    never returns. *)
Lemma simplifyLine_negative_tolerance :
  ¬ ∃ fuel r, simplifyLine fuel [(0, 0); (1, 0); (2, 0)]%float (-1) = Some r.
Proof.
  intros (fuel & r & H). revert r H.
  induction fuel as [|fuel IH]; intros r H; [discriminate|].
  rewrite simplifyLine_unfold in H.
  destruct (decide _) as [Hlen|_]; [simpl in Hlen; lia|].
  cbv zeta in H.
  replace (farthest _ _ _) with (0%float, 0) in H by (vm_compute; reflexivity).
  change (Num.gt 0 (-1)) with true in H. cbv iota beta in H.
  change (drop 0 ?l) with l in H.
  destruct (simplifyLine fuel (take (0 + 1) _) _); [|discriminate].
  destruct (simplifyLine fuel _ _) as [right|]; [|discriminate].
  exact (IH right eq_refl).
Qed.

End Simplifier.

(** ** The ring / polygon processor *)

Section Processor.

Variable proj4 : Coord → Coord.

Implicit Types (ring : list Coord) (t tolerance : float) (fuel : nat).

Lemma not_positive t : PrimFloat.leb t 0 = true → Num.gt t 0 = false.
Proof.
  unfold Num.gt. rewrite leb_spec, ltb_spec. unfold SFleb, SFltb.
  change (Prim2SF 0) with (S754_zero false).
  destruct (Prim2SF t) as [ [] | [] | | [] ? ? ]; simpl; congruence.
Qed.

(** C4: with a tolerance [t <= 0] [processRing] does not call the simplifier
    (it returns even with no recursion allowed at all): its output is the
    input ring, point by point, each point reprojected.  Three collinear
    points, which [simplifyLine] with tolerance [0] cuts down to two, all
    survive. *)
Theorem processRing_no_simplification fuel ring t :
  PrimFloat.leb t 0 = true →
  processRing proj4 fuel ring t
    = Some (map (λ '(x, y), convertCoord proj4 x y) ring)
  ∧ processRing proj4 0 ring t = processRing proj4 fuel ring t
  ∧ length (map (λ '(x, y), convertCoord proj4 x y) ring) = length ring
  ∧ simplifyLine 2 [(0, 0); (1, 0); (2, 0)]%float 0
      = Some [(0, 0); (2, 0)]%float
  ∧ processRing proj4 fuel [(0, 0); (1, 0); (2, 0)]%float 0
      = Some [convertCoord proj4 0 0; convertCoord proj4 1 0;
              convertCoord proj4 2 0].
Proof.
  intros Ht%not_positive. unfold processRing. rewrite Ht. simpl.
  repeat split.
  apply length_map.
Qed.

Lemma unsupported_not_supported (g : Geometry) :
  unsupported g ↔ supported g = false.
Proof.
  unfold unsupported. destruct g; simpl; split; try done.
  - intros [H _]. done.
  - intros [_ H]. done.
Qed.

Lemma processFeature_unsupported {P} fuel (feature : Feature P) t :
  unsupported (geometry feature) → processFeature proj4 fuel feature t = Some feature.
Proof.
  intros H%unsupported_not_supported. unfold processFeature.
  destruct (geometry feature); try discriminate; reflexivity.
Qed.

Lemma processedFeatures_length {P} fuel (features r : list (Feature P)) t :
  processedFeatures proj4 fuel features t = Some r → length r = length features.
Proof.
  intros H%mapM_Some_1. symmetry. apply (Forall2_length _ _ _ H).
Qed.

End Processor.

Lemma processRing_no_simplification_witness :
  processRing (λ c, c) 7 [(0, 0); (1, 0); (2, 0)]%float 0
    = Some (map (λ '(x, y), convertCoord (λ c, c) x y)
                [(0, 0); (1, 0); (2, 0)]%float)
  ∧ processRing (λ c, c) 0 [(0, 0); (1, 0); (2, 0)]%float 0
    = processRing (λ c, c) 7 [(0, 0); (1, 0); (2, 0)]%float 0
  ∧ length (map (λ '(x, y), convertCoord (λ c, c) x y)
                [(0, 0); (1, 0); (2, 0)]%float)
    = length [(0, 0); (1, 0); (2, 0)]%float
  ∧ simplifyLine 2 [(0, 0); (1, 0); (2, 0)]%float 0
      = Some [(0, 0); (2, 0)]%float
  ∧ processRing (λ c, c) 7 [(0, 0); (1, 0); (2, 0)]%float 0
      = Some [convertCoord (λ c, c) 0 0; convertCoord (λ c, c) 1 0;
              convertCoord (λ c, c) 2 0].
Proof.
  apply (processRing_no_simplification (λ c, c) 7
           [(0, 0); (1, 0); (2, 0)]%float 0).
  reflexivity.
Defined.

(** ** The fast path over preprocessed features *)

Section FastPath.

Implicit Types (feature f : FSAFeature) (features pre post : list FSAFeature)
  (result r : list ConvertedPolygon).

Lemma convertPreprocessedFeature_unsupported f :
  unsupported (geometry f) → convertPreprocessedFeature f = Some [].
Proof.
  intros H%unsupported_not_supported. unfold convertPreprocessedFeature.
  destruct (geometry f); try discriminate; reflexivity.
Qed.

Lemma convertPreprocessedFeature_pushes f pushed :
  convertPreprocessedFeature f = Some pushed →
  length pushed = if supported (geometry f) then 1 else 0.
Proof.
  unfold convertPreprocessedFeature.
  destruct (geometry f) as [| | | | rings|parts|]; simpl;
    try (intros [= <-]; reflexivity).
  destruct (head _); simpl; [intros [= <-]; reflexivity|discriminate].
Qed.

Lemma convertPreprocessedFeatures_from_app result pre post :
  convertPreprocessedFeatures_from result (pre ++ post)
  = convertPreprocessedFeatures_from result pre
      ≫= λ r, convertPreprocessedFeatures_from r post.
Proof.
  revert result. induction pre as [|f pre IH]; intros result; simpl; [done|].
  destruct (convertPreprocessedFeature f); simpl; [apply IH|done].
Qed.

Lemma convertPreprocessedFeatures_from_length result features r :
  convertPreprocessedFeatures_from result features = Some r →
  length r
  = length result + length (filter (λ f, supported (geometry f) = true) features).
Proof.
  revert result. induction features as [|f features IH]; intros result; simpl.
  - intros [= <-]. simpl. lia.
  - destruct (convertPreprocessedFeature f) as [pushed|] eqn:E; [|discriminate].
    simpl. intros H%IH. rewrite H, length_app.
    apply convertPreprocessedFeature_pushes in E. rewrite E.
    destruct (supported (geometry f)) eqn:Es.
    + rewrite filter_cons_True by done. simpl. lia.
    + rewrite filter_cons_False by (rewrite Es; done). lia.
Qed.

End FastPath.

(** C1 (amended): a feature whose geometry discriminant is neither [Polygon]
    nor [MultiPolygon] is returned unchanged by [processFeature], so that
    the features mapped by [processGeoJSON] are as many as the input
    features; [convertPreprocessedFeatures] does not fail on such a feature
    but pushes nothing for it: its result is the one it computes without the
    feature, with one entry per [Polygon] or [MultiPolygon] feature. *)
Theorem unsupported_geometry_policy (proj4 : Coord → Coord) {P} (fuel : nat)
    (feature : Feature P) (t : float) (f : FSAFeature)
    (pre post : list FSAFeature) :
  unsupported (geometry feature) → unsupported (geometry f) →
  processFeature proj4 fuel feature t = Some feature
  ∧ (∀ (features r : list (Feature P)),
       processedFeatures proj4 fuel features t = Some r →
       length r = length features)
  ∧ convertPreprocessedFeatures (pre ++ f :: post)
    = convertPreprocessedFeatures (pre ++ post)
  ∧ (∀ features r,
       convertPreprocessedFeatures features = Some r →
       length r
       = length (filter (λ f, supported (geometry f) = true) features)).
Proof.
  intros Hfeature Hf. repeat split.
  - apply processFeature_unsupported, Hfeature.
  - intros features r. apply processedFeatures_length.
  - unfold convertPreprocessedFeatures.
    rewrite !convertPreprocessedFeatures_from_app.
    destruct (convertPreprocessedFeatures_from [] pre) as [r|]; simpl; [|done].
    rewrite (convertPreprocessedFeature_unsupported f Hf). simpl.
    rewrite app_nil_r. reflexivity.
  - intros features r H.
    apply convertPreprocessedFeatures_from_length in H. exact H.
Qed.

Lemma unsupported_geometry_policy_witness :
  processFeature (λ c, c) 0 (mkFeature sample_properties (Point (1, 2)%float)) 50
    = Some (mkFeature sample_properties (Point (1, 2)%float))
  ∧ (∀ (features r : list FSAFeature),
       processedFeatures (λ c, c) 0 features 50 = Some r →
       length r = length features)
  ∧ convertPreprocessedFeatures
      ([mkFeature sample_properties (Polygon [small_square])]
         ++ mkFeature sample_properties (LineString small_square) :: [])
    = convertPreprocessedFeatures
        ([mkFeature sample_properties (Polygon [small_square])] ++ [])
  ∧ (∀ features r,
       convertPreprocessedFeatures features = Some r →
       length r
       = length (filter (λ f, supported (geometry f) = true) features)).
Proof.
  apply (unsupported_geometry_policy (λ c, c) 0
           (mkFeature sample_properties (Point (1, 2)%float)) 50
           (mkFeature sample_properties (LineString small_square))
           [mkFeature sample_properties (Polygon [small_square])] []).
  - split; discriminate.
  - split; discriminate.
Defined.

(** On the fast path a feature with a [Point] geometry is dropped: one
    feature goes in, no entry comes out. *)
Lemma convertPreprocessedFeatures_drops_point :
  unsupported (geometry (mkFeature sample_properties (Point (1, 2)%float)))
  ∧ convertPreprocessedFeatures
      [mkFeature sample_properties (Point (1, 2)%float)] = Some []
  ∧ length (A := ConvertedPolygon) []
    ≠ length [mkFeature sample_properties (Point (1, 2)%float)].
Proof. repeat split; discriminate. Qed.


(** ** Centroids *)

Section Centroids.

Implicit Types (ring : list LatLngLiteral).

(** The fallback taken for a ring of fewer than three points. *)
Lemma calculateRingCentroid_short ring :
  length ring < 3 →
  calculateRingCentroid ring
  = {| centroid := averagePoint ring (length ring); area := 0 |}.
Proof.
  intros H. unfold calculateRingCentroid. rewrite decide_True by exact H.
  reflexivity.
Qed.

(** Either fallback reports an area of exactly [0]; the regular branch
    reports the magnitude of the signed area, which is not below [1e-10]. *)
Lemma calculateRingCentroid_area ring :
  area (calculateRingCentroid ring) = 0%float
  ∨ Num.lt (area (calculateRingCentroid ring)) 1e-10 = false.
Proof.
  unfold calculateRingCentroid. destruct (decide _); [left; reflexivity|].
  destruct (foldl _ _ _) as [[signedArea centroidLat] centroidLng].
  cbv zeta. destruct (Num.lt _ _) eqn:E; [left; reflexivity|right; exact E].
Qed.

(** C5: the fallback for degenerate rings divides by the number of points
    without a guard for the empty ring, on which the centroid is NaN; and the
    test [dx === 0 && dy === 0] of [perpendicularDistance] does not keep the
    denominator away from zero: the squares of a segment of length [1e-200]
    underflow to [0], and the distance is an infinity (or NaN when the
    numerator is [0] as well). *)
Theorem calculateRingCentroid_empty_ring :
  calculateRingCentroid []
  = {| centroid := {| lat := PrimFloat.nan; lng := PrimFloat.nan |};
       area := 0 |}
  ∧ Num.is_finite (lat (centroid (calculateRingCentroid []))) = false
  ∧ perpendicularDistance (0, 1)%float (0, 0)%float (1e-200, 0)%float
    = PrimFloat.infinity
  ∧ perpendicularDistance (0, 0)%float (0, 0)%float (1e-200, 0)%float
    = PrimFloat.nan
  ∧ Num.is_finite
      (perpendicularDistance (0, 1)%float (0, 0)%float (1e-200, 0)%float)
    = false.
Proof. repeat split; vm_compute; reflexivity. Qed.

(** A ring of one or two points does get the mean of its points. *)
Example calculateRingCentroid_two_points :
  calculateRingCentroid [ {| lat := 1; lng := 2 |}; {| lat := 3; lng := 6 |} ]%float
  = {| centroid := {| lat := 2; lng := 4 |}%float; area := 0 |}.
Proof. vm_compute. reflexivity. Qed.

(** C8: the square ring with vertices (0,0), (0,10), (10,10), (10,0) has
    centroid (5,5) and area 100, exactly, whichever of the two coordinates
    is taken for the latitude. *)
Theorem calculateRingCentroid_square :
  calculateRingCentroid
    [ {| lng := 0; lat := 0 |}; {| lng := 0; lat := 10 |};
      {| lng := 10; lat := 10 |}; {| lng := 10; lat := 0 |} ]%float
  = {| centroid := {| lat := 5; lng := 5 |}%float; area := 100 |}
  ∧ calculateRingCentroid
      [ {| lat := 0; lng := 0 |}; {| lat := 0; lng := 10 |};
        {| lat := 10; lng := 10 |}; {| lat := 10; lng := 0 |} ]%float
    = {| centroid := {| lat := 5; lng := 5 |}%float; area := 100 |}.
Proof. split; vm_compute; reflexivity. Qed.

End Centroids.

(** ** The center of a MultiPolygon *)

Section MultiPolygonCenter.

Variable proj4 : Coord → Coord.

Implicit Types (properties : FSAProperties) (first : list (list Coord))
  (rest parts : list (list (list Coord))).

Lemma convertFeatureToPolygon_center properties parts :
  center <$> convertFeatureToPolygon proj4 (mkFeature properties (MultiPolygon parts))
  = calculatePolygonCenter <$> head (map (convertPolygonCoordinates proj4) parts).
Proof. destruct parts; reflexivity. Qed.

Lemma convertPreprocessedFeature_center properties parts :
  map center <$> convertPreprocessedFeature (mkFeature properties (MultiPolygon parts))
  = (λ rings, [calculatePolygonCenter rings])
      <$> head (map (map (map reorder)) parts).
Proof. destruct parts; reflexivity. Qed.

(** C10: both converters compute the center of a MultiPolygon feature from
    the rings of its first part alone: the center is
    [calculatePolygonCenter] of the converted [coordinates[0]], whatever the
    other parts are, also when a later part is the larger one (a unit square
    followed by a square of area 100 has the center of the unit square). *)
Theorem multipolygon_center_first_part properties first rest rest' :
  center <$> convertFeatureToPolygon proj4
               (mkFeature properties (MultiPolygon (first :: rest)))
  = Some (calculatePolygonCenter (convertPolygonCoordinates proj4 first))
  ∧ map center <$> convertPreprocessedFeatures
                     [mkFeature properties (MultiPolygon (first :: rest))]
    = Some [calculatePolygonCenter (map (map reorder) first)]
  ∧ center <$> convertFeatureToPolygon proj4
                 (mkFeature properties (MultiPolygon (first :: rest)))
    = center <$> convertFeatureToPolygon proj4
                   (mkFeature properties (MultiPolygon (first :: rest')))
  ∧ map center <$> convertPreprocessedFeatures
                     [mkFeature properties (MultiPolygon (first :: rest))]
    = map center <$> convertPreprocessedFeatures
                       [mkFeature properties (MultiPolygon (first :: rest'))]
  ∧ map center <$> convertPreprocessedFeatures
                     [mkFeature properties
                        (MultiPolygon [[small_square]; [large_square]])]
    = Some [ {| lat := 0.5; lng := 0.5 |}%float ]
  ∧ area (calculateRingCentroid (map reorder small_square)) = 1%float
  ∧ area (calculateRingCentroid (map reorder large_square)) = 100%float.
Proof.
  repeat split; vm_compute; reflexivity.
Qed.

End MultiPolygonCenter.

(** ** The convex hull, over any numbers *)

Section HullGeneric.

Context {N : Type} `{Arithmetic N}.

Implicit Types (p x : LatLng N) (points stack l : list (LatLng N)).

Lemma sort_insert_Permutation x l : sort_insert x l ≡ₚ x :: l.
Proof.
  induction l as [|y l IH]; simpl; [reflexivity|].
  destruct (positive _); [|reflexivity].
  rewrite IH. apply Permutation_swap.
Qed.

Lemma sortPoints_Permutation points : sortPoints points ≡ₚ points.
Proof.
  induction points as [|x points IH]; simpl; [reflexivity|].
  rewrite sort_insert_Permutation, IH. reflexivity.
Qed.

Lemma pop_non_left_suffix stack p : pop_non_left stack p `suffix_of` stack.
Proof.
  induction stack as [|b stack IH]; simpl; [reflexivity|].
  destruct stack as [|a rest]; [reflexivity|].
  destruct (non_positive _); [|reflexivity].
  apply suffix_cons_r, IH.
Qed.

(** The loop never pops the last remaining element. *)
Lemma pop_non_left_last stack p : last (pop_non_left stack p) = last stack.
Proof.
  induction stack as [|b stack IH]; simpl; [reflexivity|].
  destruct stack as [|a rest]; [reflexivity|].
  destruct (non_positive _); [|reflexivity].
  rewrite IH. reflexivity.
Qed.

Lemma pop_non_left_length stack p :
  1 ≤ length stack → 1 ≤ length (pop_non_left stack p).
Proof.
  intros Hlen. pose proof (pop_non_left_last stack p) as Hlast.
  destruct (pop_non_left stack p); simpl; [|lia].
  destruct stack as [|b stack]; simpl in Hlen; [lia|].
  symmetry in Hlast. apply last_None in Hlast. discriminate.
Qed.

Lemma foldl_push_point_elem_of points stack x :
  x ∈ foldl push_point stack points → x ∈ stack ∨ x ∈ points.
Proof.
  revert stack. induction points as [|p points IH]; intros stack; simpl.
  - auto.
  - intros [Hin|Hin]%IH; [|right; right; exact Hin].
    apply elem_of_cons in Hin as [->|Hin]; [right; left|left].
    destruct (pop_non_left_suffix stack p) as [k E].
    rewrite E. apply elem_of_app. right. exact Hin.
Qed.

Lemma build_chain_elem_of points x : x ∈ build_chain points → x ∈ points.
Proof.
  unfold build_chain. rewrite elem_of_reverse.
  intros [Hin|Hin]%foldl_push_point_elem_of; [inversion Hin|exact Hin].
Qed.

(** From the second point on, the stack holds two elements at least. *)
Lemma foldl_push_point_length points stack :
  1 ≤ length stack + length points →
  (2 ≤ length stack + length points → 2 ≤ length (foldl push_point stack points))
  ∧ 1 ≤ length (foldl push_point stack points).
Proof.
  revert stack. induction points as [|p points IH]; intros stack Hlen; simpl in *.
  - split; lia.
  - destruct (decide (length stack = 0)) as [E|E].
    + destruct stack; [|discriminate]. simpl.
      destruct (IH [p]) as [IH2 IH1]; [simpl; lia|].
      split; [|exact IH1]. intros ?. apply IH2. simpl. lia.
    + pose proof (pop_non_left_length stack p).
      destruct (IH (push_point stack p)) as [IH2 IH1];
        [unfold push_point; simpl; lia|].
      split; [|exact IH1]. intros _. apply IH2. unfold push_point. simpl. lia.
Qed.

Lemma build_chain_length points :
  2 ≤ length points → 2 ≤ length (build_chain points).
Proof.
  intros Hlen. unfold build_chain. rewrite length_reverse.
  apply foldl_push_point_length; simpl; lia.
Qed.

Lemma calculateConvexHull_short points :
  length points < 3 → calculateConvexHull points = points.
Proof.
  intros Hlen. unfold calculateConvexHull. rewrite decide_True by exact Hlen.
  reflexivity.
Qed.

Lemma calculateConvexHull_elem_of points x :
  x ∈ calculateConvexHull points → x ∈ points.
Proof.
  unfold calculateConvexHull. destruct (decide _); [auto|].
  cbv zeta. rewrite elem_of_app.
  intros [Hin|Hin].
  - apply elem_of_take in Hin as (i & Hin%list_elem_of_lookup_2 & _).
    apply build_chain_elem_of in Hin.
    rewrite sortPoints_Permutation in Hin. exact Hin.
  - apply build_chain_elem_of in Hin.
    rewrite elem_of_reverse, sortPoints_Permutation in Hin. exact Hin.
Qed.

Lemma calculateConvexHull_length points :
  3 ≤ length points → 3 ≤ length (calculateConvexHull points).
Proof.
  intros Hlen. unfold calculateConvexHull. rewrite decide_False by lia.
  cbv zeta. rewrite length_app, length_take.
  assert (length (sortPoints points) = length points) as Hs
    by (apply Permutation_length, sortPoints_Permutation).
  pose proof (build_chain_length (sortPoints points)).
  pose proof (build_chain_length (reverse (sortPoints points))) as Hu.
  rewrite length_reverse in Hu. lia.
Qed.

Lemma foldl_push_point_head points stack :
  points ≠ [] → head (foldl push_point stack points) = last points.
Proof.
  destruct points as [|p points _] using rev_ind; [done|]. intros _.
  rewrite foldl_snoc, last_snoc. reflexivity.
Qed.

Lemma foldl_push_point_last_stack points stack :
  stack ≠ [] → last (foldl push_point stack points) = last stack.
Proof.
  revert stack. induction points as [|p points IH]; intros stack Hne; [done|].
  simpl. rewrite IH by done. unfold push_point.
  rewrite last_cons, pop_non_left_last.
  destruct (last stack) eqn:E; [reflexivity|].
  apply last_None in E. contradiction.
Qed.

Lemma foldl_push_point_last points :
  last (foldl push_point [] points) = head points.
Proof.
  destruct points as [|p points]; [done|]. simpl.
  rewrite foldl_push_point_last_stack by done. reflexivity.
Qed.

(** For three points or more, the hull is the first array without its last
    element followed by the second array. *)
Lemma calculateConvexHull_long points :
  3 ≤ length points →
  calculateConvexHull points
  = take (length (build_chain (sortPoints points)) - 1)
         (build_chain (sortPoints points))
    ++ build_chain (reverse (sortPoints points)).
Proof.
  intros Hlen. unfold calculateConvexHull. rewrite decide_False by lia.
  reflexivity.
Qed.

End HullGeneric.

(** ** Consecutive pairs *)

Section Edges.

Context {A B : Type}.

Implicit Types (l : list A) (x y : A).

Lemma edges_app_cons l1 x l2 :
  edges (l1 ++ x :: l2) = edges (l1 ++ [x]) ++ edges (x :: l2).
Proof.
  induction l1 as [|a l1 IH]; [reflexivity|].
  destruct l1 as [|b l1]; [reflexivity|].
  simpl in *. rewrite IH. reflexivity.
Qed.

Lemma edges_snoc l x y : edges (l ++ [x; y]) = edges (l ++ [x]) ++ [(x, y)].
Proof. apply (edges_app_cons l x [y]). Qed.

Lemma edges_reverse l : edges (reverse l) = reverse (prod_swap <$> edges l).
Proof.
  induction l as [|a l IH]; [reflexivity|].
  destruct l as [|b l]; [reflexivity|].
  change (edges (a :: b :: l)) with ((a, b) :: edges (b :: l)).
  rewrite fmap_cons, (reverse_cons (prod_swap <$> edges (b :: l))), <- IH.
  rewrite (reverse_cons (b :: l) a), (reverse_cons l b), <- (assoc_L (++)).
  change ([b] ++ [a]) with [b; a]. rewrite edges_snoc. reflexivity.
Qed.

Lemma edges_fmap (f : A → B) l : edges (f <$> l) = prod_map f f <$> edges l.
Proof.
  induction l as [|a l IH]; [reflexivity|].
  destruct l as [|b l]; [reflexivity|].
  cbn [edges fmap list_fmap] in *. rewrite IH. reflexivity.
Qed.

End Edges.

(** ** The convex hull over exact integers *)

Section HullExact.

Local Open Scope Z_scope.

Implicit Types (a b c o p q u v : LatLng Z) (points stack l : list (LatLng Z)).

Lemma crossProduct_exact o a b :
  crossProduct o a b
  = (lat a - lat o) * (lng b - lng o) - (lng a - lng o) * (lat b - lat o).
Proof. reflexivity. Qed.

(** *** The order of the sort *)

Lemma point_eq a b : lat a = lat b → lng a = lng b → a = b.
Proof. destruct a, b; simpl; congruence. Qed.

#[export] Instance lex_le_refl : Reflexive lex_le.
Proof. intros a. unfold lex_le. lia. Qed.

#[export] Instance lex_le_trans : Transitive lex_le.
Proof. intros a b c. unfold lex_le. lia. Qed.

#[export] Instance lex_le_total : Total lex_le.
Proof. intros a b. unfold lex_le. lia. Qed.

#[export] Instance lex_le_antisymm : AntiSymm (=) lex_le.
Proof. intros a b Hab Hba. apply point_eq; unfold lex_le in *; lia. Qed.

Lemma lex_lt_le a b : lex_lt a b → lex_le a b.
Proof. unfold lex_lt, lex_le. lia. Qed.

Lemma lex_le_lt_eq a b : lex_le a b → a = b ∨ lex_lt a b.
Proof.
  intros Hab. destruct (decide (lat a = lat b ∧ lng a = lng b)) as [[? ?]|Hne].
  - left. apply point_eq; assumption.
  - right. unfold lex_lt, lex_le in *. lia.
Qed.

Lemma lex_lt_irrefl a : ¬ lex_lt a a.
Proof. unfold lex_lt. lia. Qed.

Lemma lex_trichotomy a b : lex_lt a b ∨ a = b ∨ lex_lt b a.
Proof.
  destruct (lex_le_total a b) as [[->|?]%lex_le_lt_eq|[->|?]%lex_le_lt_eq]; auto.
Qed.

Lemma lex_le_lt_trans a b c : lex_le a b → lex_lt b c → lex_lt a c.
Proof. unfold lex_le, lex_lt. lia. Qed.

Lemma lex_lt_le_trans a b c : lex_lt a b → lex_le b c → lex_lt a c.
Proof. unfold lex_le, lex_lt. lia. Qed.

Lemma positive_comparePoints a b :
  positive (comparePoints a b) = true ↔ lex_lt b a.
Proof.
  unfold comparePoints, lex_lt. simpl.
  destruct (Z.eqb_spec (lat a) (lat b)); rewrite Z.ltb_lt; lia.
Qed.

Lemma sort_insert_sorted a l :
  StronglySorted lex_le l → StronglySorted lex_le (sort_insert a l).
Proof.
  induction 1 as [|b l Hl IH Hb]; cbn [sort_insert].
  - repeat constructor.
  - destruct (positive (comparePoints a b)) eqn:E.
    + apply positive_comparePoints, lex_lt_le in E.
      constructor; [exact IH|].
      rewrite sort_insert_Permutation. constructor; assumption.
    + assert (lex_le a b) as Hab.
      { destruct (lex_le_total a b) as [?|[->|Hlt]%lex_le_lt_eq];
          [assumption|reflexivity|].
        apply positive_comparePoints in Hlt. congruence. }
      constructor; [constructor; assumption|].
      constructor; [exact Hab|].
      eapply Forall_impl; [exact Hb|]. intros c Hc. etrans; eassumption.
Qed.

Lemma sortPoints_sorted points : StronglySorted lex_le (sortPoints points).
Proof.
  induction points as [|a points IH]; simpl; [constructor|].
  apply sort_insert_sorted, IH.
Qed.

(** Sorted lists with the same elements are equal. *)
Lemma sorted_unique l1 l2 :
  StronglySorted lex_le l1 → StronglySorted lex_le l2 → l1 ≡ₚ l2 → l1 = l2.
Proof. apply StronglySorted_unique; apply _. Qed.

(** *** Three facts on the orientation of points in sorted order *)

(** After a left turn at [b], a point beyond [b] that is not on the right of
    the second edge is on the left of the first. *)
Lemma turn_extends a b c p :
  lex_le a b → lex_le b c → lex_lt b p →
  0 < crossProduct a b c → 0 ≤ crossProduct b c p →
  0 < crossProduct a b p.
Proof.
  rewrite !crossProduct_exact. unfold lex_le, lex_lt.
  destruct a as [ax ay], b as [bx by'], c as [cx cy], p as [px py]. simpl.
  intros Hab Hbc Hbp H1 H2.
  pose (ux := bx - ax). pose (uy := by' - ay).
  pose (vx := cx - bx). pose (vy := cy - by').
  pose (tx := px - bx). pose (ty := py - by').
  assert (0 < ux * vy - uy * vx) as H1' by (subst ux uy vx vy; lia).
  assert (0 ≤ vx * ty - vy * tx) as H2' by (subst vx vy tx ty; lia).
  assert (0 < ux ∨ (ux = 0 ∧ 0 ≤ uy)) as Hu by (subst ux uy; lia).
  assert (0 < vx ∨ (vx = 0 ∧ 0 ≤ vy)) as Hv by (subst vx vy; lia).
  assert (0 < tx ∨ (tx = 0 ∧ 0 < ty)) as Ht by (subst tx ty; lia).
  enough (0 < ux * ty - uy * tx) by (subst ux uy tx ty; lia).
  clearbody ux uy vx vy tx ty. clear Hab Hbc Hbp H1 H2.
  assert ((ux * ty - uy * tx) * vx
          = (ux * vy - uy * vx) * tx + (vx * ty - vy * tx) * ux) by ring.
  assert ((ux * ty - uy * tx) * vy
          = (ux * vy - uy * vx) * ty + (vx * ty - vy * tx) * uy) by ring.
  destruct Hu as [?|[? ?]], Hv as [?|[? ?]], Ht as [?|[? ?]]; subst; nia.
Qed.

(** When [p], beyond [b], is on the left of the edge from [a] to [b], a
    point [q] before [b] that is not on the right of that edge is not on the
    right of the edge from [b] to [p]; it is on its left when [q] is not
    [b]. *)
Lemma turn_behind a b p q :
  lex_le a b → lex_le b p → lex_le q b →
  0 < crossProduct a b p → 0 ≤ crossProduct a b q →
  0 ≤ crossProduct b p q ∧ (lex_lt q b → 0 < crossProduct b p q).
Proof.
  rewrite !crossProduct_exact. unfold lex_le, lex_lt.
  destruct a as [ax ay], b as [bx by'], p as [px py], q as [qx qy]. simpl.
  intros Hab Hbp Hqb H1 H2.
  pose (ux := bx - ax). pose (uy := by' - ay).
  pose (tx := px - bx). pose (ty := py - by').
  pose (sx := bx - qx). pose (sy := by' - qy).
  assert (0 < ux * ty - uy * tx) as H1' by (subst ux uy tx ty; lia).
  assert (0 ≤ uy * sx - ux * sy) as H2' by (subst ux uy sx sy; lia).
  assert (0 < ux ∨ (ux = 0 ∧ 0 ≤ uy)) as Hu by (subst ux uy; lia).
  assert (0 < tx ∨ (tx = 0 ∧ 0 ≤ ty)) as Ht by (subst tx ty; lia).
  assert (0 < sx ∨ (sx = 0 ∧ 0 ≤ sy)) as Hs by (subst sx sy; lia).
  enough (0 ≤ ty * sx - tx * sy
          ∧ (0 < sx ∨ (sx = 0 ∧ 0 < sy) → 0 < ty * sx - tx * sy))
    by (subst tx ty sx sy; lia).
  clearbody ux uy tx ty sx sy. clear Hab Hbp Hqb H1 H2.
  assert ((ty * sx - tx * sy) * ux
          = (ux * ty - uy * tx) * sx + (uy * sx - ux * sy) * tx) by ring.
  assert ((ty * sx - tx * sy) * uy
          = (ux * ty - uy * tx) * sy + (uy * sx - ux * sy) * ty) by ring.
  split; [|intros Hs'];
    destruct Hu as [?|[? ?]], Ht as [?|[? ?]], Hs as [?|[? ?]]; subst; nia.
Qed.

(** A point [q] between [a] and [b] that is not on the right of the segment
    from [a] to [b] is not on the right of a forward edge from [u] to [v]
    that has neither [a] nor [b] on its right. *)
Lemma above_segment a b q u v :
  lex_le a q → lex_le q b → lex_le u v →
  0 ≤ crossProduct a b q →
  0 ≤ crossProduct u v a → 0 ≤ crossProduct u v b →
  0 ≤ crossProduct u v q.
Proof.
  rewrite !crossProduct_exact. unfold lex_le.
  destruct a as [ax ay], b as [bx by'], q as [qx qy], u as [ux uy],
    v as [vx vy]. simpl.
  intros Haq Hqb Huv H1 Ha Hb.
  pose (wx := bx - ax). pose (wy := by' - ay).
  pose (sx := qx - ax). pose (sy := qy - ay).
  pose (dx := vx - ux). pose (dy := vy - uy).
  pose (fa := dx * (ay - uy) - dy * (ax - ux)).
  assert (0 ≤ wx * sy - wy * sx) as H1' by (subst wx wy sx sy; lia).
  assert (0 ≤ fa) as Ha' by (subst fa dx dy; lia).
  assert (0 ≤ fa + (dx * wy - dy * wx)) as Hb' by (subst fa dx dy wx wy; lia).
  assert (0 < sx ∨ (sx = 0 ∧ 0 ≤ sy)) as Hs by (subst sx sy; lia).
  assert (0 < wx - sx ∨ (wx - sx = 0 ∧ 0 ≤ wy - sy)) as Hw
    by (subst wx wy sx sy; lia).
  assert (0 < dx ∨ (dx = 0 ∧ 0 ≤ dy)) as Hd by (subst dx dy; lia).
  enough (0 ≤ fa + (dx * sy - dy * sx)) by (subst fa dx dy sx sy; lia).
  clearbody wx wy sx sy dx dy fa. clear Haq Hqb Huv H1 Ha Hb.
  assert (wx * (fa + (dx * sy - dy * sx))
          = (wx - sx) * fa + sx * (fa + (dx * wy - dy * wx))
            + dx * (wx * sy - wy * sx)) by ring.
  assert (wy * (fa + (dx * sy - dy * sx))
          = (wy - sy) * fa + sy * (fa + (dx * wy - dy * wx))
            + dy * (wx * sy - wy * sx)) by ring.
  destruct Hs as [?|[? ?]], Hw as [?|[? ?]], Hd as [?|[? ?]]; subst; nia.
Qed.

Lemma crossProduct_swap o a b : crossProduct o b a = - crossProduct o a b.
Proof. rewrite !crossProduct_exact. ring. Qed.

Lemma crossProduct_flat_l a b : crossProduct a a b = 0.
Proof. rewrite crossProduct_exact. ring. Qed.

Lemma crossProduct_flat_r a b : crossProduct a b b = 0.
Proof. rewrite crossProduct_exact. ring. Qed.

Lemma crossProduct_flat_m a b : crossProduct a b a = 0.
Proof. rewrite crossProduct_exact. ring. Qed.

(** *** The invariant of the scan *)

Lemma sorted_snoc_le done p q :
  StronglySorted lex_le (done ++ [p]) → q ∈ done → lex_le q p.
Proof.
  intros Hs Hq. apply (StronglySorted_app_1_elem_of _ _ _ _ _ Hs Hq).
  apply list_elem_of_singleton. reflexivity.
Qed.

Lemma sorted_head_le l m q :
  StronglySorted lex_le l → head l = Some m → q ∈ l → lex_le m q.
Proof.
  intros Hs Hm Hq. destruct l as [|x l]; [discriminate|].
  injection Hm as ->. apply StronglySorted_cons in Hs as [Hall _].
  apply elem_of_cons in Hq as [->|Hq]; [reflexivity|].
  rewrite Forall_forall in Hall. apply Hall, Hq.
Qed.

Lemma sorted_last_le l m q :
  StronglySorted lex_le l → last l = Some m → q ∈ l → lex_le q m.
Proof.
  intros Hs Hm Hq. apply last_Some in Hm as [l' ->].
  apply elem_of_app in Hq as [Hq|Hq%list_elem_of_singleton].
  - apply (sorted_snoc_le l'); assumption.
  - subst q. reflexivity.
Qed.

Lemma stack_convex_tail a stack : stack_convex (a :: stack) → stack_convex stack.
Proof. destruct stack as [|b [|c stack]]; simpl; tauto. Qed.

(** Below a left turn towards [p], every edge has [p] on its left. *)
Lemma stack_convex_left b a stack p :
  stack_convex (b :: a :: stack) → stack_monotone (b :: a :: stack) →
  lex_lt b p → 0 < crossProduct a b p →
  Forall (λ e, 0 < crossProduct e.2 e.1 p) (edges (b :: a :: stack)).
Proof.
  revert b a. induction stack as [|a' stack IH]; intros b a Hc Hm Hbp Hab.
  - repeat constructor. exact Hab.
  - cbn [stack_convex] in Hc. destruct Hc as [Hturn Hc].
    unfold stack_monotone in Hm. cbn [edges] in Hm.
    apply Forall_cons in Hm as [Hba Hm]. pose proof Hm as Hm'.
    apply Forall_cons in Hm' as [Haa' _]. simpl in Hba, Haa'.
    assert (lex_lt a p) as Hap by (eapply lex_le_lt_trans; eassumption).
    cbn [edges]. constructor; [exact Hab|].
    apply IH; [exact Hc|exact Hm|exact Hap|].
    apply (turn_extends a' a b p); try assumption. lia.
Qed.

(** One round of the [while] loop keeps its invariant. *)
Lemma pop_inv_step done p b a stack :
  (∀ q, q ∈ done → lex_le q p) →
  pop_inv done p (b :: a :: stack) → crossProduct a b p ≤ 0 →
  pop_inv done p (a :: stack).
Proof.
  intros Hp (Hc & Hm & Habove & Hlast & Htop) Hpop.
  destruct (Htop b eq_refl) as [Hbp Hb].
  unfold stack_monotone in Hm. cbn [edges] in Hm.
  apply Forall_cons in Hm as [Hab Hm]. simpl in Hab.
  repeat split.
  - apply stack_convex_tail in Hc. exact Hc.
  - exact Hm.
  - intros q Hq. specialize (Habove q Hq). unfold above_stack in Habove.
    cbn [edges] in Habove. apply Forall_cons in Habove as [_ Habove].
    exact Habove.
  - rewrite <- Hlast. reflexivity.
  - injection H as <-. transitivity b; assumption.
  - injection H as <-. intros q Hq Haq.
    assert (0 ≤ crossProduct a p b) as Hapb
      by (rewrite crossProduct_swap; lia).
    destruct (lex_le_total b q) as [Hbq|Hqb].
    + apply (above_segment b p q a p); try assumption.
      * apply Hp, Hq.
      * transitivity b; assumption.
      * apply Hb; assumption.
      * rewrite crossProduct_flat_r. lia.
    + apply (above_segment a b q a p); try assumption.
      * transitivity b; assumption.
      * specialize (Habove q Hq). unfold above_stack in Habove.
        cbn [edges] in Habove. apply Forall_cons in Habove as [Habove _].
        exact Habove.
      * rewrite crossProduct_flat_m. lia.
Qed.

Lemma pop_non_left_cons b a stack p :
  pop_non_left (b :: a :: stack) p
  = if crossProduct a b p <=? 0 then pop_non_left (a :: stack) p
    else b :: a :: stack.
Proof. reflexivity. Qed.

(** The loop ends on a stack that satisfies the invariant and whose last
    two elements turn left towards [p]. *)
Lemma pop_non_left_inv done p stack :
  (∀ q, q ∈ done → lex_le q p) →
  pop_inv done p stack →
  pop_inv done p (pop_non_left stack p)
  ∧ match pop_non_left stack p with
    | b :: a :: _ => 0 < crossProduct a b p
    | _ => True
    end.
Proof.
  intros Hp. induction stack as [|b stack IH]; intros Hinv; [done|].
  destruct stack as [|a stack]; [done|].
  rewrite pop_non_left_cons.
  destruct (Z.leb_spec (crossProduct a b p) 0) as [Hle|Hgt].
  - apply IH. apply (pop_inv_step done p b a stack); assumption.
  - split; [exact Hinv|exact Hgt].
Qed.

(** One iteration of the [for] loop keeps its invariant. *)
Lemma push_point_inv done stack p :
  StronglySorted lex_le (done ++ [p]) →
  scan_inv done stack → scan_inv (done ++ [p]) (push_point stack p).
Proof.
  intros Hsorted (Hc & Hm & Habove & Htop & Hbottom).
  pose proof (StronglySorted_app_1_l _ _ _ Hsorted) as Hdone.
  assert (∀ q, q ∈ done → lex_le q p) as Hp
    by (intros q; apply sorted_snoc_le, Hsorted).
  assert (pop_inv done p stack) as Hinv.
  { repeat split; try assumption.
    - apply Hp. eapply last_Some_elem_of. rewrite <- Htop. exact H.
    - intros q Hq Htq. rewrite Htop in H.
      pose proof (sorted_last_le _ _ _ Hdone H Hq) as Hqt.
      rewrite (anti_symm lex_le _ _ Htq Hqt), crossProduct_flat_m. lia. }
  destruct (pop_non_left_inv done p stack Hp Hinv)
    as [(Hc' & Hm' & Habove' & Hbottom' & Htop') Hturn].
  unfold push_point. destruct (pop_non_left stack p) as [|t rest] eqn:Epop.
  { (* the stack was empty: [p] is the first point *)
    assert (stack = []) as ->.
    { destruct stack as [|x stack]; [reflexivity|].
      pose proof (pop_non_left_length (x :: stack) p) as Hlen.
      rewrite Epop in Hlen. simpl in Hlen. lia. }
    simpl in Htop. symmetry in Htop. apply last_None in Htop as ->.
    repeat split; try done. intros q _. constructor. }
  destruct (Htop' t eq_refl) as [Htp Ht].
  assert (is_Some (head done)) as [m Hm0].
  { rewrite <- Hbottom'. apply last_is_Some. discriminate. }
  repeat split.
  - destruct rest as [|a rest]; [exact I|]. cbn [stack_convex]. split; assumption.
  - unfold stack_monotone. cbn [edges]. constructor; assumption.
  - intros q Hq. unfold above_stack. cbn [edges].
    apply elem_of_app in Hq as [Hq|Hq%list_elem_of_singleton].
    + constructor; [|apply Habove', Hq]. cbn [fst snd].
      destruct (lex_le_total t q) as [Htq|Hqt]; [apply Ht; assumption|].
      destruct rest as [|a rest].
      * simpl in Hbottom'. rewrite Hm0 in Hbottom'. injection Hbottom' as ->.
        pose proof (sorted_head_le _ _ _ Hdone Hm0 Hq) as Hmq.
        rewrite (anti_symm lex_le _ _ Hmq Hqt), crossProduct_flat_m. lia.
      * unfold stack_monotone in Hm'. cbn [edges] in Hm'.
        apply Forall_cons in Hm' as [Hat _]. cbn [fst snd] in Hat.
        specialize (Habove' q Hq). unfold above_stack in Habove'.
        cbn [edges] in Habove'. apply Forall_cons in Habove' as [Hatq _].
        apply (turn_behind a t p q); assumption.
    + subst q. constructor; [cbn [fst snd]; rewrite crossProduct_flat_r; lia|].
      destruct rest as [|a rest]; [constructor|].
      assert (lex_lt t p) as Hlt.
      { destruct (lex_le_lt_eq _ _ Htp) as [->|?]; [|assumption].
        rewrite crossProduct_flat_r in Hturn. lia. }
      eapply Forall_impl;
        [apply (stack_convex_left t a rest p); assumption|].
      intros e He. cbn beta in He |- *. lia.
  - simpl. rewrite last_snoc. reflexivity.
  - rewrite last_cons, Hbottom'. rewrite Hm0.
    destruct done; [discriminate|]. symmetry. exact Hm0.
Qed.

Lemma foldl_push_point_inv todo done stack :
  StronglySorted lex_le (done ++ todo) →
  scan_inv done stack → scan_inv (done ++ todo) (foldl push_point stack todo).
Proof.
  revert done stack. induction todo as [|p todo IH]; intros done stack Hs Hinv.
  - rewrite app_nil_r. exact Hinv.
  - simpl. replace (done ++ p :: todo) with ((done ++ [p]) ++ todo) in *
      by (rewrite <- (assoc_L (++)); reflexivity).
    apply IH; [exact Hs|]. apply push_point_inv; [|exact Hinv].
    apply StronglySorted_app_1_l in Hs. exact Hs.
Qed.

Lemma scan_inv_sorted l :
  StronglySorted lex_le l → scan_inv l (foldl push_point [] l).
Proof.
  intros Hs. apply (foldl_push_point_inv l [] []); [exact Hs|].
  split; [exact I|]. split; [constructor|]. split; [|done].
  intros q Hq. inversion Hq.
Qed.

(** *** The second loop is the first loop on the mirrored points *)

Lemma opposite_involutive p : opposite (opposite p) = p.
Proof. destruct p as [x y]. unfold opposite. simpl. f_equal; lia. Qed.

Lemma opposite_involutive_list l : opposite <$> (opposite <$> l) = l.
Proof.
  rewrite <- list_fmap_compose. rewrite <- (list_fmap_id l) at 2.
  apply list_fmap_ext. intros _ p _. apply opposite_involutive.
Qed.

Lemma crossProduct_opposite o a b :
  crossProduct (opposite o) (opposite a) (opposite b) = crossProduct o a b.
Proof. rewrite !crossProduct_exact. simpl. ring. Qed.

Lemma crossProduct_opposite_r o a b :
  crossProduct (opposite o) (opposite a) b = crossProduct o a (opposite b).
Proof. rewrite !crossProduct_exact. simpl. ring. Qed.

Lemma lex_le_opposite a b : lex_le (opposite a) (opposite b) ↔ lex_le b a.
Proof. unfold lex_le. simpl. lia. Qed.

Lemma pop_non_left_opposite stack p :
  pop_non_left (opposite <$> stack) (opposite p)
  = opposite <$> pop_non_left stack p.
Proof.
  induction stack as [|b stack IH]; [reflexivity|].
  destruct stack as [|a stack]; [reflexivity|].
  rewrite pop_non_left_cons, !fmap_cons, pop_non_left_cons.
  rewrite crossProduct_opposite. rewrite <- !fmap_cons, IH.
  destruct (_ <=? _); reflexivity.
Qed.

Lemma foldl_push_point_opposite l stack :
  foldl push_point (opposite <$> stack) (opposite <$> l)
  = opposite <$> foldl push_point stack l.
Proof.
  revert stack. induction l as [|p l IH]; intros stack; [reflexivity|].
  rewrite fmap_cons. cbn [foldl]. rewrite <- IH. f_equal.
  unfold push_point. rewrite fmap_cons, pop_non_left_opposite. reflexivity.
Qed.

Lemma sorted_opposite_reverse l :
  StronglySorted lex_le l → StronglySorted lex_le (opposite <$> reverse l).
Proof.
  induction 1 as [|a l Hl IH Ha]; [constructor|].
  rewrite reverse_cons, fmap_app. apply StronglySorted_app_2.
  - intros x1 x2 Hx1 Hx2%list_elem_of_singleton. subst x2.
    apply list_elem_of_fmap in Hx1 as (x & -> & Hx).
    rewrite elem_of_reverse in Hx.
    apply lex_le_opposite. rewrite Forall_forall in Ha. apply Ha, Hx.
  - exact IH.
  - repeat constructor.
Qed.

Lemma sortPoints_opposite points :
  sortPoints (opposite <$> points) = opposite <$> reverse (sortPoints points).
Proof.
  apply sorted_unique.
  - apply sortPoints_sorted.
  - apply sorted_opposite_reverse, sortPoints_sorted.
  - rewrite sortPoints_Permutation, reverse_Permutation, sortPoints_Permutation.
    reflexivity.
Qed.

Lemma upper_stack_opposite points :
  upper_stack points = opposite <$> scan (opposite <$> points).
Proof.
  unfold scan, upper_stack. rewrite sortPoints_opposite.
  rewrite <- (foldl_push_point_opposite _ []). simpl.
  rewrite opposite_involutive_list. reflexivity.
Qed.

Lemma scan_opposite points :
  scan (opposite <$> points) = opposite <$> upper_stack points.
Proof.
  rewrite upper_stack_opposite, opposite_involutive_list. reflexivity.
Qed.

(** *** What the two loops leave on their stacks *)

Lemma elem_of_sortPoints points q : q ∈ sortPoints points ↔ q ∈ points.
Proof. rewrite sortPoints_Permutation. reflexivity. Qed.

Lemma scan_above points q : q ∈ points → above_stack (scan points) q.
Proof.
  intros Hq. destruct (scan_inv_sorted _ (sortPoints_sorted points))
    as (_ & _ & Habove & _).
  apply Habove, elem_of_sortPoints, Hq.
Qed.

Lemma scan_convex points : stack_convex (scan points).
Proof. apply (scan_inv_sorted _ (sortPoints_sorted points)). Qed.

Lemma scan_monotone points : stack_monotone (scan points).
Proof. apply (scan_inv_sorted _ (sortPoints_sorted points)). Qed.

Lemma scan_head points : head (scan points) = last (sortPoints points).
Proof. apply (scan_inv_sorted _ (sortPoints_sorted points)). Qed.

Lemma scan_last points : last (scan points) = head (sortPoints points).
Proof. apply foldl_push_point_last. Qed.

Lemma upper_stack_head points :
  head (upper_stack points) = head (sortPoints points).
Proof.
  unfold upper_stack. destruct (sortPoints points) as [|a l] eqn:E; [done|].
  rewrite foldl_push_point_head, last_reverse; [reflexivity|].
  intros Hnil. apply (f_equal length) in Hnil.
  rewrite length_reverse in Hnil. discriminate.
Qed.

Lemma upper_stack_last points :
  last (upper_stack points) = last (sortPoints points).
Proof.
  unfold upper_stack. rewrite foldl_push_point_last, head_reverse. reflexivity.
Qed.

(** Every point is on the left of or on every edge of the second stack. *)
Lemma upper_stack_above points q :
  q ∈ points → above_stack (upper_stack points) q.
Proof.
  intros Hq. rewrite upper_stack_opposite. unfold above_stack.
  rewrite edges_fmap, Forall_fmap.
  assert (opposite q ∈ opposite <$> points) as Hq'
    by (apply list_elem_of_fmap_2, Hq).
  apply scan_above in Hq'. unfold above_stack in Hq'.
  eapply Forall_impl; [exact Hq'|]. intros [b a] He.
  unfold compose. cbn [prod_map fst snd] in He |- *.
  rewrite crossProduct_opposite_r. exact He.
Qed.

End HullExact.

(** *** Every point is on or inside the hull *)

Section HullShape.

Implicit Types (a b c o p q u v : LatLng Z) (points stack l : list (LatLng Z)).

Lemma take_reverse_tail stack :
  take (length (reverse stack) - 1) (reverse stack) = reverse (tail stack).
Proof.
  destruct stack as [|b stack]; [reflexivity|].
  rewrite reverse_cons, length_app. simpl.
  replace (length (reverse stack) + 1 - 1) with (length (reverse stack)) by lia.
  apply take_app_length.
Qed.

Lemma calculateConvexHull_stacks points :
  3 ≤ length points →
  calculateConvexHull points
  = reverse (tail (scan points)) ++ reverse (upper_stack points).
Proof.
  intros Hlen. rewrite calculateConvexHull_long by exact Hlen.
  unfold build_chain. fold (scan points). fold (upper_stack points).
  rewrite take_reverse_tail. reflexivity.
Qed.

Lemma scan_length points : 2 ≤ length points → 2 ≤ length (scan points).
Proof.
  intros Hlen. unfold scan. apply foldl_push_point_length; simpl;
    rewrite (Permutation_length (sortPoints_Permutation points)); lia.
Qed.

Lemma upper_stack_length points :
  2 ≤ length points → 2 ≤ length (upper_stack points).
Proof.
  intros Hlen. unfold upper_stack. apply foldl_push_point_length; simpl;
    rewrite length_reverse,
      (Permutation_length (sortPoints_Permutation points)); lia.
Qed.

(** The closed polygon of the hull is made of the edges of the two stacks
    and of a closing edge without length. *)
Lemma calculateConvexHull_closed_edges points :
  3 ≤ length points →
  ∃ a, closed_edges (calculateConvexHull points)
       = edges (reverse (scan points))
         ++ edges (reverse (upper_stack points)) ++ [(a, a)].
Proof.
  intros Hlen. rewrite calculateConvexHull_stacks by exact Hlen.
  pose proof (scan_length points ltac:(lia)) as Hl.
  pose proof (upper_stack_length points ltac:(lia)) as Hu.
  pose proof (scan_head points) as Hlh. pose proof (scan_last points) as Hll.
  pose proof (upper_stack_head points) as Huh.
  pose proof (upper_stack_last points) as Hul.
  destruct (scan points) as [|b [|b' rl]] eqn:El; simpl in Hl; try lia.
  destruct (upper_stack points) as [|a ru] eqn:Eu; simpl in Hu; try lia.
  simpl in Hlh, Huh. rewrite <- Hlh in Hul. rewrite <- Huh in Hll.
  apply last_Some in Hul as [su' Hsu'].
  rewrite last_cons_cons in Hll.
  assert (head (reverse (b' :: rl)) = Some a) as Hhead
    by (rewrite head_reverse; exact Hll).
  exists a. unfold closed_edges. cbn [tail].
  destruct (reverse (b' :: rl)) as [|x front] eqn:Efront; [discriminate|].
  injection Hhead as ->. cbn [app take].
  rewrite (reverse_cons (b' :: rl) b), Efront.
  rewrite Hsu', reverse_snoc.
  change ((a :: front) ++ b :: reverse su')
    with (a :: front ++ b :: reverse su').
  rewrite <- (assoc_L (++) _ _ [a]).
  change (a :: front ++ (b :: reverse su') ++ [a])
    with ((a :: front) ++ b :: (reverse su' ++ [a])).
  rewrite edges_app_cons. f_equal.
  destruct su' as [|y su'']; simpl in Hsu'.
  - injection Hsu' as -> ->. simpl in Hu. lia.
  - injection Hsu' as -> ->. rewrite reverse_cons, <- (assoc_L (++)).
    apply (edges_snoc (b :: reverse su'') y y).
Qed.

Lemma inside_or_on_short points q :
  length points < 3 → q ∈ points → inside_or_on points q.
Proof.
  intros Hlen Hq. split; [|split].
  - destruct points as [|a [|b [|c points]]]; simpl in Hlen; try lia.
    + inversion Hq.
    + apply list_elem_of_singleton in Hq as ->.
      repeat constructor. cbn [fst snd]. rewrite crossProduct_flat_l. lia.
    + unfold closed_edges. cbn [app take edges].
      repeat constructor; cbn [fst snd];
        apply elem_of_cons in Hq as [->|Hq%list_elem_of_singleton];
        subst; rewrite ?crossProduct_flat_m, ?crossProduct_flat_r; lia.
  - apply Exists_exists. exists q. split; [exact Hq|reflexivity].
  - apply Exists_exists. exists q. split; [exact Hq|reflexivity].
Qed.

Lemma calculateConvexHull_contains points q :
  q ∈ points → inside_or_on (calculateConvexHull points) q.
Proof.
  intros Hq. destruct (decide (length points < 3)) as [Hshort|Hlong].
  { rewrite calculateConvexHull_short by exact Hshort.
    apply inside_or_on_short; assumption. }
  destruct (calculateConvexHull_closed_edges points) as [a Hedges]; [lia|].
  split; [|split].
  - rewrite Hedges, !Forall_app, !edges_reverse, !Forall_reverse, !Forall_fmap.
    split; [apply scan_above, Hq|].
    split; [apply upper_stack_above, Hq|].
    repeat constructor. cbn [fst snd]. rewrite crossProduct_flat_l. lia.
  - (* the first point in sorted order is on the hull *)
    rewrite calculateConvexHull_stacks by lia.
    pose proof (upper_stack_head points) as Hh.
    destruct (upper_stack points) as [|m su] eqn:E.
    { pose proof (upper_stack_length points ltac:(lia)) as Hu.
      rewrite E in Hu. simpl in Hu. lia. }
    apply Exists_exists. exists m. split.
    + apply elem_of_app. right. apply elem_of_reverse. left.
    + symmetry in Hh. apply (sorted_head_le _ _ _ (sortPoints_sorted points) Hh).
      apply elem_of_sortPoints, Hq.
  - rewrite calculateConvexHull_stacks by lia.
    pose proof (upper_stack_last points) as Hl.
    destruct (last (upper_stack points)) as [m|] eqn:E.
    + apply Exists_exists. exists m. split.
      * apply elem_of_app. right. apply elem_of_reverse.
        eapply last_Some_elem_of, E.
      * symmetry in Hl.
        apply (sorted_last_le _ _ _ (sortPoints_sorted points) Hl).
        apply elem_of_sortPoints, Hq.
    + apply last_None in E.
      pose proof (upper_stack_length points ltac:(lia)) as Hu.
      rewrite E in Hu. simpl in Hu. lia.
Qed.

(** *** The stack of a loop is determined by the points it keeps *)

Lemma crossProduct_swap_origin a b c :
  crossProduct c b a = (- crossProduct a b c)%Z.
Proof. rewrite !crossProduct_exact. ring. Qed.

Lemma stack_monotone_cons b a stack :
  stack_monotone (b :: a :: stack) ↔ lex_le a b ∧ stack_monotone (a :: stack).
Proof. unfold stack_monotone. cbn [edges]. rewrite Forall_cons. reflexivity. Qed.

Lemma stack_strict_cons b a stack :
  stack_strict (b :: a :: stack) ↔ lex_lt a b ∧ stack_strict (a :: stack).
Proof. unfold stack_strict. cbn [edges]. rewrite Forall_cons. reflexivity. Qed.

Lemma above_stack_cons b a stack q :
  above_stack (b :: a :: stack) q
  ↔ (0 ≤ crossProduct a b q)%Z ∧ above_stack (a :: stack) q.
Proof. unfold above_stack. cbn [edges]. rewrite Forall_cons. reflexivity. Qed.

Lemma stack_strict_monotone stack : stack_strict stack → stack_monotone stack.
Proof.
  unfold stack_strict, stack_monotone. intros Hs.
  eapply Forall_impl; [exact Hs|]. intros e. apply lex_lt_le.
Qed.

Lemma stack_monotone_bounds stack x :
  stack_monotone stack → x ∈ stack →
  (∀ a, last stack = Some a → lex_le a x)
  ∧ (∀ b, head stack = Some b → lex_le x b).
Proof.
  revert x. induction stack as [|b stack IH]; intros x Hm Hx; [inversion Hx|].
  destruct stack as [|a stack].
  - apply list_elem_of_singleton in Hx as ->.
    split; intros ? [= <-]; reflexivity.
  - apply stack_monotone_cons in Hm as [Hab Hm].
    rewrite last_cons_cons. cbn [head].
    apply elem_of_cons in Hx as [->|Hx].
    + split; [|intros ? [= <-]; reflexivity].
      intros m Hlast. transitivity a; [|exact Hab].
      apply (IH a Hm); [left|exact Hlast].
    + destruct (IH x Hm Hx) as [Hlo Hhi]. split; [exact Hlo|].
      intros ? [= <-]. transitivity a; [|exact Hab]. apply Hhi. reflexivity.
Qed.

Lemma stack_strict_last_lt b a stack m :
  stack_strict (b :: a :: stack) → last (b :: a :: stack) = Some m →
  lex_lt m b.
Proof.
  intros [Hab Hs]%stack_strict_cons Hlast. rewrite last_cons_cons in Hlast.
  eapply lex_le_lt_trans; [|exact Hab].
  apply (stack_monotone_bounds (a :: stack) a);
    [apply stack_strict_monotone, Hs|left|exact Hlast].
Qed.

(** From three elements on, left turns make a monotone stack strict. *)
Lemma stack_strict_of_convex c b a stack :
  stack_convex (c :: b :: a :: stack) →
  stack_monotone (c :: b :: a :: stack) →
  stack_strict (c :: b :: a :: stack).
Proof.
  revert c b a. induction stack as [|a' stack IH]; intros c b a Hc Hm.
  - cbn [stack_convex] in Hc. destruct Hc as [Hturn _].
    apply stack_monotone_cons in Hm as [Hbc Hm].
    apply stack_monotone_cons in Hm as [Hab _].
    apply stack_strict_cons. split.
    + destruct (lex_le_lt_eq _ _ Hbc) as [->|?]; [|assumption].
      rewrite crossProduct_flat_r in Hturn. lia.
    + apply stack_strict_cons. split; [|constructor].
      destruct (lex_le_lt_eq _ _ Hab) as [->|?]; [|assumption].
      rewrite crossProduct_flat_l in Hturn. lia.
  - pose proof Hc as Hc'. cbn [stack_convex] in Hc'. destruct Hc' as [Hturn Hc'].
    apply stack_monotone_cons in Hm as [Hbc Hm].
    apply stack_strict_cons. split; [|apply IH; assumption].
    destruct (lex_le_lt_eq _ _ Hbc) as [->|?]; [|assumption].
    rewrite crossProduct_flat_r in Hturn. lia.
Qed.

Lemma stack_strict_of_distinct stack a b :
  stack_convex stack → stack_monotone stack → 2 ≤ length stack →
  head stack = Some b → last stack = Some a → a ≠ b →
  stack_strict stack.
Proof.
  intros Hc Hm Hlen Hhead Hlast Hne.
  destruct stack as [|x [|y [|z stack]]]; simpl in Hlen; try lia.
  - injection Hhead as ->. injection Hlast as ->.
    apply stack_monotone_cons in Hm as [Hab _].
    apply stack_strict_cons. split; [|constructor].
    destruct (lex_le_lt_eq _ _ Hab) as [->|?]; [done|assumption].
  - apply stack_strict_of_convex; assumption.
Qed.

(** A stack whose top is its bottom holds that point twice. *)
Lemma stack_flat stack a :
  stack_convex stack → stack_monotone stack → 2 ≤ length stack →
  head stack = Some a → last stack = Some a → stack = [a; a].
Proof.
  intros Hc Hm Hlen Hhead Hlast.
  assert (∀ x, x ∈ stack → x = a) as Hall.
  { intros x Hx. destruct (stack_monotone_bounds stack x Hm Hx) as [Hlo Hhi].
    apply (anti_symm lex_le); [apply Hhi, Hhead|apply Hlo, Hlast]. }
  destruct stack as [|x [|y [|z stack]]]; simpl in Hlen; try lia.
  - rewrite (Hall x), (Hall y) by (repeat constructor). reflexivity.
  - cbn [stack_convex] in Hc. destruct Hc as [Hturn _].
    rewrite (Hall x), (Hall y), (Hall z) in Hturn by (repeat constructor).
    rewrite crossProduct_flat_l in Hturn. lia.
Qed.

(** Two strict stacks with the same top cannot part at their second
    element when each has the other's second element above it. *)
Lemma stack_second_eq t b stack b' :
  stack_strict (t :: b :: stack) → stack_convex (t :: b :: stack) →
  lex_lt b' b →
  (∀ m, last (t :: b :: stack) = Some m → lex_le m b') →
  (0 ≤ crossProduct b' t b)%Z →
  above_stack (t :: b :: stack) b' →
  False.
Proof.
  intros [Hbt Hs]%stack_strict_cons Hc Hlt Hlast Hb [Hb' Habove]%above_stack_cons.
  rewrite crossProduct_swap_origin in Hb.
  destruct stack as [|a stack].
  - specialize (Hlast b eq_refl).
    apply (lex_lt_irrefl b). eapply lex_le_lt_trans; eassumption.
  - cbn [stack_convex] in Hc. destruct Hc as [Hturn _].
    apply stack_strict_cons in Hs as [Hab _].
    apply above_stack_cons in Habove as [Ha _].
    destruct (turn_behind a b t b') as [_ Hstrict];
      try assumption; try (apply lex_lt_le; assumption).
    specialize (Hstrict Hlt). lia.
Qed.

Lemma stack_unique_strict stack stack' :
  stack_strict stack → stack_strict stack' →
  stack_convex stack → stack_convex stack' →
  head stack = head stack' → last stack = last stack' →
  (∀ v, v ∈ stack' → above_stack stack v) →
  (∀ v, v ∈ stack → above_stack stack' v) →
  stack = stack'.
Proof.
  revert stack'. induction stack as [|t stack IH];
    intros stack' Hs Hs' Hc Hc' Hhead Hlast Habove Habove'.
  { destruct stack'; [reflexivity|discriminate]. }
  destruct stack' as [|t' stack']; [discriminate|].
  injection Hhead as <-. f_equal.
  destruct stack as [|b stack], stack' as [|b' stack']; [reflexivity| | |].
  - exfalso. apply (lex_lt_irrefl t).
    apply (stack_strict_last_lt t b' stack' t); [assumption|].
    rewrite <- Hlast. reflexivity.
  - exfalso. apply (lex_lt_irrefl t).
    apply (stack_strict_last_lt t b stack t); [assumption|].
    rewrite Hlast. reflexivity.
  - assert (b = b') as <-.
    { destruct (lex_trichotomy b b') as [Hlt|[->|Hlt]]; [|reflexivity|].
      - exfalso.
        apply (stack_second_eq t b' stack' b); try assumption.
        + intros m Hm. rewrite <- Hlast in Hm.
          apply (stack_monotone_bounds (t :: b :: stack) b);
            [apply stack_strict_monotone, Hs|right; left|exact Hm].
        + assert (above_stack (t :: b :: stack) b') as Hb
            by (apply Habove; right; left).
          apply above_stack_cons in Hb as [Hb _]. exact Hb.
        + apply Habove'. right. left.
      - exfalso.
        apply (stack_second_eq t b stack b'); try assumption.
        + intros m Hm. rewrite Hlast in Hm.
          apply (stack_monotone_bounds (t :: b' :: stack') b');
            [apply stack_strict_monotone, Hs'|right; left|exact Hm].
        + assert (above_stack (t :: b' :: stack') b) as Hb
            by (apply Habove'; right; left).
          apply above_stack_cons in Hb as [Hb _]. exact Hb.
        + apply Habove. right. left. }
    apply IH.
    + apply stack_strict_cons in Hs as [_ Hs]. exact Hs.
    + apply stack_strict_cons in Hs' as [_ Hs']. exact Hs'.
    + apply stack_convex_tail in Hc. exact Hc.
    + apply stack_convex_tail in Hc'. exact Hc'.
    + reflexivity.
    + rewrite !last_cons_cons in Hlast. exact Hlast.
    + intros v Hv. assert (above_stack (t :: b :: stack) v) as Hv'
        by (apply Habove; right; exact Hv).
      apply above_stack_cons in Hv' as [_ Hv']. exact Hv'.
    + intros v Hv. assert (above_stack (t :: b :: stack') v) as Hv'
        by (apply Habove'; right; exact Hv).
      apply above_stack_cons in Hv' as [_ Hv']. exact Hv'.
Qed.

Lemma stack_unique stack stack' :
  stack_convex stack → stack_convex stack' →
  stack_monotone stack → stack_monotone stack' →
  2 ≤ length stack → 2 ≤ length stack' →
  head stack = head stack' → last stack = last stack' →
  (∀ v, v ∈ stack' → above_stack stack v) →
  (∀ v, v ∈ stack → above_stack stack' v) →
  stack = stack'.
Proof.
  intros Hc Hc' Hm Hm' Hlen Hlen' Hhead Hlast Habove Habove'.
  destruct (head stack) as [b|] eqn:Eb;
    [|apply head_None in Eb; subst stack; simpl in Hlen; lia].
  destruct (last stack) as [a|] eqn:Ea;
    [|apply last_None in Ea; subst stack; simpl in Hlen; lia].
  symmetry in Hhead, Hlast.
  destruct (decide (a = b)) as [->|Hne].
  - rewrite (stack_flat stack b), (stack_flat stack' b) by assumption.
    reflexivity.
  - apply stack_unique_strict; try assumption.
    + apply (stack_strict_of_distinct stack a b); assumption.
    + apply (stack_strict_of_distinct stack' a b); assumption.
    + rewrite Eb, Hhead. reflexivity.
    + rewrite Ea, Hlast. reflexivity.
Qed.

(** Scanning a part of the points that holds the whole stack gives the
    same stack. *)
Lemma scan_of_kept points kept :
  2 ≤ length points → 2 ≤ length kept →
  kept ⊆ points → scan points ⊆ kept →
  scan kept = scan points.
Proof.
  intros Hlen Hlen' Hsub Hkept.
  pose proof (scan_length points Hlen) as Hl.
  pose proof (scan_length kept Hlen') as Hl'.
  assert (scan kept ⊆ kept) as Hin'.
  { intros x [Hx|Hx]%foldl_push_point_elem_of; [inversion Hx|].
    apply elem_of_sortPoints, Hx. }
  apply stack_unique; try assumption;
    try apply scan_convex; try apply scan_monotone.
  - (* the tops: the last points in sorted order *)
    destruct (head (scan kept)) as [b'|] eqn:Eb';
      [|apply head_None in Eb'; rewrite Eb' in Hl'; simpl in Hl'; lia].
    destruct (head (scan points)) as [b|] eqn:Eb;
      [|apply head_None in Eb; rewrite Eb in Hl; simpl in Hl; lia].
    f_equal. apply (anti_symm lex_le).
    + rewrite scan_head in Eb.
      apply (sorted_last_le _ _ _ (sortPoints_sorted points) Eb).
      apply elem_of_sortPoints, Hsub, Hin', head_Some_elem_of, Eb'.
    + rewrite scan_head in Eb'.
      apply (sorted_last_le _ _ _ (sortPoints_sorted kept) Eb').
      apply elem_of_sortPoints, Hkept, head_Some_elem_of, Eb.
  - (* the bottoms: the first points in sorted order *)
    destruct (last (scan kept)) as [a'|] eqn:Ea';
      [|apply last_None in Ea'; rewrite Ea' in Hl'; simpl in Hl'; lia].
    destruct (last (scan points)) as [a|] eqn:Ea;
      [|apply last_None in Ea; rewrite Ea in Hl; simpl in Hl; lia].
    f_equal. apply (anti_symm lex_le).
    + rewrite scan_last in Ea'.
      apply (sorted_head_le _ _ _ (sortPoints_sorted kept) Ea').
      apply elem_of_sortPoints, Hkept, last_Some_elem_of, Ea.
    + rewrite scan_last in Ea.
      apply (sorted_head_le _ _ _ (sortPoints_sorted points) Ea).
      apply elem_of_sortPoints, Hsub, Hin', last_Some_elem_of, Ea'.
  - intros v Hv. apply scan_above, Hkept, Hv.
  - intros v Hv. apply scan_above, Hsub, Hin', Hv.
Qed.

Lemma calculateConvexHull_idempotent points :
  calculateConvexHull (calculateConvexHull points)
  = calculateConvexHull points.
Proof.
  destruct (decide (length points < 3)) as [Hshort|Hlong].
  { rewrite !(calculateConvexHull_short points) by exact Hshort.
    reflexivity. }
  assert (3 ≤ length points) as Hlen by lia.
  pose proof (calculateConvexHull_length points Hlen) as Hlen'.
  set (hull := calculateConvexHull points) in *.
  assert (hull ⊆ points) as Hsub
    by (intros x; apply calculateConvexHull_elem_of).
  assert (∀ x, x ∈ tail (scan points) ∨ x ∈ upper_stack points → x ∈ hull)
    as Hin.
  { intros x Hx. unfold hull. rewrite calculateConvexHull_stacks by exact Hlen.
    rewrite elem_of_app, !elem_of_reverse. exact Hx. }
  assert (scan hull = scan points) as Elower.
  { apply scan_of_kept; try lia; [exact Hsub|].
    intros x Hx. apply Hin.
    pose proof (scan_head points) as Hh. rewrite <- upper_stack_last in Hh.
    destruct (scan points) as [|b rl]; [inversion Hx|].
    apply elem_of_cons in Hx as [->|Hx]; [right|left; exact Hx].
    symmetry in Hh. apply last_Some_elem_of in Hh. exact Hh. }
  assert (upper_stack hull = upper_stack points) as Eupper.
  { rewrite !upper_stack_opposite. f_equal.
    apply scan_of_kept; rewrite ?length_fmap; try lia.
    - intros x (y & -> & Hy)%list_elem_of_fmap.
      apply list_elem_of_fmap_2, Hsub, Hy.
    - rewrite scan_opposite.
      intros x (y & -> & Hy)%list_elem_of_fmap.
      apply list_elem_of_fmap_2, Hin. right. exact Hy. }
  rewrite (calculateConvexHull_stacks hull) by exact Hlen'.
  rewrite Elower, Eupper. unfold hull.
  rewrite calculateConvexHull_stacks by exact Hlen. reflexivity.
Qed.

End HullShape.

(** ** The convex hull, from exact integers to floats *)

Section HullTransfer.

Context {N1 N2 : Type} `{Arithmetic N1} `{Arithmetic N2}.

Variable f : LatLng N1 → LatLng N2.
Variable domain : list (LatLng N1).
Hypothesis Hsame : same_tests f domain.

Implicit Types (p x : LatLng N1) (points stack l : list (LatLng N1)).

Lemma same_positive a b :
  a ∈ domain → b ∈ domain →
  positive (comparePoints (f a) (f b)) = positive (comparePoints a b).
Proof using Hsame.
  intros Ha Hb. destruct Hsame as [Hcmp _].
  rewrite Forall_forall in Hcmp. specialize (Hcmp a Ha).
  rewrite Forall_forall in Hcmp. exact (Hcmp b Hb).
Qed.

Lemma same_non_positive o a b :
  o ∈ domain → a ∈ domain → b ∈ domain →
  non_positive (crossProduct (f o) (f a) (f b))
  = non_positive (crossProduct o a b).
Proof using Hsame.
  intros Ho Ha Hb. destruct Hsame as [_ Hcross].
  rewrite Forall_forall in Hcross. specialize (Hcross o Ho).
  rewrite Forall_forall in Hcross. specialize (Hcross a Ha).
  rewrite Forall_forall in Hcross. exact (Hcross b Hb).
Qed.

Lemma sort_insert_fmap x l :
  x ∈ domain → l ⊆ domain →
  sort_insert (f x) (f <$> l) = f <$> sort_insert x l.
Proof using Hsame.
  intros Hx. induction l as [|y l IH]; intros Hl; [reflexivity|].
  cbn [fmap list_fmap sort_insert]. fold (f <$> l).
  rewrite (same_positive x y Hx) by (apply Hl; left).
  destruct (positive (comparePoints x y)); [|reflexivity].
  cbn [fmap list_fmap]. f_equal. apply IH.
  intros z Hz. apply Hl. right. exact Hz.
Qed.

Lemma sortPoints_fmap points :
  points ⊆ domain → sortPoints (f <$> points) = f <$> sortPoints points.
Proof using Hsame.
  induction points as [|x points IH]; intros Hp; [reflexivity|].
  cbn [fmap list_fmap]. fold (f <$> points). unfold sortPoints. cbn [foldr].
  fold (sortPoints (f <$> points)). fold (sortPoints points).
  rewrite IH by (intros z Hz; apply Hp; right; exact Hz).
  apply sort_insert_fmap; [apply Hp; left|].
  intros z Hz. apply Hp. right.
  rewrite <- (sortPoints_Permutation points). exact Hz.
Qed.

Lemma pop_non_left_fmap stack p :
  p ∈ domain → stack ⊆ domain →
  pop_non_left (f <$> stack) (f p) = f <$> pop_non_left stack p.
Proof using Hsame.
  intros Hp. induction stack as [|b stack IH]; intros Hs; [reflexivity|].
  destruct stack as [|a rest]; [reflexivity|].
  cbn [fmap list_fmap pop_non_left]. fold (f <$> rest).
  rewrite (same_non_positive a b p) by
    first [exact Hp | apply Hs; left | apply Hs; right; left].
  destruct (non_positive (crossProduct a b p)); [|reflexivity].
  apply (IH ltac:(intros z Hz; apply Hs; right; exact Hz)).
Qed.

Lemma foldl_push_point_fmap points stack :
  points ⊆ domain → stack ⊆ domain →
  foldl push_point (f <$> stack) (f <$> points)
  = f <$> foldl push_point stack points.
Proof using Hsame.
  revert stack. induction points as [|p points IH]; intros stack Hp Hs;
    [reflexivity|].
  cbn [fmap list_fmap foldl]. fold (f <$> points). unfold push_point at 2 4.
  rewrite pop_non_left_fmap by first [apply Hp; left | exact Hs].
  apply (IH (p :: pop_non_left stack p)).
  - intros z Hz. apply Hp. right. exact Hz.
  - intros z [->|Hz]%elem_of_cons; [apply Hp; left|].
    apply Hs. destruct (pop_non_left_suffix stack p) as [k Hk].
    rewrite Hk. apply elem_of_app. right. exact Hz.
Qed.

Lemma build_chain_fmap points :
  points ⊆ domain → build_chain (f <$> points) = f <$> build_chain points.
Proof using Hsame.
  intros Hp. unfold build_chain.
  change (foldl push_point [] (f <$> points))
    with (foldl push_point (f <$> []) (f <$> points)).
  rewrite (foldl_push_point_fmap points [] Hp) by (intros z Hz; inversion Hz).
  rewrite fmap_reverse. reflexivity.
Qed.

(** Arithmetics that make the same tests compute the same hull. *)
Lemma calculateConvexHull_fmap points :
  points ⊆ domain →
  calculateConvexHull (f <$> points) = f <$> calculateConvexHull points.
Proof using Hsame.
  intros Hp. unfold calculateConvexHull. rewrite length_fmap.
  destruct (decide (length points < 3)); [reflexivity|]. cbv zeta.
  assert (sortPoints points ⊆ domain) as Hsorted.
  { intros z Hz. apply Hp. rewrite <- (sortPoints_Permutation points).
    exact Hz. }
  rewrite (sortPoints_fmap points Hp), <- fmap_reverse.
  rewrite (build_chain_fmap _ Hsorted).
  rewrite (build_chain_fmap (reverse (sortPoints points)))
    by (intros z Hz; rewrite elem_of_reverse in Hz; apply Hsorted, Hz).
  rewrite fmap_app, fmap_take, length_fmap. reflexivity.
Qed.

End HullTransfer.

Section HullFloat.

Implicit Types (points : list LatLngLiteral) (k : Z).

Lemma fmap_inj_on {A B} (g : A → B) (domain l1 l2 : list A) :
  Forall (λ a, Forall (λ b, g a = g b → a = b) domain) domain →
  l1 ⊆ domain → l2 ⊆ domain → g <$> l1 = g <$> l2 → l1 = l2.
Proof.
  intros Hinj. revert l2.
  induction l1 as [|a l1 IH]; intros [|b l2] H1 H2 E; try discriminate E;
    [reflexivity|].
  cbn [fmap list_fmap] in E. injection E as Eab E.
  rewrite Forall_forall in Hinj.
  pose proof (Hinj a (H1 a (list_elem_of_here _ _))) as Ha.
  rewrite Forall_forall in Ha.
  rewrite (Ha b (H2 b (list_elem_of_here _ _)) Eab). f_equal.
  apply IH; [| |exact E]; intros z Hz; [apply H1|apply H2]; right; exact Hz.
Qed.

(** When rounding changes no test, the float hull is the exact hull. *)
Lemma calculateConvexHull_exact k points :
  exact_tests k points →
  exact_point k <$> calculateConvexHull points
  = calculateConvexHull (exact_point k <$> points)
  ∧ Forall (inside_or_on (exact_point k <$> calculateConvexHull points))
           (exact_point k <$> points)
  ∧ calculateConvexHull (calculateConvexHull points)
    = calculateConvexHull points.
Proof.
  intros (_ & Hinj & Hsame). unfold LatLngLiteral in *.
  assert (calculateConvexHull points ⊆ points) as Hsub
    by (intros x; apply calculateConvexHull_elem_of).
  pose proof (calculateConvexHull_fmap (exact_point k) points Hsame points
                ltac:(intros z Hz; exact Hz)) as E1.
  pose proof (calculateConvexHull_fmap (exact_point k) points Hsame
                (calculateConvexHull points) Hsub) as E2.
  split; [symmetry; exact E1|]. split.
  - rewrite <- E1. apply Forall_forall. intros q.
    apply calculateConvexHull_contains.
  - apply (fmap_inj_on (exact_point k) points); [exact Hinj| |exact Hsub|].
    + intros x Hx. apply Hsub, calculateConvexHull_elem_of, Hx.
    + etrans; [symmetry; exact E2|]. etrans; [|exact E1].
      etrans; [|apply calculateConvexHull_idempotent].
      f_equal. symmetry. exact E1.
Qed.

End HullFloat.

(** ** The convex hull: summary *)

(** The test on a square: the middle is inside, a corner is on it, a point
    beyond an edge is not. *)
Example inside_or_on_square :
  let square : list (LatLng Z) :=
    [ {| lat := 0; lng := 0 |}; {| lat := 10; lng := 0 |};
      {| lat := 10; lng := 10 |}; {| lat := 0; lng := 10 |} ]%Z in
  inside_or_on square {| lat := 5; lng := 5 |}%Z
  ∧ inside_or_on square {| lat := 10; lng := 10 |}%Z
  ∧ ¬ inside_or_on square {| lat := 11; lng := 5 |}%Z
  ∧ calculateConvexHull
      (square ++ [ {| lat := 5; lng := 5 |}; {| lat := 5; lng := 0 |} ]%Z)
    = square ++ [ {| lat := 0; lng := 0 |}%Z ].
Proof. cbv zeta. split; [|split; [|split]]; compute_done. Qed.

(** C7 (amended): for every list of points, the hull is made of points of
    the list, and a list of fewer than three points is returned unchanged.
    When the rounding of the float operations changes none of the tests that
    the function makes on the points, the hull is the hull of exact
    arithmetic: every point of the list lies on or inside the polygon of
    the hull, and the hull of the hull is the hull. *)
Theorem calculateConvexHull_properties (points : list LatLngLiteral) :
  calculateConvexHull points ⊆ points
  ∧ (length points < 3 → calculateConvexHull points = points)
  ∧ (∀ k, exact_tests k points →
          exact_point k <$> calculateConvexHull points
          = calculateConvexHull (exact_point k <$> points)
          ∧ Forall (inside_or_on
                      (exact_point k <$> calculateConvexHull points))
                   (exact_point k <$> points)
          ∧ calculateConvexHull (calculateConvexHull points)
            = calculateConvexHull points).
Proof.
  split; [intros x; apply calculateConvexHull_elem_of|].
  split; [apply calculateConvexHull_short|].
  intros k. apply calculateConvexHull_exact.
Qed.

Lemma calculateConvexHull_properties_witness :
  exact_tests 53 square_points
  ∧ calculateConvexHull square_points ⊆ square_points
  ∧ exact_point 53 <$> calculateConvexHull square_points
    = calculateConvexHull (exact_point 53 <$> square_points)
  ∧ Forall (inside_or_on (exact_point 53 <$> calculateConvexHull square_points))
           (exact_point 53 <$> square_points)
  ∧ calculateConvexHull (calculateConvexHull square_points)
    = calculateConvexHull square_points.
Proof.
  assert (exact_tests 53 square_points) as Htests.
  { split; [|split; [|split]];
      repeat first
        [ apply Forall_nil_2
        | apply Forall_cons_2
        | (eexists; vm_compute; reflexivity)
        | (vm_compute; reflexivity)
        | (intros E; first [reflexivity | vm_compute in E; discriminate E]) ]. }
  destruct (calculateConvexHull_properties square_points)
    as (Hsub & _ & Hexact).
  destruct (Hexact 53%Z Htests) as (Hhull & Hin & Hidem).
  split; [exact Htests|]. split; [exact Hsub|]. split; [exact Hhull|].
  split; [exact Hin|exact Hidem].
Defined.

(** With floats a point of the input can be left outside the hull, and the
    hull of the hull can differ from the hull.

    The product [(1 + 2^-52) * (1 + 2^-52)] is rounded to [1 + 2^-51], the
    cross product of the first, third and fourth of [close_points] is
    computed as [0] instead of [2^-104], and the third point is popped as
    if it were on the segment between the other two.  The hull is a
    triangle; on the same points scaled to integers the third point is
    strictly on the right of the first edge of that triangle, and the exact
    hull keeps it.

    On [near_line_points] the lower chain pops the fourth point when the
    third arrives, on a cross product computed as [0], and the upper chain
    keeps the fourth point, on a cross product that is computed positive
    where the exact one is negative: the hull has four entries.  The third
    point is not among them; on these four entries the lower chain keeps
    the fourth point too, and the hull of the hull has five entries. *)
Lemma calculateConvexHull_rounding :
  calculateConvexHull close_points
  = [ {| lat := 0; lng := 0 |};
      {| lat := 0x1.0000000000002p+0; lng := 0x1.0000000000001p+0 |};
      {| lat := 0; lng := 1 |};
      {| lat := 0; lng := 0 |} ]%float
  ∧ mapM (scaled_point 52) close_points = Some close_points_exact
  ∧ (∃ hull, mapM (scaled_point 52) (calculateConvexHull close_points)
             = Some hull
             ∧ ¬ Forall (inside_or_on hull) close_points_exact
             ∧ hull ≠ calculateConvexHull close_points_exact)
  ∧ calculateConvexHull near_line_points
    = [ {| lat := 0x1.999999999999ap-4; lng := 0x1.999999999999ap-2 |};
        {| lat := 0x1.999999999999ap-1; lng := 0x1.4000000000001p+1 |};
        {| lat := 0x1.999999999999ap-3; lng := 0x1.6666666666667p-1 |};
        {| lat := 0x1.999999999999ap-4; lng := 0x1.999999999999ap-2 |} ]%float
  ∧ calculateConvexHull (calculateConvexHull near_line_points)
    = [ {| lat := 0x1.999999999999ap-4; lng := 0x1.999999999999ap-2 |};
        {| lat := 0x1.999999999999ap-3; lng := 0x1.6666666666667p-1 |};
        {| lat := 0x1.999999999999ap-1; lng := 0x1.4000000000001p+1 |};
        {| lat := 0x1.999999999999ap-3; lng := 0x1.6666666666667p-1 |};
        {| lat := 0x1.999999999999ap-4; lng := 0x1.999999999999ap-2 |} ]%float
  ∧ calculateConvexHull (calculateConvexHull near_line_points)
    ≠ calculateConvexHull near_line_points.
Proof.
  split; [vm_compute; reflexivity|].
  split; [vm_compute; reflexivity|].
  split.
  { eexists. split; [vm_compute; reflexivity|].
    split; [|vm_compute; discriminate].
    intros Hall.
    apply Forall_forall
      with (x := {| lat := 2 ^ 52 + 1; lng := 2 ^ 52 |}%Z) in Hall.
    - destruct Hall as [Hedges _]. unfold closed_edges in Hedges.
      cbn [app take edges] in Hedges.
      apply Forall_cons in Hedges as [Hedge _]. vm_compute in Hedge.
      apply Hedge. reflexivity.
    - unfold close_points_exact. do 2 right. left. }
  split; [vm_compute; reflexivity|]. split; [vm_compute; reflexivity|].
  intros E. apply (f_equal length) in E. vm_compute in E. discriminate E.
Qed.

(** * Further properties *)

(** ** The order of floats *)

Section FloatOrder.

Implicit Types (x y z : float) (f g : spec_float).

Lemma SFcompare_key f g :
  match SFcompare f g, sf_key f, sf_key g with
  | Some Lt, Some a, Some b => key_lt a b
  | Some Gt, Some a, Some b => key_lt b a
  | Some Eq, Some a, Some b => a = b
  | None, None, _ | None, _, None => True
  | _, _, _ => False
  end.
Proof.
  destruct f as [[]|[]| |[] m e], g as [[]|[]| |[] m' e']; simpl; auto; try lia;
    try (destruct (Z.compare_spec e e'); simpl; try lia;
         rewrite ?Pos.compare_cont_spec; simpl;
         destruct (Pos.compare_spec m m'); simpl; subst; try lia; auto).
Qed.

Lemma key_lt_irrefl (a : Z * Z * Z) : ¬ key_lt a a.
Proof. destruct a as [[a1 a2] a3]. unfold key_lt. lia. Qed.

Lemma key_lt_trans (a b c : Z * Z * Z) : key_lt a b → key_lt b c → key_lt a c.
Proof.
  destruct a as [[a1 a2] a3], b as [[b1 b2] b3], c as [[c1 c2] c3].
  unfold key_lt. lia.
Qed.

Lemma key_lt_asymm (a b : Z * Z * Z) : key_lt a b → key_lt b a → False.
Proof. intros H1 H2. exact (key_lt_irrefl a (key_lt_trans _ _ _ H1 H2)). Qed.

Lemma key_trichotomy (a b : Z * Z * Z) : key_lt a b ∨ a = b ∨ key_lt b a.
Proof.
  destruct a as [[a1 a2] a3], b as [[b1 b2] b3]. unfold key_lt.
  destruct (decide (a1 = b1 ∧ a2 = b2 ∧ a3 = b3)) as [(-> & -> & ->)|Hne];
    [right; left; reflexivity|lia].
Qed.

(** [x < y] and [x <= y] through the keys. *)
Lemma ltb_key x y :
  PrimFloat.ltb x y = true
  ↔ ∃ a b, float_key x = Some a ∧ float_key y = Some b ∧ key_lt a b.
Proof.
  rewrite ltb_spec. unfold SFltb, float_key.
  pose proof (SFcompare_key (Prim2SF x) (Prim2SF y)) as H.
  destruct (SFcompare (Prim2SF x) (Prim2SF y)) as [[]|],
    (sf_key (Prim2SF x)) as [a|], (sf_key (Prim2SF y)) as [b|];
    try contradiction;
    (split;
     [intros Hc; try discriminate Hc; eauto 8
     |intros (a' & b' & E1 & E2 & Hk); try discriminate E1;
      try discriminate E2; simplify_eq; try reflexivity; exfalso;
      eauto using key_lt_irrefl, key_lt_asymm]).
Qed.

Lemma leb_key x y :
  PrimFloat.leb x y = true
  ↔ ∃ a b, float_key x = Some a ∧ float_key y = Some b ∧ (key_lt a b ∨ a = b).
Proof.
  rewrite leb_spec. unfold SFleb, float_key.
  pose proof (SFcompare_key (Prim2SF x) (Prim2SF y)) as H.
  destruct (SFcompare (Prim2SF x) (Prim2SF y)) as [[]|],
    (sf_key (Prim2SF x)) as [a|], (sf_key (Prim2SF y)) as [b|];
    try contradiction;
    (split;
     [intros Hc; try discriminate Hc; eauto 8
     |intros (a' & b' & E1 & E2 & Hk); try discriminate E1;
      try discriminate E2; simplify_eq; try reflexivity; exfalso;
      destruct Hk as [Hk| ->]; eauto using key_lt_irrefl, key_lt_asymm]).
Qed.

Lemma is_nan_key x : PrimFloat.is_nan x = false ↔ is_Some (float_key x).
Proof.
  unfold PrimFloat.is_nan. rewrite negb_false_iff, FloatAxioms.eqb_spec.
  unfold SFeqb, float_key.
  pose proof (SFcompare_key (Prim2SF x) (Prim2SF x)) as H.
  destruct (SFcompare (Prim2SF x) (Prim2SF x)) as [[]|],
    (sf_key (Prim2SF x)) as [a|]; try contradiction;
    try (exfalso; exact (key_lt_irrefl _ H));
    (split;
     [intros Hc; try discriminate Hc; eauto
     |intros [a' E]; try discriminate E; reflexivity]).
Qed.

Lemma leb_trans x y z :
  PrimFloat.leb x y = true → PrimFloat.leb y z = true →
  PrimFloat.leb x z = true.
Proof.
  rewrite !leb_key.
  intros (a & b & Ha & Hb & Hab) (b' & c & Hb' & Hc & Hbc).
  rewrite Hb in Hb'. injection Hb' as <-.
  exists a, c. repeat split; try assumption.
  destruct Hab as [Hab| ->], Hbc as [Hbc| ->]; auto.
  left. eapply key_lt_trans; eassumption.
Qed.

Lemma ltb_leb x y : PrimFloat.ltb x y = true → PrimFloat.leb x y = true.
Proof.
  rewrite ltb_key, leb_key. intros (a & b & Ha & Hb & Hab). eauto 6.
Qed.

Lemma leb_not_ltb x y : PrimFloat.leb x y = true → PrimFloat.ltb y x = false.
Proof.
  rewrite leb_key. intros (a & b & Ha & Hb & Hab).
  apply not_true_is_false. rewrite ltb_key.
  intros (b' & a' & Hb' & Ha' & Hlt).
  rewrite Ha in Ha'. rewrite Hb in Hb'.
  injection Ha' as <-. injection Hb' as <-.
  destruct Hab as [Hab| ->];
    [eapply key_lt_asymm; eassumption|eapply key_lt_irrefl; eassumption].
Qed.

Lemma ltb_leb_trans x y z :
  PrimFloat.ltb x y = true → PrimFloat.leb y z = true →
  PrimFloat.ltb x z = true.
Proof.
  rewrite !ltb_key, leb_key.
  intros (a & b & Ha & Hb & Hab) (b' & c & Hb' & Hc & Hbc).
  rewrite Hb in Hb'. injection Hb' as <-.
  exists a, c. repeat split; try assumption.
  destruct Hbc as [Hbc| ->]; [eapply key_lt_trans; eassumption|assumption].
Qed.

Lemma leb_ltb_trans x y z :
  PrimFloat.leb x y = true → PrimFloat.ltb y z = true →
  PrimFloat.ltb x z = true.
Proof.
  rewrite !ltb_key, leb_key.
  intros (a & b & Ha & Hb & Hab) (b' & c & Hb' & Hc & Hbc).
  rewrite Hb in Hb'. injection Hb' as <-.
  exists a, c. repeat split; try assumption.
  destruct Hab as [Hab| ->]; [eapply key_lt_trans; eassumption|assumption].
Qed.

Lemma leb_refl x : PrimFloat.is_nan x = false → PrimFloat.leb x x = true.
Proof. rewrite is_nan_key, leb_key. intros [a Ha]. eauto 6. Qed.

Lemma leb_total x y :
  PrimFloat.is_nan x = false → PrimFloat.is_nan y = false →
  PrimFloat.ltb y x = false → PrimFloat.leb x y = true.
Proof.
  rewrite !is_nan_key, leb_key. intros [a Ha] [b Hb] Hlt.
  exists a, b. repeat split; try assumption.
  destruct (key_trichotomy a b) as [?|[?|Hba]]; auto.
  assert (PrimFloat.ltb y x = true) as E by (apply ltb_key; eauto).
  congruence.
Qed.

Lemma leb_no_nan x y :
  PrimFloat.leb x y = true →
  PrimFloat.is_nan x = false ∧ PrimFloat.is_nan y = false.
Proof.
  rewrite leb_key, !is_nan_key. intros (a & b & Ha & Hb & _).
  rewrite Ha, Hb. split; eexists; reflexivity.
Qed.

Lemma ltb_no_nan x y :
  PrimFloat.ltb x y = true →
  PrimFloat.is_nan x = false ∧ PrimFloat.is_nan y = false.
Proof. intros H%ltb_leb. apply leb_no_nan, H. Qed.

(** [Math.max] and [Math.min] return one of their arguments, which is an
    upper or lower bound of both when neither is NaN. *)
Lemma max_cases x y : Num.max x y = x ∨ Num.max x y = y.
Proof. unfold Num.max. repeat destruct (_ : bool); auto. Qed.

Lemma min_cases x y : Num.min x y = x ∨ Num.min x y = y.
Proof. unfold Num.min. repeat destruct (_ : bool); auto. Qed.

Lemma max_upper x y :
  PrimFloat.is_nan x = false → PrimFloat.is_nan y = false →
  PrimFloat.leb x (Num.max x y) = true ∧ PrimFloat.leb y (Num.max x y) = true.
Proof.
  intros Hx Hy. unfold Num.max. rewrite Hx, Hy.
  destruct (PrimFloat.ltb x y) eqn:Exy.
  { split; [apply ltb_leb, Exy|apply leb_refl, Hy]. }
  destruct (PrimFloat.ltb y x) eqn:Eyx.
  { split; [apply leb_refl, Hx|apply ltb_leb, Eyx]. }
  destruct (Num.is_neg_zero x);
    split; try (apply leb_refl; assumption); apply leb_total; assumption.
Qed.

Lemma min_lower x y :
  PrimFloat.is_nan x = false → PrimFloat.is_nan y = false →
  PrimFloat.leb (Num.min x y) x = true ∧ PrimFloat.leb (Num.min x y) y = true.
Proof.
  intros Hx Hy. unfold Num.min. rewrite Hx, Hy.
  destruct (PrimFloat.ltb x y) eqn:Exy.
  { split; [apply leb_refl, Hx|apply ltb_leb, Exy]. }
  destruct (PrimFloat.ltb y x) eqn:Eyx.
  { split; [apply ltb_leb, Eyx|apply leb_refl, Hy]. }
  destruct (Num.is_neg_zero x);
    split; try (apply leb_refl; assumption); apply leb_total; assumption.
Qed.

Lemma max_no_nan x y :
  PrimFloat.is_nan x = false → PrimFloat.is_nan y = false →
  PrimFloat.is_nan (Num.max x y) = false.
Proof. intros Hx Hy. destruct (max_cases x y) as [-> | ->]; assumption. Qed.

Lemma min_no_nan x y :
  PrimFloat.is_nan x = false → PrimFloat.is_nan y = false →
  PrimFloat.is_nan (Num.min x y) = false.
Proof. intros Hx Hy. destruct (min_cases x y) as [-> | ->]; assumption. Qed.

End FloatOrder.

(** ** The sign of a distance *)

Section Distance.

Implicit Types (f g : spec_float) (x y : float).

Lemma binary_round_aux_sign prec emax s m e l :
  match binary_round_aux prec emax s m e l with
  | S754_zero s' | S754_infinity s' | S754_finite s' _ _ => s' = s
  | S754_nan => True
  end.
Proof.
  unfold binary_round_aux.
  destruct (shr_fexp prec emax m e l) as [mrs' e'].
  destruct (shr_fexp prec emax _ e' loc_Exact) as [mrs'' e''].
  destruct (shr_m mrs''); [reflexivity| |exact I].
  destruct (Z.leb _ _); reflexivity.
Qed.

Lemma binary_round_aux_clear prec emax m e l :
  sign_clear (binary_round_aux prec emax false m e l).
Proof.
  pose proof (binary_round_aux_sign prec emax false m e l) as H.
  unfold sign_clear. destruct (binary_round_aux _ _ _ _ _ _); exact H.
Qed.

Lemma sq_clear x : sign_clear (Prim2SF (sq x)).
Proof.
  unfold sq. rewrite mul_spec. unfold SF64mul, SFmul.
  destruct (Prim2SF x) as [[]|[]| |[] m e]; simpl; try reflexivity;
    apply binary_round_aux_clear.
Qed.

Lemma binary_round_clear prec emax m e :
  sign_clear (binary_round prec emax false m e).
Proof.
  unfold binary_round. destruct (shl_align _ _ _) as [mz ez].
  apply binary_round_aux_clear.
Qed.

Lemma add_clear x y :
  sign_clear (Prim2SF x) → sign_clear (Prim2SF y) →
  sign_clear (Prim2SF (x + y)).
Proof.
  rewrite add_spec. unfold SF64add, SFadd.
  destruct (Prim2SF x) as [sx|sx| |sx mx ex], (Prim2SF y) as [sy|sy| |sy my ey];
    cbn [sign_clear]; intros Hx Hy; subst; try reflexivity.
  cbn [cond_Zopp Z.add binary_normalize]. apply binary_round_clear.
Qed.

Lemma sqrt_clear x :
  sign_clear (Prim2SF x) → sign_clear (Prim2SF (PrimFloat.sqrt x)).
Proof.
  rewrite sqrt_spec. unfold SF64sqrt, SFsqrt.
  destruct (Prim2SF x) as [sx|sx| |sx mx ex]; simpl; intros Hx; subst;
    try reflexivity.
  destruct (SFsqrt_core_binary _ _ _ _) as [[mz ez] lz].
  apply binary_round_aux_clear.
Qed.

Lemma abs_clear x : sign_clear (Prim2SF (PrimFloat.abs x)).
Proof. rewrite abs_spec. destruct (Prim2SF x); reflexivity. Qed.

Lemma div_clear x y :
  sign_clear (Prim2SF x) → sign_clear (Prim2SF y) →
  sign_clear (Prim2SF (x / y)).
Proof.
  rewrite div_spec. unfold SF64div, SFdiv.
  destruct (Prim2SF x) as [sx|sx| |sx mx ex], (Prim2SF y) as [sy|sy| |sy my ey];
    simpl; intros Hx Hy; subst; try reflexivity.
  destruct (SFdiv_core_binary _ _ _ _ _ _) as [[mz ez] lz].
  apply binary_round_aux_clear.
Qed.

Lemma sign_clear_not_negative x :
  sign_clear (Prim2SF x) → PrimFloat.ltb x 0 = false.
Proof.
  rewrite ltb_spec. unfold SFltb. change (Prim2SF 0) with (S754_zero false).
  destruct (Prim2SF x) as [sx|sx| |sx mx ex]; simpl; intros Hx; subst;
    reflexivity.
Qed.

(** X1: A distance is never negative: [perpendicularDistance] returns a number
    that is not below [0], the positive infinity, or NaN, and neither a
    negative number nor the negative infinity.  The sum of the two squares
    under the root is never the negative zero, on which the division would
    turn the sign. *)
Theorem perpendicularDistance_not_negative (point lineStart lineEnd : Coord) :
  sign_clear (Prim2SF (perpendicularDistance point lineStart lineEnd))
  ∧ PrimFloat.ltb (perpendicularDistance point lineStart lineEnd) 0 = false
  ∧ perpendicularDistance point lineStart lineEnd ≠ PrimFloat.neg_infinity.
Proof.
  assert (sign_clear (Prim2SF (perpendicularDistance point lineStart lineEnd)))
    as H.
  { unfold perpendicularDistance.
    destruct point as [x y], lineStart as [x1 y1], lineEnd as [x2 y2].
    cbv zeta. destruct (_ && _).
    - apply sqrt_clear, add_clear; apply sq_clear.
    - apply div_clear; [apply abs_clear|].
      apply sqrt_clear, add_clear; apply sq_clear. }
  split; [exact H|]. split; [apply sign_clear_not_negative, H|].
  intros E. rewrite E in H. vm_compute in H. discriminate.
Qed.

End Distance.

(** ** Bounding boxes and culling *)

Section Bounds.

Implicit Types (b mb : PolygonBounds) (pt : LatLngLiteral)
  (points : list LatLngLiteral) (p : ConvertedPolygon)
  (polygons : list ConvertedPolygon).

Lemma calculatePolygonBounds_fold p :
  calculatePolygonBounds p = foldl extendBounds emptyBounds (allPoints p).
Proof. reflexivity. Qed.

(** With a flag that tells the shape of [coordinates], the loops that go by
    the flag push the points of the polygon, in order. *)
Lemma pushedPoints_consistent p :
  consistent p → pushedPoints p = Some (allPoints p).
Proof.
  unfold consistent, pushedPoints, allPoints.
  destruct (coordinates p); intros ->; reflexivity.
Qed.

Lemma emptyBounds_no_nan : box_no_nan emptyBounds.
Proof. repeat split. Qed.

Lemma extendBounds_no_nan b pt :
  box_no_nan b → no_nan pt → box_no_nan (extendBounds b pt).
Proof.
  intros (Hn & Hs & He & Hw) [Hlat Hlng].
  repeat split; simpl; auto using max_no_nan, min_no_nan.
Qed.

(** The loop only widens the box, and the box holds every point it has
    been given. *)
Lemma foldl_extendBounds_grows points b :
  box_no_nan b → Forall no_nan points →
  box_no_nan (foldl extendBounds b points)
  ∧ PrimFloat.leb (north b) (north (foldl extendBounds b points)) = true
  ∧ PrimFloat.leb (south (foldl extendBounds b points)) (south b) = true
  ∧ PrimFloat.leb (east b) (east (foldl extendBounds b points)) = true
  ∧ PrimFloat.leb (west (foldl extendBounds b points)) (west b) = true
  ∧ ∀ pt, pt ∈ points → in_bounds (foldl extendBounds b points) pt.
Proof.
  revert b. induction points as [|q points IH]; intros b Hb Hall.
  - destruct Hb as (Hn & Hs & He & Hw). simpl.
    split; [repeat split; assumption|].
    do 4 (split; [auto using leb_refl|]). intros pt Hpt. inversion Hpt.
  - apply Forall_cons in Hall as [Hq Hall]. simpl.
    destruct (IH (extendBounds b q) (extendBounds_no_nan b q Hb Hq) Hall)
      as (Hb' & Hn' & Hs' & He' & Hw' & Hin).
    destruct Hb as (Hn & Hs & He & Hw), Hq as [Hlat Hlng]. simpl in *.
    destruct (max_upper (north b) (lat q) Hn Hlat) as [Hn1 Hn2].
    destruct (min_lower (south b) (lat q) Hs Hlat) as [Hs1 Hs2].
    destruct (max_upper (east b) (lng q) He Hlng) as [He1 He2].
    destruct (min_lower (west b) (lng q) Hw Hlng) as [Hw1 Hw2].
    split; [exact Hb'|].
    split; [eapply leb_trans; eassumption|].
    split; [eapply leb_trans; eassumption|].
    split; [eapply leb_trans; eassumption|].
    split; [eapply leb_trans; eassumption|].
    intros pt [->|Hpt]%elem_of_cons; [|apply Hin, Hpt].
    repeat split; eapply leb_trans; eassumption.
Qed.

(** Each edge of the box is the start value or a coordinate of a point. *)
Lemma foldl_extendBounds_attained points b :
  edge_attained (north (foldl extendBounds b points)) (north b) (lat <$> points)
  ∧ edge_attained (south (foldl extendBounds b points)) (south b) (lat <$> points)
  ∧ edge_attained (east (foldl extendBounds b points)) (east b) (lng <$> points)
  ∧ edge_attained (west (foldl extendBounds b points)) (west b) (lng <$> points).
Proof.
  unfold edge_attained.
  revert b. induction points as [|q points IH]; intros b; simpl.
  - repeat split; left; reflexivity.
  - destruct (IH (extendBounds b q)) as (Hn & Hs & He & Hw). simpl in *.
    repeat split.
    + destruct Hn as [->|Hn]; [|right; right; exact Hn].
      destruct (max_cases (north b) (lat q)) as [-> | ->];
        [left; reflexivity|right; left].
    + destruct Hs as [->|Hs]; [|right; right; exact Hs].
      destruct (min_cases (south b) (lat q)) as [-> | ->];
        [left; reflexivity|right; left].
    + destruct He as [->|He]; [|right; right; exact He].
      destruct (max_cases (east b) (lng q)) as [-> | ->];
        [left; reflexivity|right; left].
    + destruct Hw as [->|Hw]; [|right; right; exact Hw].
      destruct (min_cases (west b) (lng q)) as [-> | ->];
        [left; reflexivity|right; left].
Qed.

Lemma calculatePolygonBounds_in_bounds p pt :
  Forall no_nan (allPoints p) → pt ∈ allPoints p →
  in_bounds (calculatePolygonBounds p) pt.
Proof.
  intros Hall Hpt. rewrite calculatePolygonBounds_fold.
  apply (foldl_extendBounds_grows (allPoints p) emptyBounds
           emptyBounds_no_nan Hall), Hpt.
Qed.

(** X2: The bounding box of a polygon holds every point of the polygon, and
    each of its edges is met by a point or is the start value of the loop
    ([-90], [90], [-180], [180]). *)
Theorem calculatePolygonBounds_contains p :
  consistent p → Forall no_nan (allPoints p) →
  (∀ pt, pt ∈ allPoints p → in_bounds (calculatePolygonBounds p) pt)
  ∧ box_no_nan (calculatePolygonBounds p)
  ∧ edge_attained (north (calculatePolygonBounds p)) (-90) (lat <$> allPoints p)
  ∧ edge_attained (south (calculatePolygonBounds p)) 90 (lat <$> allPoints p)
  ∧ edge_attained (east (calculatePolygonBounds p)) (-180) (lng <$> allPoints p)
  ∧ edge_attained (west (calculatePolygonBounds p)) 180 (lng <$> allPoints p).
Proof.
  intros _ Hall.
  split; [intros pt Hpt; apply calculatePolygonBounds_in_bounds; assumption|].
  rewrite calculatePolygonBounds_fold.
  split; [apply (foldl_extendBounds_grows (allPoints p) emptyBounds
                   emptyBounds_no_nan Hall)|].
  apply (foldl_extendBounds_attained (allPoints p) emptyBounds).
Qed.

Lemma calculatePolygonBounds_contains_witness :
  (∀ pt, pt ∈ allPoints (sample_polygon "M5V" small_square) →
         in_bounds (calculatePolygonBounds (sample_polygon "M5V" small_square)) pt)
  ∧ calculatePolygonBounds (sample_polygon "M5V" small_square)
    = {| north := 1; south := 0; east := 1; west := 0 |}.
Proof.
  split; [|reflexivity].
  apply (calculatePolygonBounds_contains (sample_polygon "M5V" small_square)).
  - reflexivity.
  - repeat constructor.
Defined.

(** A box that holds a point of another box intersects it. *)
Lemma boundsIntersect_common_point b mb pt :
  in_bounds b pt → in_bounds mb pt → boundsIntersect b mb = true.
Proof.
  intros (Hs & Hn & Hw & He) (Hs' & Hn' & Hw' & He').
  rewrite boundsIntersect_separated. unfold separated, Num.gt, Num.lt.
  rewrite (leb_not_ltb (south b) (north mb)) by (eapply leb_trans; eassumption).
  rewrite (leb_not_ltb (south mb) (north b)) by (eapply leb_trans; eassumption).
  rewrite (leb_not_ltb (west b) (east mb)) by (eapply leb_trans; eassumption).
  rewrite (leb_not_ltb (west mb) (east b)) by (eapply leb_trans; eassumption).
  reflexivity.
Qed.

(** X3: Culling has no false negative: among polygons whose flags tell
    their shapes, a polygon that has a point inside the viewport box is
    among the visible polygons. *)
Theorem visiblePolygons_keeps_polygon_in_view polygons p pt mb :
  Forall consistent polygons →
  p ∈ polygons → Forall no_nan (allPoints p) →
  pt ∈ allPoints p → in_bounds mb pt →
  {| polygon := p; bounds := calculatePolygonBounds p |}
    ∈ visiblePolygons (Some mb) (polygonsWithBounds polygons).
Proof.
  intros _ Hp Hall Hpt Hmb. unfold visiblePolygons.
  apply list_elem_of_filter. split.
  - simpl. apply (boundsIntersect_common_point _ _ pt); [|exact Hmb].
    apply calculatePolygonBounds_in_bounds; assumption.
  - unfold polygonsWithBounds. apply list_elem_of_In, in_map_iff.
    exists p. split; [reflexivity|]. apply list_elem_of_In, Hp.
Qed.

Lemma visiblePolygons_keeps_polygon_in_view_witness :
  {| polygon := sample_polygon "M5V" small_square;
     bounds := calculatePolygonBounds (sample_polygon "M5V" small_square) |}
    ∈ visiblePolygons (Some sample_viewport)
        (polygonsWithBounds [sample_polygon "K1A" large_square;
                             sample_polygon "M5V" small_square]).
Proof.
  apply (visiblePolygons_keeps_polygon_in_view
           [sample_polygon "K1A" large_square; sample_polygon "M5V" small_square]
           (sample_polygon "M5V" small_square) {| lat := 1; lng := 1 |}%float
           sample_viewport).
  - repeat constructor.
  - right. left.
  - repeat constructor.
  - do 2 right. left.
  - repeat split.
Defined.

Lemma foldl_extendBounds_beyond_north points b c :
  PrimFloat.ltb c (south b) = true →
  Forall (λ pt, PrimFloat.ltb c (lat pt) = true) points →
  PrimFloat.ltb c (south (foldl extendBounds b points)) = true.
Proof.
  revert b. induction points as [|q points IH]; intros b Hb Hall; [exact Hb|].
  apply Forall_cons in Hall as [Hq Hall]. simpl. apply IH; [|exact Hall].
  simpl. destruct (min_cases (south b) (lat q)) as [-> | ->]; assumption.
Qed.

Lemma foldl_extendBounds_beyond_south points b c :
  PrimFloat.ltb (north b) c = true →
  Forall (λ pt, PrimFloat.ltb (lat pt) c = true) points →
  PrimFloat.ltb (north (foldl extendBounds b points)) c = true.
Proof.
  revert b. induction points as [|q points IH]; intros b Hb Hall; [exact Hb|].
  apply Forall_cons in Hall as [Hq Hall]. simpl. apply IH; [|exact Hall].
  simpl. destruct (max_cases (north b) (lat q)) as [-> | ->]; assumption.
Qed.

Lemma foldl_extendBounds_beyond_east points b c :
  PrimFloat.ltb c (west b) = true →
  Forall (λ pt, PrimFloat.ltb c (lng pt) = true) points →
  PrimFloat.ltb c (west (foldl extendBounds b points)) = true.
Proof.
  revert b. induction points as [|q points IH]; intros b Hb Hall; [exact Hb|].
  apply Forall_cons in Hall as [Hq Hall]. simpl. apply IH; [|exact Hall].
  simpl. destruct (min_cases (west b) (lng q)) as [-> | ->]; assumption.
Qed.

Lemma foldl_extendBounds_beyond_west points b c :
  PrimFloat.ltb (east b) c = true →
  Forall (λ pt, PrimFloat.ltb (lng pt) c = true) points →
  PrimFloat.ltb (east (foldl extendBounds b points)) c = true.
Proof.
  revert b. induction points as [|q points IH]; intros b Hb Hall; [exact Hb|].
  apply Forall_cons in Hall as [Hq Hall]. simpl. apply IH; [|exact Hall].
  simpl. destruct (max_cases (east b) (lng q)) as [-> | ->]; assumption.
Qed.

(** X4: A polygon that lies wholly beyond one edge of the viewport box is
    culled; so is a polygon without points, as soon as one edge of the
    viewport box is inside the world. *)
Theorem visiblePolygons_culls_polygon_beyond polygons p mb e :
  consistent p → beyond mb (allPoints p) →
  e ∈ visiblePolygons (Some mb) (polygonsWithBounds polygons) →
  polygon e ≠ p.
Proof.
  intros _ Hbeyond He Heq. unfold visiblePolygons in He.
  apply list_elem_of_filter in He as [Hvisible He].
  assert (bounds e = calculatePolygonBounds p) as Hbounds.
  { unfold polygonsWithBounds in He.
    apply list_elem_of_In, in_map_iff in He as (p' & <- & _).
    simpl in *. subst p'. reflexivity. }
  rewrite Hbounds, boundsIntersect_separated in Hvisible.
  apply negb_true_iff in Hvisible. unfold separated, Num.gt, Num.lt in Hvisible.
  rewrite calculatePolygonBounds_fold in Hvisible.
  destruct Hbeyond as [[H0 H]|[[H0 H]|[[H0 H]|[H0 H]]]].
  - rewrite (foldl_extendBounds_beyond_north _ emptyBounds _ H0 H) in Hvisible.
    discriminate.
  - rewrite (foldl_extendBounds_beyond_south _ emptyBounds _ H0 H) in Hvisible.
    rewrite orb_true_r in Hvisible. discriminate.
  - rewrite (foldl_extendBounds_beyond_east _ emptyBounds _ H0 H) in Hvisible.
    rewrite !orb_true_r in Hvisible. discriminate.
  - rewrite (foldl_extendBounds_beyond_west _ emptyBounds _ H0 H) in Hvisible.
    rewrite !orb_true_r in Hvisible. discriminate.
Qed.

Lemma visiblePolygons_culls_polygon_beyond_witness :
  visiblePolygons (Some sample_viewport)
    (polygonsWithBounds [sample_polygon "K1A" large_square;
                         sample_polygon "M5V" small_square])
  = [ {| polygon := sample_polygon "M5V" small_square;
         bounds := {| north := 1; south := 0; east := 1; west := 0 |} |} ]
  ∧ ∀ e, e ∈ visiblePolygons (Some sample_viewport)
               (polygonsWithBounds [sample_polygon "K1A" large_square;
                                    sample_polygon "M5V" small_square]) →
         polygon e ≠ sample_polygon "K1A" large_square.
Proof.
  split; [reflexivity|]. intros e.
  apply (visiblePolygons_culls_polygon_beyond
           [sample_polygon "K1A" large_square; sample_polygon "M5V" small_square]
           (sample_polygon "K1A" large_square) sample_viewport e).
  - reflexivity.
  - left. split; [reflexivity|]. repeat constructor.
Defined.

Lemma elem_of_concat {A} (x : A) (ls : list (list A)) :
  x ∈ concat ls ↔ ∃ l, x ∈ l ∧ l ∈ ls.
Proof.
  rewrite list_elem_of_In, in_concat. split.
  - intros (l & Hl & Hx). exists l. rewrite !list_elem_of_In. auto.
  - intros (l & Hx & Hl). exists l. rewrite <- !list_elem_of_In. auto.
Qed.

Lemma mapM_pushedPoints polygons :
  Forall consistent polygons →
  mapM pushedPoints polygons = Some (allPoints <$> polygons).
Proof.
  induction 1 as [|p polygons Hp _ IH]; [reflexivity|].
  cbn [mapM]. rewrite (pushedPoints_consistent p Hp), IH. reflexivity.
Qed.

Lemma calculateBounds_consistent polygons :
  Forall consistent polygons →
  calculateBounds polygons
  = Some (if decide (concat (allPoints <$> polygons) = []) then None
          else Some (foldl extendBounds emptyBounds
                       (concat (allPoints <$> polygons)))).
Proof.
  intros Hc. unfold calculateBounds.
  destruct (decide (length polygons = 0)) as [E|E].
  { apply length_zero_iff_nil in E. subst polygons. reflexivity. }
  rewrite (mapM_pushedPoints polygons Hc). simpl.
  destruct (decide (length (concat (allPoints <$> polygons)) = 0)) as [E0|E0],
    (decide (concat (allPoints <$> polygons) = [])) as [E1|E1];
    try reflexivity.
  - apply length_zero_iff_nil in E0. contradiction.
  - rewrite E1 in E0. contradiction.
Qed.

(** X5: [calculateBounds] returns [null] exactly when no polygon has a point.
    Otherwise it returns a box that holds every point of every polygon,
    each edge of which is met by a point or is the start value of the
    loop. *)
Theorem calculateBounds_contains polygons :
  Forall consistent polygons →
  Forall no_nan (concat (allPoints <$> polygons)) →
  (calculateBounds polygons = Some None
   ∧ Forall (λ p, allPoints p = []) polygons)
  ∨ (∃ b, calculateBounds polygons = Some (Some b)
          ∧ Exists (λ p, allPoints p ≠ []) polygons
          ∧ (∀ p pt, p ∈ polygons → pt ∈ allPoints p → in_bounds b pt)
          ∧ edge_attained (north b) (-90)
              (lat <$> concat (allPoints <$> polygons))
          ∧ edge_attained (south b) 90
              (lat <$> concat (allPoints <$> polygons))
          ∧ edge_attained (east b) (-180)
              (lng <$> concat (allPoints <$> polygons))
          ∧ edge_attained (west b) 180
              (lng <$> concat (allPoints <$> polygons))).
Proof.
  intros Hc Hall. rewrite (calculateBounds_consistent polygons Hc).
  destruct (decide (concat (allPoints <$> polygons) = [])) as [E|E].
  - left. split; [reflexivity|].
    apply Forall_forall. intros p Hp.
    destruct (allPoints p) as [|pt pts] eqn:Ep; [reflexivity|].
    assert (pt ∈ concat (allPoints <$> polygons)) as Hpt.
    { apply elem_of_concat. exists (allPoints p).
      split; [rewrite Ep; left|apply list_elem_of_fmap_2, Hp]. }
    rewrite E in Hpt. inversion Hpt.
  - right. eexists. split; [reflexivity|].
    split.
    { apply not_Forall_Exists; [intros p; apply _|]. intros HF. apply E.
      clear -HF. induction HF as [|p polygons Hp _ IH]; [reflexivity|].
      cbn [fmap list_fmap concat]. rewrite Hp. exact IH. }
    split.
    { intros p pt Hp Hpt.
      apply (foldl_extendBounds_grows _ emptyBounds emptyBounds_no_nan Hall).
      apply elem_of_concat. exists (allPoints p).
      split; [exact Hpt|apply list_elem_of_fmap_2, Hp]. }
    apply (foldl_extendBounds_attained _ emptyBounds).
Qed.

Lemma calculateBounds_contains_witness :
  ∃ b, calculateBounds [sample_polygon "K1A" large_square;
                        sample_polygon "M5V" small_square] = Some (Some b)
       ∧ b = {| north := 60; south := 0; east := 60; west := 0 |}
       ∧ ∀ p pt, p ∈ [sample_polygon "K1A" large_square;
                      sample_polygon "M5V" small_square] →
                 pt ∈ allPoints p → in_bounds b pt.
Proof.
  destruct (calculateBounds_contains
              [sample_polygon "K1A" large_square;
               sample_polygon "M5V" small_square])
    as [[E _]|(b & E & _ & Hin & _)].
  - repeat constructor.
  - repeat constructor.
  - discriminate E.
  - exists b. split; [exact E|]. split; [|exact Hin].
    injection E as <-. reflexivity.
Defined.

(** X6: The two bounding-box functions agree: [calculateBounds] of a
    single polygon that has a point is the box that [calculatePolygonBounds]
    computes for the culling of that polygon. *)
Theorem calculateBounds_single p :
  consistent p → allPoints p ≠ [] →
  calculateBounds [p] = Some (Some (calculatePolygonBounds p)).
Proof.
  intros Hc Hne.
  rewrite (calculateBounds_consistent [p]) by (constructor; [exact Hc|constructor]).
  cbn [fmap list_fmap concat]. rewrite app_nil_r.
  destruct (decide (allPoints p = [])); [contradiction|reflexivity].
Qed.

Lemma calculateBounds_single_witness :
  calculateBounds [sample_polygon "M5V" small_square]
  = Some (Some (calculatePolygonBounds (sample_polygon "M5V" small_square))).
Proof.
  apply (calculateBounds_single (sample_polygon "M5V" small_square)).
  - reflexivity.
  - discriminate.
Defined.

End Bounds.

(** ** Fitting the map to the polygons *)

Section Fit.

Implicit Types (p : ConvertedPolygon) (polygons : list ConvertedPolygon)
  (b : PolygonBounds).

(** X7: A viewport set to the bounds of a set of polygons shows every polygon
    of the set that has a point: none of them is culled. *)
Theorem calculateBounds_shows_all polygons b p :
  Forall consistent polygons →
  Forall no_nan (concat (allPoints <$> polygons)) →
  calculateBounds polygons = Some (Some b) →
  p ∈ polygons → allPoints p ≠ [] →
  {| polygon := p; bounds := calculatePolygonBounds p |}
    ∈ visiblePolygons (Some b) (polygonsWithBounds polygons).
Proof.
  intros Hc Hall Hb Hp Hne.
  rewrite (calculateBounds_consistent polygons Hc) in Hb.
  destruct (decide (concat (allPoints <$> polygons) = [])); [discriminate|].
  injection Hb as <-.
  destruct (allPoints p) as [|pt pts] eqn:Ep; [contradiction|].
  assert (pt ∈ allPoints p) as Hpt by (rewrite Ep; left).
  assert (allPoints p ∈ allPoints <$> polygons) as Hin
    by (apply list_elem_of_fmap_2, Hp).
  unfold visiblePolygons. apply list_elem_of_filter. split.
  - simpl. apply (boundsIntersect_common_point _ _ pt).
    + apply calculatePolygonBounds_in_bounds; [|exact Hpt].
      apply Forall_forall. intros q Hq. rewrite Forall_forall in Hall.
      apply Hall, elem_of_concat. exists (allPoints p). split; assumption.
    + apply (foldl_extendBounds_grows _ emptyBounds emptyBounds_no_nan Hall).
      apply elem_of_concat. exists (allPoints p). split; assumption.
  - unfold polygonsWithBounds. apply list_elem_of_In, in_map_iff.
    exists p. split; [reflexivity|]. apply list_elem_of_In, Hp.
Qed.

Lemma calculateBounds_shows_all_witness :
  {| polygon := sample_polygon "K1A" large_square;
     bounds := calculatePolygonBounds (sample_polygon "K1A" large_square) |}
    ∈ visiblePolygons
        (Some {| north := 60; south := 0; east := 60; west := 0 |})
        (polygonsWithBounds [sample_polygon "K1A" large_square;
                             sample_polygon "M5V" small_square]).
Proof.
  apply (calculateBounds_shows_all
           [sample_polygon "K1A" large_square; sample_polygon "M5V" small_square]
           {| north := 60; south := 0; east := 60; west := 0 |}
           (sample_polygon "K1A" large_square)).
  - repeat constructor.
  - repeat constructor.
  - reflexivity.
  - left.
  - discriminate.
Defined.

End Fit.

(** ** The preprocessing of a feature list *)

Section Preprocessing.

Variable proj4 : Coord → Coord.

Implicit Types (ring : list Coord) (t : float) (fuel : nat).

(** The guard [tolerance > 0] of [processRing] keeps the simplifier away
    from the tolerances on which its recursion does not end. *)
Lemma positive_not_negative t : Num.gt t 0 = true → PrimFloat.ltb t 0 = false.
Proof. unfold Num.gt. intros H. apply leb_not_ltb, ltb_leb, H. Qed.

Lemma simplified_from_refl ring : simplified_from ring ring.
Proof. repeat split; auto. Qed.

Lemma processRing_total ring t :
  ∃ fuel r, (∀ fuel', fuel ≤ fuel' → processRing proj4 fuel' ring t = Some r)
            ∧ ring_processed proj4 t ring r.
Proof.
  unfold processRing, ring_processed.
  destruct (Num.gt t 0) eqn:Ht.
  - destruct (simplifyLine_total (S (length ring)) ring t
                (positive_not_negative t Ht)) as [s Hs]; [lia|].
    exists (S (length ring)), (map (λ '(x, y), convertCoord proj4 x y) s).
    split.
    + intros fuel' Hfuel.
      rewrite (simplifyLine_mono _ fuel' _ _ _ Hs Hfuel). reflexivity.
    + exists s. split; [exact (simplifyLine_sound _ _ _ _ Hs)|].
      split; [discriminate|reflexivity].
  - exists 0, (map (λ '(x, y), convertCoord proj4 x y) ring).
    split; [reflexivity|].
    exists ring. split; [apply simplified_from_refl|]. split; reflexivity.
Qed.

(** A [map] of a function that returns with enough fuel returns with
    enough fuel. *)
Lemma mapM_total {A B} (f : nat → A → option B) (Q : A → B → Prop)
    (l : list A) :
  (∀ a, ∃ fuel b, (∀ fuel', fuel ≤ fuel' → f fuel' a = Some b) ∧ Q a b) →
  ∃ fuel bs, (∀ fuel', fuel ≤ fuel' → mapM (f fuel') l = Some bs)
             ∧ Forall2 Q l bs.
Proof.
  intros Hf. induction l as [|a l (fuel1 & bs & Hbs & HQs)].
  - exists 0, []. split; [reflexivity|constructor].
  - destruct (Hf a) as (fuel2 & b & Hb & HQ).
    exists (fuel1 `max` fuel2), (b :: bs). split.
    + intros fuel' Hfuel. cbn [mapM].
      rewrite Hb, Hbs by lia. reflexivity.
    + constructor; assumption.
Qed.

Lemma processPolygon_total (coordinates : list (list Coord)) t :
  ∃ fuel r,
    (∀ fuel', fuel ≤ fuel' → processPolygon proj4 fuel' coordinates t = Some r)
    ∧ Forall2 (ring_processed proj4 t) coordinates r.
Proof.
  apply (mapM_total (λ fuel ring, processRing proj4 fuel ring t)).
  intros ring. apply processRing_total.
Qed.

Lemma processMultiPolygon_total (coordinates : list (list (list Coord))) t :
  ∃ fuel r,
    (∀ fuel', fuel ≤ fuel' →
              processMultiPolygon proj4 fuel' coordinates t = Some r)
    ∧ Forall2 (Forall2 (ring_processed proj4 t)) coordinates r.
Proof.
  apply (mapM_total (λ fuel polygon, processPolygon proj4 fuel polygon t)).
  intros polygon. apply processPolygon_total.
Qed.

Lemma processFeature_total {P} (feature : Feature P) t :
  ∃ fuel r,
    (∀ fuel', fuel ≤ fuel' → processFeature proj4 fuel' feature t = Some r)
    ∧ processed_from proj4 t feature r.
Proof.
  unfold processFeature, processed_from.
  destruct (geometry feature) as [c|c|c|c|c|c|c] eqn:E;
    try (exists 0, feature; rewrite E; split; [reflexivity|split; reflexivity]).
  - destruct (processPolygon_total c t) as (fuel & r & Hr & HQ).
    exists fuel, {| properties := properties feature; geometry := Polygon r |}.
    split; [|split; [reflexivity|exact HQ]].
    intros fuel' Hfuel. rewrite (Hr fuel' Hfuel). reflexivity.
  - destruct (processMultiPolygon_total c t) as (fuel & r & Hr & HQ).
    exists fuel,
      {| properties := properties feature; geometry := MultiPolygon r |}.
    split; [|split; [reflexivity|exact HQ]].
    intros fuel' Hfuel. rewrite (Hr fuel' Hfuel). reflexivity.
Qed.

Lemma processedFeatures_total {P} (features : list (Feature P)) t :
  ∃ fuel r,
    (∀ fuel', fuel ≤ fuel' → processedFeatures proj4 fuel' features t = Some r)
    ∧ Forall2 (processed_from proj4 t) features r.
Proof.
  apply (mapM_total (λ fuel feature, processFeature proj4 fuel feature t)).
  intros feature. apply processFeature_total.
Qed.

(** X8: The processing of a feature list returns for every tolerance, negative
    ones, infinities and NaN included, once the recursion of the simplifier
    is given depth enough.  It returns one feature per feature, with the
    same properties and a geometry of the same type and shape: ring by
    ring, the projection of a subsequence of the ring that has the first
    and the last point of the ring, and at least two points when the ring
    has two. *)
Theorem processedFeatures_returns {P} (features : list (Feature P)) t :
  ∃ fuel r,
    (∀ fuel', fuel ≤ fuel' → processedFeatures proj4 fuel' features t = Some r)
    ∧ length r = length features
    ∧ Forall2 (processed_from proj4 t) features r.
Proof.
  destruct (processedFeatures_total features t) as (fuel & r & Hr & HQ).
  exists fuel, r. split; [exact Hr|]. split; [|exact HQ].
  symmetry. apply (Forall2_length _ _ _ HQ).
Qed.

Lemma foldl_add_le {A B} (g : A → nat) (h : B → nat) (l : list A)
    (l' : list B) :
  Forall2 (λ x y, h y ≤ g x) l l' →
  ∀ a b, b ≤ a → foldl (λ s y, s + h y) b l' ≤ foldl (λ s x, s + g x) a l.
Proof.
  induction 1 as [|x y l l' Hxy _ IH]; intros a b Hab; simpl; [exact Hab|].
  apply IH. lia.
Qed.

Lemma foldl_add_eq {A B} (g : A → nat) (h : B → nat) (l : list A)
    (l' : list B) :
  Forall2 (λ x y, h y = g x) l l' →
  ∀ a, foldl (λ s y, s + h y) a l' = foldl (λ s x, s + g x) a l.
Proof.
  induction 1 as [|x y l l' Hxy _ IH]; intros a; simpl; [reflexivity|].
  rewrite Hxy. apply IH.
Qed.

Lemma ring_processed_length t ring r :
  ring_processed proj4 t ring r →
  length r ≤ length ring ∧ (Num.gt t 0 = false → length r = length ring).
Proof.
  intros (s & (Hsub & _) & Hsame & ->). rewrite length_map. split.
  - apply sublist_length, Hsub.
  - intros Ht. rewrite (Hsame Ht). reflexivity.
Qed.

Lemma processed_from_count {P} t (feature r : Feature P) :
  processed_from proj4 t feature r →
  countCoordinates (Some (geometry r))
    ≤ countCoordinates (Some (geometry feature))
  ∧ (Num.gt t 0 = false →
     countCoordinates (Some (geometry r))
     = countCoordinates (Some (geometry feature))).
Proof.
  intros [_ H].
  destruct (geometry feature) as [c|c|c|c|c|c|c],
    (geometry r) as [c'|c'|c'|c'|c'|c'|c'];
    try contradiction; try discriminate H; try (split; reflexivity);
    cbn [countCoordinates].
  - split.
    + apply foldl_add_le; [|lia].
      eapply Forall2_impl; [exact H|]. intros ring r' Hr.
      apply (ring_processed_length t ring r' Hr).
    + intros Ht. apply foldl_add_eq.
      eapply Forall2_impl; [exact H|]. intros ring r' Hr.
      apply (ring_processed_length t ring r' Hr), Ht.
  - split.
    + apply (foldl_add_le
               (λ polygon, foldl (λ pSum ring, pSum + length ring) 0 polygon)
               (λ polygon, foldl (λ pSum ring, pSum + length ring) 0 polygon));
        [|lia].
      eapply Forall2_impl; [exact H|]. intros polygon polygon' Hp.
      apply foldl_add_le; [|lia].
      eapply Forall2_impl; [exact Hp|]. intros ring r' Hr.
      apply (ring_processed_length t ring r' Hr).
    + intros Ht.
      apply (foldl_add_eq
               (λ polygon, foldl (λ pSum ring, pSum + length ring) 0 polygon)
               (λ polygon, foldl (λ pSum ring, pSum + length ring) 0 polygon)).
      eapply Forall2_impl; [exact H|]. intros polygon polygon' Hp.
      apply foldl_add_eq.
      eapply Forall2_impl; [exact Hp|]. intros ring r' Hr.
      apply (ring_processed_length t ring r' Hr), Ht.
Qed.

(** X9: The processing never adds a coordinate: the count that the script
    prints for its output is at most the count it prints for its input, and
    the two are equal when the tolerance is not positive. *)
Theorem coordCount_processedFeatures {P} (features : list (Feature P)) t :
  ∃ fuel r,
    (∀ fuel', fuel ≤ fuel' → processedFeatures proj4 fuel' features t = Some r)
    ∧ coordCount r ≤ coordCount features
    ∧ (Num.gt t 0 = false → coordCount r = coordCount features).
Proof.
  destruct (processedFeatures_total features t) as (fuel & r & Hr & HQ).
  exists fuel, r. split; [exact Hr|]. unfold coordCount. split.
  - apply (foldl_add_le (λ feature, countCoordinates (Some (geometry feature)))
             (λ feature, countCoordinates (Some (geometry feature))));
      [|lia].
    eapply Forall2_impl; [exact HQ|]. intros feature r' Hf.
    apply (processed_from_count t feature r' Hf).
  - intros Ht.
    apply (foldl_add_eq (λ feature, countCoordinates (Some (geometry feature)))
             (λ feature, countCoordinates (Some (geometry feature)))).
    eapply Forall2_impl; [exact HQ|]. intros feature r' Hf.
    apply (processed_from_count t feature r' Hf), Ht.
Qed.

End Preprocessing.

(** ** The error of the simplifier *)

Section Tolerance.

Implicit Types (points P r : list Coord) (t : float) (fuel : nat)
  (indices : list nat).

Lemma ltb_false_trans (x y z : float) :
  PrimFloat.is_nan y = false →
  PrimFloat.ltb x y = false → PrimFloat.ltb y z = false →
  PrimFloat.ltb x z = false.
Proof.
  intros Hy Hxy Hyz. destruct (PrimFloat.ltb x z) eqn:E; [|reflexivity].
  destruct (ltb_no_nan x z E) as [Hx Hz].
  pose proof (leb_total z y Hz Hy Hyz) as Hzy.
  pose proof (leb_total y x Hy Hx Hxy) as Hyx.
  rewrite (leb_not_ltb z x (leb_trans z y x Hzy Hyx)) in E. discriminate.
Qed.

(** The search loop ends with a distance that no distance it has seen is
    above. *)
Lemma farthest_fold_max points first last indices (acc : float * nat) :
  PrimFloat.is_nan (fst acc) = false →
  PrimFloat.is_nan (fst (foldl (farthest_step points first last) acc indices))
    = false
  ∧ PrimFloat.leb (fst acc)
      (fst (foldl (farthest_step points first last) acc indices)) = true
  ∧ ∀ i, i ∈ indices →
         PrimFloat.ltb
           (fst (foldl (farthest_step points first last) acc indices))
           (perpendicularDistance (nth i points undefined_coord) first last)
         = false.
Proof.
  revert acc. induction indices as [|i indices IH]; intros acc Hacc.
  - simpl. split; [exact Hacc|]. split; [apply leb_refl, Hacc|].
    intros i Hi. inversion Hi.
  - cbn [foldl].
    assert (PrimFloat.is_nan (fst (farthest_step points first last acc i))
            = false
            ∧ PrimFloat.leb (fst acc)
                (fst (farthest_step points first last acc i)) = true
            ∧ PrimFloat.ltb (fst (farthest_step points first last acc i))
                (perpendicularDistance (nth i points undefined_coord)
                   first last) = false) as (Hnan & Hle & Hi).
    { unfold farthest_step, Num.gt.
      destruct (PrimFloat.ltb (fst acc) _) eqn:E; simpl.
      - destruct (ltb_no_nan _ _ E) as [_ Hd].
        split; [exact Hd|]. split; [apply ltb_leb, E|].
        apply leb_not_ltb, leb_refl, Hd.
      - split; [exact Hacc|]. split; [apply leb_refl, Hacc|exact E]. }
    destruct (IH _ Hnan) as (Hnan' & Hle' & Hrest).
    split; [exact Hnan'|]. split; [eapply leb_trans; eassumption|].
    intros k [->|Hk]%elem_of_cons; [|apply Hrest, Hk].
    destruct (PrimFloat.ltb _ _) eqn:E in |- *; [|reflexivity].
    rewrite (leb_ltb_trans _ _ _ Hle' E) in Hi. discriminate.
Qed.

Lemma farthest_max points first last i :
  1 ≤ i ≤ length points - 2 →
  PrimFloat.is_nan (fst (farthest points first last)) = false
  ∧ PrimFloat.ltb (fst (farthest points first last))
      (perpendicularDistance (nth i points undefined_coord) first last)
    = false.
Proof.
  intros Hi. unfold farthest.
  destruct (farthest_fold_max points first last (seq 1 (length points - 2))
              (0%float, 0) eq_refl) as (Hnan & _ & Hmax).
  split; [exact Hnan|]. apply Hmax, elem_of_seq. lia.
Qed.

Lemma sorted_last_bound indices m :
  StronglySorted lt indices → last indices = Some m →
  Forall (λ i, i < m + 1) indices.
Proof.
  intros Hs [l ->]%last_Some.
  apply StronglySorted_app in Hs as (H & _ & _).
  apply Forall_app. split; [|repeat constructor; lia].
  apply Forall_forall. intros i Hi.
  specialize (H i m Hi (list_elem_of_here _ _)). lia.
Qed.

Lemma edges_elem_of {A} (l : list A) (x y : A) :
  (x, y) ∈ edges l → x ∈ l ∧ y ∈ l.
Proof.
  induction l as [|a [|b l] IH]; cbn [edges]; intros H;
    [inversion H|inversion H|].
  apply elem_of_cons in H as [[= -> ->]|H].
  - split; [left|right; left].
  - destruct (IH H). split; right; assumption.
Qed.

Lemma kept_take P n indices :
  Forall (λ i, i < n) indices → kept (take n P) indices = kept P indices.
Proof.
  intros H. unfold kept. apply Forall_fmap_ext_1.
  eapply Forall_impl; [exact H|]. intros i Hi. cbv beta in Hi |- *.
  rewrite nth_firstn. destruct (Nat.ltb_spec i n); [reflexivity|lia].
Qed.

Lemma kept_drop P m indices :
  kept (drop m P) indices = kept P ((λ i, m + i) <$> indices).
Proof.
  unfold kept. rewrite <- list_fmap_compose. apply list_fmap_ext.
  intros _ i _. simpl. apply nth_skipn.
Qed.

Lemma simplifyLine_chords fuel P t r :
  PrimFloat.ltb t 0 = false → 2 ≤ length P →
  simplifyLine fuel P t = Some r →
  ∃ indices, r = kept P indices
             ∧ head indices = Some 0 ∧ last indices = Some (length P - 1)
             ∧ StronglySorted lt indices ∧ chords_within t P indices.
Proof.
  intros Ht. revert P r.
  induction fuel as [|fuel IH]; intros P r Hlen Hr; [discriminate|].
  rewrite simplifyLine_unfold in Hr.
  destruct (decide (length P ≤ 2)) as [Hshort|Hlong].
  { injection Hr as <-.
    destruct P as [|a [|b [|c P]]]; simpl in Hlen, Hshort; try lia.
    exists [0; 1]. repeat split; [repeat constructor; lia|].
    intros i j k Hij Hk. cbn [edges] in Hij.
    apply list_elem_of_singleton in Hij. injection Hij as -> ->. lia. }
  cbv zeta in Hr.
  pose proof (farthest_split P (nth 0 P undefined_coord)
                (nth (length P - 1) P undefined_coord) t Ht) as Hsplit.
  pose proof (farthest_max P (nth 0 P undefined_coord)
                (nth (length P - 1) P undefined_coord)) as Hmax.
  destruct (farthest P _ _) as [maxDistance m]. simpl in Hsplit, Hmax.
  destruct (Num.gt maxDistance t) eqn:Egt.
  - specialize (Hsplit eq_refl).
    destruct (simplifyLine fuel (take _ P) t) as [left|] eqn:El; [|discriminate].
    destruct (simplifyLine fuel (drop _ P) t) as [right|] eqn:Er; [|discriminate].
    simpl in Hr. injection Hr as <-.
    apply IH in El as (iL & -> & HheadL & HlastL & HsortL & HchordL);
      [|rewrite length_take; lia].
    apply IH in Er as (iR & -> & HheadR & HlastR & HsortR & HchordR);
      [|rewrite length_drop; lia].
    rewrite length_take in HlastL. rewrite length_drop in HlastR.
    replace ((m + 1) `min` length P - 1) with m in HlastL by lia.
    pose proof (sorted_last_bound iL m HsortL HlastL) as HboundL.
    apply last_Some in HlastL as [l' ->].
    destruct l' as [|z l']; [simpl in HheadL; injection HheadL as ->; lia|].
    simpl in HheadL. injection HheadL as ->.
    destruct iR as [|z iR]; [discriminate|].
    simpl in HheadR. injection HheadR as ->.
    exists ((0 :: l') ++ ((λ i, m + i) <$> 0 :: iR)).
    split.
    { rewrite (kept_take P (m + 1) _ HboundL), kept_drop.
      unfold kept at 1 2. rewrite length_fmap, fmap_app.
      rewrite take_app_length'
        by (rewrite length_fmap, length_app; simpl; lia).
      unfold kept. rewrite fmap_app. reflexivity. }
    split; [reflexivity|].
    split.
    { rewrite last_app, fmap_last, HlastR. simpl. f_equal. lia. }
    split.
    { apply StronglySorted_app_2.
      - intros x1 x2 Hx1 Hx2.
        apply list_elem_of_fmap in Hx2 as (i & -> & _).
        pose proof (StronglySorted_app_1_elem_of _ _ _ x1 m HsortL Hx1
                      (list_elem_of_here _ _)). lia.
      - apply (StronglySorted_app_1_l _ _ _ HsortL).
      - apply (StronglySorted_fmap _ lt lt); [intros; lia|exact HsortR]. }
    intros i j k Hij Hk.
    rewrite fmap_cons, edges_app_cons, Nat.add_0_r in Hij.
    apply elem_of_app in Hij as [Hij|Hij].
    + specialize (HchordL i j k Hij Hk).
      assert (j < m + 1) as Hj.
      { rewrite Forall_forall in HboundL.
        apply HboundL, (edges_elem_of _ i j Hij). }
      rewrite !nth_firstn in HchordL.
      destruct (Nat.ltb_spec k (m + 1)); [|lia].
      destruct (Nat.ltb_spec i (m + 1)); [|lia].
      destruct (Nat.ltb_spec j (m + 1)); [|lia].
      exact HchordL.
    + replace (m :: ((λ i, m + i) <$> iR)) with ((λ i, m + i) <$> 0 :: iR)
        in Hij by (simpl; f_equal; lia).
      rewrite edges_fmap in Hij.
      apply list_elem_of_fmap in Hij as ([i' j'] & [= -> ->] & Hij).
      specialize (HchordR i' j' (k - m) Hij ltac:(lia)).
      rewrite !nth_skipn in HchordR.
      replace (m + (k - m)) with k in HchordR by lia. exact HchordR.
  - injection Hr as <-. exists [0; length P - 1].
    repeat split; [repeat constructor; lia|].
    intros i j k Hij Hk. cbn [edges] in Hij.
    apply list_elem_of_singleton in Hij. injection Hij as -> ->.
    destruct (Hmax k ltac:(lia)) as [Hnan Hk'].
    unfold Num.gt in *. exact (ltb_false_trans _ _ _ Hnan Egt Hk').
Qed.

(** X10: The guarantee of the simplification: with a tolerance that is not
    negative, the result of [simplifyLine] on a line of two points or more
    is the line at increasing indices, from the first to the last, and
    every point it drops is within the tolerance of the chord between the
    two kept points around it. *)
Theorem simplifyLine_within_tolerance P t :
  PrimFloat.ltb t 0 = false → 2 ≤ length P →
  ∃ r indices,
    (∀ fuel, length P < fuel → simplifyLine fuel P t = Some r)
    ∧ r = kept P indices
    ∧ head indices = Some 0 ∧ last indices = Some (length P - 1)
    ∧ StronglySorted lt indices ∧ chords_within t P indices.
Proof.
  intros Ht Hlen.
  destruct (simplifyLine_total (S (length P)) P t Ht) as [r Hr]; [lia|].
  destruct (simplifyLine_chords _ P t r Ht Hlen Hr) as (indices & H).
  exists r, indices. split; [|exact H].
  intros fuel Hfuel. apply (simplifyLine_mono _ _ _ _ _ Hr). lia.
Qed.

Lemma simplifyLine_within_tolerance_witness :
  ∃ r indices,
    (∀ fuel, length [(0, 0); (5, 0.1); (10, 0); (15, 5)]%float < fuel →
             simplifyLine fuel [(0, 0); (5, 0.1); (10, 0); (15, 5)]%float 1
             = Some r)
    ∧ r = kept [(0, 0); (5, 0.1); (10, 0); (15, 5)]%float indices
    ∧ head indices = Some 0
    ∧ last indices = Some (length [(0, 0); (5, 0.1); (10, 0); (15, 5)]%float - 1)
    ∧ StronglySorted lt indices
    ∧ chords_within 1 [(0, 0); (5, 0.1); (10, 0); (15, 5)]%float indices.
Proof.
  apply (simplifyLine_within_tolerance
           [(0, 0); (5, 0.1); (10, 0); (15, 5)]%float 1).
  - reflexivity.
  - simpl. lia.
Defined.

End Tolerance.

(** ** Simplifying twice *)

Section Idempotence.

Implicit Types (points P r inner before after : list Coord) (x first last : Coord)
  (t : float) (fuel : nat) (acc : float * nat).

Lemma farthest_scan_seq points first last acc i k :
  i + k ≤ length points →
  foldl (farthest_step points first last) acc (seq i k)
  = farthest_scan first last acc i (take k (drop i points)).
Proof.
  revert acc i. induction k as [|k IH]; intros acc i Hlen; [reflexivity|].
  destruct (lookup_lt_is_Some_2 points i) as [x Hx]; [lia|].
  rewrite (drop_S _ _ _ Hx). cbn [seq foldl take farthest_scan].
  rewrite IH by lia. unfold farthest_step at 1.
  rewrite (nth_lookup_Some _ _ _ _ Hx). reflexivity.
Qed.

Lemma farthest_inner first last inner :
  farthest (first :: inner ++ [last]) first last
  = farthest_scan first last (0%float, 0) 1 inner.
Proof.
  unfold farthest. rewrite farthest_scan_seq.
  - cbn [length drop]. rewrite length_app. cbn [length].
    rewrite drop_0.
    replace (S (length inner + 1) - 2) with (length inner) by lia.
    rewrite take_app_length. reflexivity.
  - cbn [length]. rewrite length_app. cbn [length]. lia.
Qed.

(** What the loop returns: its start value, when no point is above it, or
    the first point that no point is above. *)
Lemma farthest_scan_cases first last inner acc i :
  PrimFloat.is_nan (fst acc) = false →
  (farthest_scan first last acc i inner = acc
   ∧ Forall (λ z, PrimFloat.ltb (fst acc) (perpendicularDistance z first last)
                  = false) inner)
  ∨ (∃ before x after,
       inner = before ++ x :: after
       ∧ farthest_scan first last acc i inner
         = (perpendicularDistance x first last, i + length before)
       ∧ PrimFloat.ltb (fst acc) (perpendicularDistance x first last) = true
       ∧ Forall (λ y, PrimFloat.is_nan (perpendicularDistance y first last)
                      = true
                      ∨ PrimFloat.ltb (perpendicularDistance y first last)
                          (perpendicularDistance x first last) = true) before
       ∧ Forall (λ y, PrimFloat.ltb (perpendicularDistance x first last)
                        (perpendicularDistance y first last) = false) after).
Proof.
  revert acc i. induction inner as [|y inner IH]; intros acc i Hacc.
  { left. split; [reflexivity|constructor]. }
  cbn [farthest_scan]. unfold Num.gt.
  destruct (PrimFloat.ltb (fst acc) (perpendicularDistance y first last))
    eqn:E.
  - destruct (ltb_no_nan _ _ E) as [_ Hy].
    destruct (IH (perpendicularDistance y first last, i) (S i) Hy)
      as [[-> Hall]|(before & x & after & -> & -> & Hx & Hb & Ha)].
    + right. exists [], y, inner. rewrite Nat.add_0_r.
      repeat split; try assumption; constructor.
    + right. exists (y :: before), x, after. cbn [fst] in Hx.
      split; [reflexivity|]. split; [simpl; f_equal; lia|].
      split; [exact (ltb_leb_trans _ _ _ E (ltb_leb _ _ Hx))|].
      split; [|exact Ha]. constructor; [right; exact Hx|exact Hb].
  - destruct (IH acc (S i) Hacc)
      as [[-> Hall]|(before & x & after & -> & -> & Hx & Hb & Ha)].
    + left. split; [reflexivity|]. constructor; assumption.
    + right. exists (y :: before), x, after.
      split; [reflexivity|]. split; [simpl; f_equal; lia|].
      split; [exact Hx|]. split; [|exact Ha]. constructor; [|exact Hb].
      destruct (PrimFloat.is_nan (perpendicularDistance y first last)) eqn:Hy;
        [left; reflexivity|right].
      apply (leb_ltb_trans _ (fst acc)); [|exact Hx].
      apply leb_total; assumption.
Qed.

(** The loop returns the same point when points below it are left out. *)
Lemma farthest_scan_unique first last before x after acc i :
  PrimFloat.ltb (fst acc) (perpendicularDistance x first last) = true →
  Forall (λ y, PrimFloat.is_nan (perpendicularDistance y first last) = true
               ∨ PrimFloat.ltb (perpendicularDistance y first last)
                   (perpendicularDistance x first last) = true) before →
  Forall (λ y, PrimFloat.ltb (perpendicularDistance x first last)
                 (perpendicularDistance y first last) = false) after →
  farthest_scan first last acc i (before ++ x :: after)
  = (perpendicularDistance x first last, i + length before).
Proof.
  intros Hacc Hb Ha. revert acc i Hacc.
  induction Hb as [|y before Hy _ IH]; intros acc i Hacc.
  - cbn [app farthest_scan length]. unfold Num.gt at 1. rewrite Hacc.
    rewrite Nat.add_0_r. generalize (S i). clear -Ha.
    induction Ha as [|y after Hy _ IH]; intros j; [reflexivity|].
    cbn [farthest_scan fst]. unfold Num.gt. rewrite Hy. apply IH.
  - cbn [app farthest_scan length]. rewrite IH.
    + f_equal. lia.
    + unfold Num.gt.
      destruct (PrimFloat.ltb (fst acc) (perpendicularDistance y first last))
        eqn:E; [|exact Hacc].
      destruct Hy as [Hy|Hy]; [|exact Hy].
      destruct (ltb_no_nan _ _ E) as [_ Hy']. congruence.
Qed.

Lemma sublist_Forall {A} (Q : A → Prop) (l k : list A) :
  l `sublist_of` k → Forall Q k → Forall Q l.
Proof.
  induction 1 as [|x l k _ IH|x l k _ IH]; intros Hk; [constructor| |].
  - apply Forall_cons in Hk as [Hx Hk]. constructor; auto.
  - apply Forall_cons in Hk as [_ Hk]. auto.
Qed.

(** A subsequence that keeps both ends is a subsequence in between. *)
Lemma sublist_ends (a b : Coord) (mid l : list Coord) :
  l `sublist_of` a :: mid ++ [b] → head l = Some a → last l = Some b →
  2 ≤ length l →
  ∃ mid', l = a :: mid' ++ [b] ∧ mid' `sublist_of` mid.
Proof.
  intros Hsub Hhead Hlast Hlen.
  destruct l as [|a' l]; [discriminate|]. injection Hhead as ->.
  destruct l as [|b' l _] using rev_ind; [simpl in Hlen; lia|].
  rewrite last_cons, last_snoc in Hlast. injection Hlast as ->.
  exists l. split; [reflexivity|].
  apply sublist_without_last in Hsub.
  cbn [length] in Hsub. rewrite !length_app in Hsub. cbn [length] in Hsub.
  replace (S (length l + 1) - 1) with (S (length l)) in Hsub by lia.
  replace (S (length mid + 1) - 1) with (S (length mid)) in Hsub by lia.
  cbn [take] in Hsub. rewrite !take_app_length in Hsub.
  apply sublist_cons_r in Hsub as [Hsub|(l' & [= ->] & Hsub)]; [|exact Hsub].
  apply sublist_cons_l in Hsub as (k1 & k2 & -> & Hsub).
  etrans; [exact Hsub|]. apply sublist_inserts_l, sublist_cons. reflexivity.
Qed.

Lemma ends_decompose P :
  2 ≤ length P →
  ∃ first inner last,
    P = first :: inner ++ [last]
    ∧ nth 0 P undefined_coord = first
    ∧ nth (length P - 1) P undefined_coord = last.
Proof.
  intros Hlen. destruct P as [|a P]; [simpl in Hlen; lia|].
  destruct P as [|b P _] using rev_ind; [simpl in Hlen; lia|].
  exists a, P, b. split; [reflexivity|]. split; [reflexivity|].
  cbn [length]. rewrite length_app. cbn [length].
  replace (S (length P + 1) - 1) with (S (length P)) by lia.
  cbn [nth]. apply nth_middle.
Qed.

Lemma simplifyLine_fixed fuel P t r :
  PrimFloat.ltb t 0 = false →
  simplifyLine fuel P t = Some r → simplifyLine fuel r t = Some r.
Proof.
  intros Ht. revert P r.
  induction fuel as [|fuel IH]; intros P r Hr; [discriminate|].
  rewrite simplifyLine_unfold in Hr.
  destruct (decide (length P ≤ 2)) as [Hshort|Hlong].
  { injection Hr as <-. rewrite simplifyLine_unfold.
    rewrite decide_True by exact Hshort. reflexivity. }
  cbv zeta in Hr.
  destruct (ends_decompose P) as (first & inner & last & HP & Hfirst & Hlast);
    [lia|].
  rewrite Hfirst, Hlast in Hr. clear Hfirst Hlast.
  pose proof (farthest_split P first last t Ht) as Hsplit.
  destruct (farthest P first last) as [maxDistance m] eqn:Ef.
  simpl in Hsplit.
  destruct (Num.gt maxDistance t) eqn:Egt.
  2:{ injection Hr as <-. reflexivity. }
  specialize (Hsplit eq_refl).
  destruct (simplifyLine fuel (take _ P) t) as [left|] eqn:El; [|discriminate].
  destruct (simplifyLine fuel (drop _ P) t) as [right|] eqn:Er; [|discriminate].
  simpl in Hr. injection Hr as <-.
  rewrite HP, farthest_inner in Ef.
  destruct (farthest_scan_cases first last inner (0%float, 0) 1 eq_refl)
    as [[E _]|(before & x & after & Hinner & E & Hx & Hb & Ha)];
    rewrite E in Ef; injection Ef as <- <-; [lia|].
  clear E Hsplit Hlong. cbn [fst] in Hx. subst inner P.
  assert (take (S (length before) + 1)
               (first :: (before ++ x :: after) ++ [last])
          = first :: before ++ [x]) as Htake.
  { replace (first :: (before ++ x :: after) ++ [last])
      with ((first :: before ++ [x]) ++ (after ++ [last]))
      by (simpl; rewrite <- !app_assoc; reflexivity).
    apply take_app_length'. simpl. rewrite length_app. simpl. lia. }
  assert (drop (S (length before))
               (first :: (before ++ x :: after) ++ [last])
          = x :: after ++ [last]) as Hdrop.
  { replace (first :: (before ++ x :: after) ++ [last])
      with ((first :: before) ++ (x :: after ++ [last]))
      by (simpl; rewrite <- !app_assoc; reflexivity).
    apply drop_app_length'. reflexivity. }
  rewrite Htake in El. rewrite Hdrop in Er.
  pose proof (simplifyLine_sound _ _ _ _ El) as (Lsub & Lhead & Llast & Llen).
  pose proof (simplifyLine_sound _ _ _ _ Er) as (Rsub & Rhead & Rlast & Rlen).
  apply IH in El. apply IH in Er.
  destruct (sublist_ends first x before left Lsub Lhead)
    as (L & -> & HL).
  { rewrite Llast. cbn [List.last]. rewrite last_cons, last_snoc. reflexivity. }
  { apply Llen. simpl. rewrite length_app. simpl. lia. }
  destruct (sublist_ends x last after right Rsub Rhead)
    as (R & -> & HR).
  { rewrite Rlast. rewrite last_cons, last_snoc. reflexivity. }
  { apply Rlen. simpl. rewrite length_app. simpl. lia. }
  clear Lsub Lhead Llast Llen Rsub Rhead Rlast Rlen Htake Hdrop.
  replace (take (length (first :: L ++ [x]) - 1) (first :: L ++ [x])
           ++ x :: R ++ [last])
    with (first :: (L ++ x :: R) ++ [last]).
  2:{ cbn [length]. rewrite length_app. cbn [length].
      replace (S (length L + 1) - 1) with (S (length L)) by lia.
      cbn [take]. rewrite take_app_length. simpl.
      rewrite <- !app_assoc. reflexivity. }
  rewrite simplifyLine_unfold.
  rewrite decide_False
    by (cbn [length]; rewrite !length_app; cbn [length]; lia).
  cbv zeta.
  destruct (ends_decompose (first :: (L ++ x :: R) ++ [last]))
    as (first' & inner' & last' & HP' & -> & ->).
  { cbn [length]. rewrite !length_app. cbn [length]. lia. }
  injection HP' as <- HP'. apply app_inj_tail in HP' as [<- <-].
  rewrite farthest_inner.
  rewrite (farthest_scan_unique first last L x R (0%float, 0) 1 Hx
             (sublist_Forall _ _ _ HL Hb) (sublist_Forall _ _ _ HR Ha)).
  rewrite Egt.
  replace (take (1 + length L + 1) (first :: (L ++ x :: R) ++ [last]))
    with (first :: L ++ [x]).
  2:{ replace (first :: (L ++ x :: R) ++ [last])
        with ((first :: L ++ [x]) ++ (R ++ [last]))
        by (simpl; rewrite <- !app_assoc; reflexivity).
      symmetry. apply take_app_length'. simpl. rewrite length_app. simpl. lia. }
  replace (drop (1 + length L) (first :: (L ++ x :: R) ++ [last]))
    with (x :: R ++ [last]).
  2:{ replace (first :: (L ++ x :: R) ++ [last])
        with ((first :: L) ++ (x :: R ++ [last]))
        by (simpl; rewrite <- !app_assoc; reflexivity).
      symmetry. apply drop_app_length'. reflexivity. }
  rewrite El, Er. simpl. f_equal.
  rewrite length_app. cbn [length].
  replace (length L + 1 - 0) with (S (length L)) by lia.
  cbn [take]. rewrite take_app_length. simpl.
  rewrite <- !app_assoc. reflexivity.
Qed.

(** X11: Simplifying twice is simplifying once: with a tolerance that is not
    negative, [simplifyLine] returns its own result unchanged. *)
Theorem simplifyLine_idempotent P t :
  PrimFloat.ltb t 0 = false →
  ∃ r, ∀ fuel, length P < fuel →
               simplifyLine fuel P t = Some r
               ∧ simplifyLine fuel r t = Some r.
Proof.
  intros Ht.
  destruct (simplifyLine_total (S (length P)) P t Ht) as [r Hr]; [lia|].
  exists r. intros fuel Hfuel.
  assert (simplifyLine fuel P t = Some r) as H
    by (apply (simplifyLine_mono _ _ _ _ _ Hr); lia).
  split; [exact H|]. exact (simplifyLine_fixed fuel P t r Ht H).
Qed.

Lemma simplifyLine_idempotent_witness :
  ∃ r, ∀ fuel,
    length [(0, 0); (5, 0.1); (10, 0); (15, 5); (20, 0)]%float < fuel →
    simplifyLine fuel [(0, 0); (5, 0.1); (10, 0); (15, 5); (20, 0)]%float 1
    = Some r
    ∧ simplifyLine fuel r 1 = Some r.
Proof.
  apply (simplifyLine_idempotent
           [(0, 0); (5, 0.1); (10, 0); (15, 5); (20, 0)]%float 1).
  reflexivity.
Defined.

End Idempotence.

(** ** The center of a polygon *)

Section Center.

Implicit Types (ring : list LatLngLiteral)
  (coordinates : list (list LatLngLiteral)).

Lemma abs_not_negative (x : float) :
  PrimFloat.is_nan (PrimFloat.abs x) = false →
  PrimFloat.ltb (-1) (PrimFloat.abs x) = true.
Proof.
  rewrite is_nan_key, ltb_spec. unfold float_key. rewrite abs_spec.
  let k := eval vm_compute in (Prim2SF (-1)) in change (Prim2SF (-1)) with k.
  destruct (Prim2SF x) as [[]|[]| |[] m e]; simpl; intros [k Hk];
    try discriminate Hk; reflexivity.
Qed.

(** An area is [0], the magnitude of a number, or NaN. *)
Lemma ring_area_not_negative ring :
  PrimFloat.is_nan (ring_area ring) = false →
  PrimFloat.ltb (-1) (ring_area ring) = true.
Proof.
  unfold ring_area, calculateRingCentroid.
  destruct (decide _); [reflexivity|].
  destruct (foldl _ _ _) as [[signedArea centroidLat] centroidLng].
  cbv zeta. destruct (Num.lt _ _); [reflexivity|]. apply abs_not_negative.
Qed.

Lemma ltb_nan_r (x y : float) :
  PrimFloat.is_nan y = true → PrimFloat.ltb x y = false.
Proof.
  intros Hy. destruct (PrimFloat.ltb x y) eqn:E; [|reflexivity].
  destruct (ltb_no_nan x y E) as [_ Hy']. congruence.
Qed.

Lemma ltb_irrefl (x : float) : PrimFloat.ltb x x = false.
Proof.
  destruct (PrimFloat.ltb x x) eqn:E; [|reflexivity].
  destruct (ltb_no_nan x x E) as [Hx _].
  rewrite (leb_not_ltb x x (leb_refl x Hx)) in E. discriminate.
Qed.

Lemma center_step_unfold (acc : LatLngLiteral * float) ring :
  center_step acc ring
  = if PrimFloat.ltb (snd acc) (ring_area ring)
    then (centroid (calculateRingCentroid ring), ring_area ring) else acc.
Proof. reflexivity. Qed.

(** The loop of [calculatePolygonCenter] holds the first ring of the
    largest area among the rings it has seen, or its start values when it
    has seen no ring whose area is a number. *)
Lemma center_fold coordinates :
  (Forall (λ ring, PrimFloat.is_nan (ring_area ring) = true) coordinates
   ∧ foldl center_step ({| lat := 0%float; lng := 0%float |}, (-1)%float)
       coordinates
     = ({| lat := 0%float; lng := 0%float |}, (-1)%float))
  ∨ (∃ i ring,
       first_largest coordinates i ring
       ∧ foldl center_step ({| lat := 0%float; lng := 0%float |}, (-1)%float)
           coordinates
         = (centroid (calculateRingCentroid ring), ring_area ring)).
Proof.
  induction coordinates as [|x done IH] using rev_ind.
  { left. split; [constructor|reflexivity]. }
  rewrite foldl_snoc.
  destruct IH as [[Hnan ->]|(i & ring & (Hi & Hring & Hmax & Hfirst) & ->)];
    rewrite center_step_unfold; cbn [snd].
  - destruct (PrimFloat.ltb (-1) (ring_area x)) eqn:E.
    + right. exists (length done), x. split; [|reflexivity].
      destruct (ltb_no_nan _ _ E) as [_ Hx].
      assert (∀ j ring', j < length done → (done ++ [x]) !! j = Some ring' →
                         PrimFloat.is_nan (ring_area ring') = true) as Hbefore.
      { intros j ring' Hj Hl. rewrite lookup_app_l in Hl by exact Hj.
        rewrite Forall_forall in Hnan.
        apply Hnan, (list_elem_of_lookup_2 _ _ _ Hl). }
      split; [apply list_lookup_middle; reflexivity|].
      split; [exact Hx|]. split.
      * intros j ring' Hl.
        destruct (decide (j < length done)) as [Hj|Hj].
        { apply ltb_nan_r, (Hbefore j ring' Hj Hl). }
        rewrite lookup_app_r in Hl by lia.
        apply list_lookup_singleton_Some in Hl as [_ <-]. apply ltb_irrefl.
      * intros j ring' Hj Hl. left. exact (Hbefore j ring' Hj Hl).
    + left. split; [|reflexivity].
      apply Forall_app. split; [exact Hnan|]. constructor; [|constructor].
      destruct (PrimFloat.is_nan (ring_area x)) eqn:Ex; [reflexivity|].
      rewrite (ring_area_not_negative x Ex) in E. discriminate.
  - destruct (PrimFloat.ltb (ring_area ring) (ring_area x)) eqn:E.
    + right. exists (length done), x. split; [|reflexivity].
      destruct (ltb_no_nan _ _ E) as [_ Hx].
      split; [apply list_lookup_middle; reflexivity|].
      split; [exact Hx|]. split.
      * intros j ring' Hl.
        destruct (decide (j < length done)) as [Hj|Hj].
        { rewrite lookup_app_l in Hl by exact Hj.
          destruct (PrimFloat.ltb (ring_area x) (ring_area ring')) eqn:E';
            [|reflexivity].
          pose proof (Hmax j ring' Hl) as Hm.
          rewrite (ltb_leb_trans _ _ _ E (ltb_leb _ _ E')) in Hm.
          discriminate Hm. }
        rewrite lookup_app_r in Hl by lia.
        apply list_lookup_singleton_Some in Hl as [_ <-]. apply ltb_irrefl.
      * intros j ring' Hj Hl. rewrite lookup_app_l in Hl by exact Hj.
        destruct (PrimFloat.is_nan (ring_area ring')) eqn:Enan;
          [left; reflexivity|right].
        apply (leb_ltb_trans _ (ring_area ring)); [|exact E].
        apply leb_total; [exact Enan|exact Hring|exact (Hmax j ring' Hl)].
    + right. exists i, ring. split; [|reflexivity].
      pose proof (lookup_lt_Some _ _ _ Hi) as Hlt.
      split; [rewrite lookup_app_l by exact Hlt; exact Hi|].
      split; [exact Hring|]. split.
      * intros j ring' Hl.
        destruct (decide (j < length done)) as [Hj|Hj].
        { rewrite lookup_app_l in Hl by exact Hj. exact (Hmax j ring' Hl). }
        rewrite lookup_app_r in Hl by lia.
        apply list_lookup_singleton_Some in Hl as [_ <-]. exact E.
      * intros j ring' Hj Hl. rewrite lookup_app_l in Hl by lia.
        exact (Hfirst j ring' Hj Hl).
Qed.

(** X12: [calculatePolygonCenter] returns the centroid of the first ring of the
    largest area, the rings whose area is NaN left aside; it returns the
    origin when there is no ring, and when the area of every ring is NaN. *)
Theorem calculatePolygonCenter_largest coordinates :
  (Forall (λ ring, PrimFloat.is_nan (ring_area ring) = true) coordinates
   ∧ calculatePolygonCenter coordinates = {| lat := 0%float; lng := 0%float |})
  ∨ (∃ i ring, first_largest coordinates i ring
               ∧ calculatePolygonCenter coordinates
                 = centroid (calculateRingCentroid ring)).
Proof.
  unfold calculatePolygonCenter.
  destruct (decide (length coordinates = 0)) as [E|E].
  { left. apply length_zero_iff_nil in E. subst coordinates.
    split; [constructor|reflexivity]. }
  destruct (center_fold coordinates) as [[Hnan ->]|(i & ring & H & ->)].
  - left. split; [exact Hnan|reflexivity].
  - right. exists i, ring. split; [exact H|reflexivity].
Qed.

End Center.

(** ** The ring of the hull *)

Section HullRing.

Context {N : Type} `{Arithmetic N}.

Implicit Types (p x : LatLng N) (points stack chain : list (LatLng N)).

(** The [while] loop stops on a left turn. *)
Lemma pop_non_left_exit stack p b a rest :
  pop_non_left stack p = b :: a :: rest →
  non_positive (crossProduct a b p) = false.
Proof.
  induction stack as [|b' stack IH]; simpl; [discriminate|].
  destruct stack as [|a' rest']; [discriminate|].
  destruct (non_positive (crossProduct a' b' p)) eqn:E; [exact IH|].
  intros [= -> -> ->]. exact E.
Qed.

Lemma left_turns_prefix chain1 chain2 :
  left_turns (chain1 ++ chain2) → left_turns chain1.
Proof.
  intros Hturns i a b c Ha Hb Hc.
  apply (Hturns i a b c); apply lookup_app_l_Some; assumption.
Qed.

Lemma push_point_left_turns stack p :
  left_turns (reverse stack) → left_turns (reverse (push_point stack p)).
Proof.
  intros Hstack. unfold push_point. rewrite reverse_cons.
  destruct (pop_non_left_suffix stack p) as [k Hk].
  rewrite Hk, reverse_app in Hstack. apply left_turns_prefix in Hstack.
  intros i a b c Ha Hb Hc.
  pose proof (lookup_lt_Some _ _ _ Hc) as Hlen.
  rewrite length_app, length_reverse in Hlen. simpl in Hlen.
  destruct (decide (S (S i) < length (pop_non_left stack p))) as [Hi|Hi].
  - rewrite lookup_app_l in Ha, Hb, Hc by (rewrite length_reverse; lia).
    exact (Hstack i a b c Ha Hb Hc).
  - rewrite lookup_app_l in Ha, Hb by (rewrite length_reverse; lia).
    rewrite lookup_app_r in Hc by (rewrite length_reverse; lia).
    rewrite length_reverse in Hc.
    apply list_lookup_singleton_Some in Hc as [_ <-].
    rewrite reverse_lookup in Ha, Hb by lia.
    destruct (pop_non_left stack p) as [|b' [|a' rest]] eqn:E;
      simpl in Hlen, Hi; try lia.
    replace (length (b' :: a' :: rest) - S (S i)) with 0 in Hb
      by (simpl; lia).
    replace (length (b' :: a' :: rest) - S i) with 1 in Ha by (simpl; lia).
    simpl in Ha, Hb. injection Ha as <-. injection Hb as <-.
    exact (pop_non_left_exit stack p _ _ _ E).
Qed.

Lemma build_chain_left_turns points : left_turns (build_chain points).
Proof.
  unfold build_chain.
  assert (left_turns (reverse (@nil (LatLng N)))) as Hnil
    by (intros i a b c Ha; discriminate Ha).
  revert Hnil. generalize (@nil (LatLng N)).
  induction points as [|p points IH]; intros stack Hstack; [exact Hstack|].
  simpl. apply IH, push_point_left_turns, Hstack.
Qed.

Lemma build_chain_head points :
  head (build_chain points) = head points.
Proof. unfold build_chain. rewrite head_reverse. apply foldl_push_point_last. Qed.

Lemma build_chain_last points :
  last (build_chain points) = last points.
Proof.
  unfold build_chain. rewrite last_reverse.
  destruct points as [|p points]; [reflexivity|].
  apply foldl_push_point_head. discriminate.
Qed.

(** The two chains of the hull. *)
Lemma calculateConvexHull_chains points :
  3 ≤ length points →
  ∃ lower upper,
    calculateConvexHull points = lower ++ upper
    ∧ 1 ≤ length lower ∧ 2 ≤ length upper
    ∧ head lower = head (sortPoints points)
    ∧ head upper = last (sortPoints points)
    ∧ last upper = head (sortPoints points)
    ∧ left_turns (lower ++ take 1 upper) ∧ left_turns upper.
Proof.
  intros Hlen. rewrite (calculateConvexHull_long points Hlen).
  assert (length (sortPoints points) = length points) as Hs
    by (apply Permutation_length, sortPoints_Permutation).
  pose proof (build_chain_length (sortPoints points)) as HL.
  pose proof (build_chain_length (reverse (sortPoints points))) as HU.
  rewrite length_reverse in HU.
  pose proof (build_chain_head (sortPoints points)) as HheadL.
  pose proof (build_chain_last (sortPoints points)) as HlastL.
  pose proof (build_chain_head (reverse (sortPoints points))) as HheadU.
  pose proof (build_chain_last (reverse (sortPoints points))) as HlastU.
  rewrite head_reverse in HheadU. rewrite last_reverse in HlastU.
  pose proof (build_chain_left_turns (sortPoints points)) as HturnsL.
  pose proof (build_chain_left_turns (reverse (sortPoints points))) as HturnsU.
  destruct (build_chain (sortPoints points)) as [|z lower _] eqn:EL
    using rev_ind; [simpl in HL; lia|].
  rewrite length_app in HL |- *. simpl in HL |- *.
  replace (length lower + 1 - 1) with (length lower) by lia.
  rewrite take_app_length.
  exists lower, (build_chain (reverse (sortPoints points))).
  split; [reflexivity|]. split; [lia|]. split; [lia|].
  split.
  { rewrite <- HheadL. destruct lower; [simpl in HL; lia|reflexivity]. }
  split; [exact HheadU|]. split; [exact HlastU|].
  split; [|exact HturnsU].
  rewrite last_snoc in HlastL.
  destruct (build_chain (reverse (sortPoints points))) as [|z' upper];
    [simpl in HU; lia|].
  simpl in HheadU. rewrite <- HlastL in HheadU. injection HheadU as ->.
  exact HturnsL.
Qed.

(** X13: The hull of three points or more is a closed ring, made of two chains:
    a lower chain from the first of the sorted points up to the last one,
    which is left to the second chain, and an upper chain from the last of
    the sorted points back to the first.  Each chain turns left at each of
    its points.  The first point is not removed from the end of the ring:
    the first and the last entry of the hull are the same point. *)
Theorem calculateConvexHull_ring points :
  3 ≤ length points →
  (∃ lower upper,
     calculateConvexHull points = lower ++ upper
     ∧ 1 ≤ length lower ∧ 2 ≤ length upper
     ∧ head lower = head (sortPoints points)
     ∧ head upper = last (sortPoints points)
     ∧ last upper = head (sortPoints points)
     ∧ left_turns (lower ++ take 1 upper) ∧ left_turns upper)
  ∧ head (calculateConvexHull points) = last (calculateConvexHull points)
  ∧ head (calculateConvexHull points) = head (sortPoints points).
Proof.
  intros Hlen.
  destruct (calculateConvexHull_chains points Hlen)
    as (lower & upper & E & HL & HU & HheadL & HheadU & HlastU & Hturns).
  split; [exists lower, upper; repeat split; try assumption; apply Hturns|].
  rewrite E, head_app, last_app, HlastU, HheadL.
  assert (is_Some (head (sortPoints points))) as [x Hx].
  { rewrite <- HheadL. destruct lower; [simpl in HL; lia|eexists; reflexivity]. }
  rewrite Hx. split; reflexivity.
Qed.

End HullRing.

Lemma calculateConvexHull_ring_witness :
  head (calculateConvexHull close_points)
  = last (calculateConvexHull close_points)
  ∧ head (calculateConvexHull close_points) = head (sortPoints close_points).
Proof.
  apply (calculateConvexHull_ring close_points). simpl. lia.
Defined.

(** X14: The geometry of a new segment: none when no group is selected, a
    circle of radius [500] around the point of a single group, and for two
    groups or more a polygon whose vertices are among the points of the
    groups.  For two groups the polygon has the two points only; for three
    or more it has at least three entries, the first of which is repeated
    at the end. *)
Theorem segmentGeometry_cases (points : list LatLngLiteral) :
  match points with
  | [] => segmentGeometry points = None
  | [point] => segmentGeometry points = Some (CircleGeometry point 500)
  | _ =>
      ∃ hull, segmentGeometry points = Some (PolygonGeometry hull)
              ∧ hull ⊆ points
              ∧ (length points = 2 → hull = points)
              ∧ (3 ≤ length points →
                 3 ≤ length hull ∧ head hull = last hull)
  end.
Proof.
  destruct points as [|a [|b points]]; [reflexivity|reflexivity|].
  exists (calculateConvexHull (a :: b :: points)).
  split; [reflexivity|].
  split; [intros x; apply calculateConvexHull_elem_of|].
  split.
  - intros Hlen. apply calculateConvexHull_short. unfold LatLngLiteral in *. lia.
  - intros Hlen. split; [apply calculateConvexHull_length, Hlen|].
    destruct (calculateConvexHull_chains (a :: b :: points) Hlen)
      as (lower & upper & -> & HL & HU & HheadL & HheadU & HlastU & _).
    unfold LatLngLiteral in *. rewrite head_app, last_app, HlastU, HheadL.
    destruct (head (sortPoints (a :: b :: points))) eqn:E; [reflexivity|].
    destruct lower; [simpl in HL; lia|discriminate HheadL].
Qed.

(** ** From the features to the polygons of the map *)

Section Pipeline.

Implicit Types (feature f : FSAFeature) (features : list FSAFeature)
  (result r : list ConvertedPolygon) (t : float) (fuel : nat).

Lemma fmap_concat {A B} (g : A → B) (l : list (list A)) :
  g <$> concat l = concat (map (map g) l).
Proof.
  induction l as [|x l IH]; simpl; [reflexivity|].
  rewrite fmap_app, IH. reflexivity.
Qed.

Lemma convertPreprocessedFeature_cases f :
  (convertPreprocessedFeature f = None ∧ geometry f = MultiPolygon [])
  ∨ (∃ p, convertPreprocessedFeature f = Some [p]
          ∧ geometry f ≠ MultiPolygon []
          ∧ supported (geometry f) = true ∧ converted_from f p)
  ∨ (convertPreprocessedFeature f = Some [] ∧ supported (geometry f) = false).
Proof.
  unfold convertPreprocessedFeature, converted_from, consistent, allPoints.
  destruct (geometry f) as [c|c|c|c|c|c|c];
    try (right; right; split; reflexivity).
  - right. left. eexists. split; [reflexivity|]. split; [discriminate|].
    simpl. repeat split. rewrite fmap_concat. reflexivity.
  - destruct c as [|part parts]; [left; split; reflexivity|].
    right. left. eexists. split; [reflexivity|]. split; [discriminate|].
    cbn [coordinates isMultiPolygon id fsaId provinceId provinceName
         geometry_points supported].
    repeat split. rewrite fmap_concat, concat_map. reflexivity.
Qed.

Lemma convertPreprocessedFeatures_from_cases features result :
  (convertPreprocessedFeatures_from result features = None
   ∧ Exists (λ f, geometry f = MultiPolygon []) features)
  ∨ (∃ r, convertPreprocessedFeatures_from result features = Some (result ++ r)
          ∧ Forall (λ f, geometry f ≠ MultiPolygon []) features
          ∧ Forall2 converted_from
              (filter (λ f, supported (geometry f) = true) features) r).
Proof.
  revert result. induction features as [|f features IH]; intros result.
  { right. exists []. rewrite app_nil_r. repeat split; constructor. }
  cbn [convertPreprocessedFeatures_from].
  destruct (convertPreprocessedFeature_cases f)
    as [[-> Hf]|[(p & -> & Hne & Hs & Hp)|[-> Hs]]].
  - left. split; [reflexivity|]. left. exact Hf.
  - simpl. destruct (IH (result ++ [p])) as [[-> HE]|(r & -> & HF & HR)].
    + left. split; [reflexivity|]. right. exact HE.
    + right. exists (p :: r). rewrite <- app_assoc. split; [reflexivity|].
      split; [constructor; assumption|].
      rewrite filter_cons_True by exact Hs. constructor; assumption.
  - simpl. rewrite app_nil_r.
    destruct (IH result) as [[-> HE]|(r & -> & HF & HR)].
    + left. split; [reflexivity|]. right. exact HE.
    + right. exists r. split; [reflexivity|]. split.
      * constructor; [|exact HF]. intros E. rewrite E in Hs. discriminate.
      * rewrite filter_cons_False by (rewrite Hs; discriminate). exact HR.
Qed.

(** X15: The fast path throws exactly when a feature is a [MultiPolygon] without
    parts.  Otherwise it returns one polygon per [Polygon] or
    [MultiPolygon] feature, in the order of the features, with the
    properties of the feature, a flag that tells the shape of the
    coordinates, and every position of the feature, in order, with [lng]
    and [lat] exchanged into place. *)
Theorem convertPreprocessedFeatures_cases features :
  (convertPreprocessedFeatures features = None
   ∧ Exists (λ f, geometry f = MultiPolygon []) features)
  ∨ (∃ r, convertPreprocessedFeatures features = Some r
          ∧ Forall (λ f, geometry f ≠ MultiPolygon []) features
          ∧ Forall consistent r
          ∧ Forall2 converted_from
              (filter (λ f, supported (geometry f) = true) features) r).
Proof.
  unfold convertPreprocessedFeatures.
  destruct (convertPreprocessedFeatures_from_cases features [])
    as [H|(r & E & HF & HR)]; [left; exact H|].
  right. exists r. split; [exact E|]. split; [exact HF|].
  split; [|exact HR].
  clear -HR. induction HR as [|f p fs r Hp _ IH]; constructor; [|exact IH].
  apply Hp.
Qed.

Section Projected.

Variable proj4 : Coord → Coord.

Lemma mapM_Some_fmap {A B} (h : A → option B) (g : A → B) (l : list A) :
  (∀ x, h x = Some (g x)) → mapM h l = Some (g <$> l).
Proof.
  intros Hh. induction l as [|x l IH]; [reflexivity|].
  cbn [mapM]. rewrite Hh, IH. reflexivity.
Qed.

Lemma processFeature_projectFeature {P} fuel (feature : Feature P) t :
  Num.gt t 0 = false →
  processFeature proj4 fuel feature t = Some (projectFeature proj4 feature).
Proof.
  intros Ht. unfold processFeature, projectFeature.
  assert (∀ ring, processRing proj4 fuel ring t
                  = Some (map (λ '(x, y), convertCoord proj4 x y) ring))
    as Hring by (intros ring; unfold processRing; rewrite Ht; reflexivity).
  assert (∀ c, processPolygon proj4 fuel c t
               = Some (map (map (λ '(x, y), convertCoord proj4 x y)) c))
    as Hpolygon by (intros c; apply (mapM_Some_fmap _ _ c Hring)).
  destruct (geometry feature) as [c|c|c|c|c|c|c]; try reflexivity.
  - rewrite Hpolygon. reflexivity.
  - unfold processMultiPolygon.
    rewrite (mapM_Some_fmap _ _ c Hpolygon). reflexivity.
Qed.

Lemma reorder_convertCoord (ring : list Coord) :
  map reorder (map (λ '(x, y), convertCoord proj4 x y) ring)
  = map (λ '(x, y), convertCoordinate proj4 x y) ring.
Proof.
  rewrite map_map. apply map_ext. intros [x y].
  unfold convertCoord, convertCoordinate, reorder.
  destruct (proj4 (x, y)). reflexivity.
Qed.

Lemma reorder_convertPolygonCoordinates (c : list (list Coord)) :
  map (map reorder) (map (map (λ '(x, y), convertCoord proj4 x y)) c)
  = convertPolygonCoordinates proj4 c.
Proof.
  unfold convertPolygonCoordinates. rewrite map_map. apply map_ext.
  intros ring. apply reorder_convertCoord.
Qed.

(** On a projected feature the fast path computes what the slow path
    computes on the feature itself. *)
Lemma convertPreprocessedFeature_projectFeature f :
  supported (geometry f) = true →
  convertPreprocessedFeature (projectFeature proj4 f)
  = (λ p, [p]) <$> convertFeatureToPolygon proj4 f.
Proof.
  unfold convertPreprocessedFeature, convertFeatureToPolygon, projectFeature.
  destruct (geometry f) as [c|c|c|c|c|c|c]; try discriminate; intros _;
    cbn [geometry properties].
  - rewrite reorder_convertPolygonCoordinates. reflexivity.
  - replace (map (map (map reorder))
               (map (map (map (λ '(x, y), convertCoord proj4 x y))) c))
      with (map (convertPolygonCoordinates proj4) c)
      by (rewrite map_map; apply map_ext; intros part; symmetry;
          apply reorder_convertPolygonCoordinates).
    destruct (head (map (convertPolygonCoordinates proj4) c)); reflexivity.
Qed.

Lemma convertPreprocessedFeatures_from_projected features result :
  Forall (λ f, supported (geometry f) = true) features →
  convertPreprocessedFeatures_from result (projectFeature proj4 <$> features)
  = (λ r, result ++ r) <$> mapM (convertFeatureToPolygon proj4) features.
Proof.
  intros Hs. revert result.
  induction Hs as [|f features Hf _ IH]; intros result.
  { simpl. rewrite app_nil_r. reflexivity. }
  cbn [fmap list_fmap convertPreprocessedFeatures_from mapM].
  rewrite (convertPreprocessedFeature_projectFeature f Hf).
  destruct (convertFeatureToPolygon proj4 f) as [p|]; [|reflexivity].
  simpl. fold (projectFeature proj4 <$> features). rewrite IH.
  destruct (mapM (convertFeatureToPolygon proj4) features) as [r|];
    [|reflexivity].
  simpl. rewrite <- app_assoc. reflexivity.
Qed.

(** X16: The two ways to the polygons of the map agree.  When the script does
    not simplify (a tolerance that is not positive) and every feature is a
    [Polygon] or a [MultiPolygon], the fast path on the output of the
    script computes what the slow path computes on the input of the script,
    polygon by polygon and number by number, and throws when it throws. *)
Theorem convertPreprocessedFeatures_processedFeatures features t :
  Forall (λ f, supported (geometry f) = true) features →
  Num.gt t 0 = false →
  ∃ processed,
    (∀ fuel, processedFeatures proj4 fuel features t = Some processed)
    ∧ convertPreprocessedFeatures processed
      = convertAllFeatures proj4 features.
Proof.
  intros Hs Ht. exists (projectFeature proj4 <$> features). split.
  - intros fuel. apply mapM_Some_fmap. intros f.
    apply processFeature_projectFeature, Ht.
  - unfold convertPreprocessedFeatures, convertAllFeatures.
    rewrite (convertPreprocessedFeatures_from_projected features [] Hs).
    destruct (mapM _ features); reflexivity.
Qed.

End Projected.

Lemma convertPreprocessedFeatures_processedFeatures_witness :
  ∃ processed,
    (∀ fuel, processedFeatures (λ c, c) fuel sample_features 0 = Some processed)
    ∧ convertPreprocessedFeatures processed
      = convertAllFeatures (λ c, c) sample_features.
Proof.
  apply (convertPreprocessedFeatures_processedFeatures (λ c, c)
           sample_features 0).
  - repeat constructor.
  - reflexivity.
Defined.

End Pipeline.

(** ** The map component *)

Section MapComponent.

Implicit Types (p q : ConvertedPolygon) (visible : list ConvertedPolygon)
  (fsaMap : list FsaMarkerData) (s : string).

(** The loop of [fsaMarkers] holds one marker per FSA seen, with the center
    of the first polygon seen of that FSA. *)
Lemma fsaMarkers_fold visible :
  NoDup (marker_fsaId <$> foldl fsaMarkers_step [] visible)
  ∧ (∀ s, s ∈ marker_fsaId <$> foldl fsaMarkers_step [] visible
          ↔ s ∈ fsaId <$> visible)
  ∧ (∀ m, m ∈ foldl fsaMarkers_step [] visible →
          ∃ i p, visible !! i = Some p
                 ∧ fsaId p = marker_fsaId m ∧ center p = marker_center m
                 ∧ ∀ j q, j < i → visible !! j = Some q → fsaId q ≠ fsaId p).
Proof.
  induction visible as [|x done (Hnodup & Hids & Hfirst)] using rev_ind.
  { split; [constructor|]. split; [reflexivity|]. intros m Hm. inversion Hm. }
  rewrite foldl_snoc.
  assert (∀ m, m ∈ foldl fsaMarkers_step [] done →
               ∃ i p, (done ++ [x]) !! i = Some p
                      ∧ fsaId p = marker_fsaId m ∧ center p = marker_center m
                      ∧ ∀ j q, j < i → (done ++ [x]) !! j = Some q →
                               fsaId q ≠ fsaId p) as Hold.
  { intros m Hm. destruct (Hfirst m Hm) as (i & p & Hi & Hid & Hc & Hbefore).
    exists i, p. pose proof (lookup_lt_Some _ _ _ Hi) as Hlt.
    split; [rewrite lookup_app_l by exact Hlt; exact Hi|].
    split; [exact Hid|]. split; [exact Hc|].
    intros j q Hj Hq. rewrite lookup_app_l in Hq by lia.
    exact (Hbefore j q Hj Hq). }
  destruct (decide (fsaId x ∈ marker_fsaId <$> foldl fsaMarkers_step [] done))
    as [Hseen|Hnew].
  - unfold fsaMarkers_step at 1 3 5. rewrite !decide_True by exact Hseen.
    split; [exact Hnodup|]. split; [|exact Hold].
    intros s. rewrite Hids, fmap_app, elem_of_app. simpl.
    rewrite list_elem_of_singleton. split; [auto|].
    intros [Hs| ->]; [exact Hs|]. apply Hids, Hseen.
  - unfold fsaMarkers_step at 1 3 5. rewrite !decide_False by exact Hnew.
    rewrite fmap_app. simpl. split.
    { apply NoDup_app. split; [exact Hnodup|]. split; [|apply NoDup_singleton].
      intros s Hs ->%list_elem_of_singleton. exact (Hnew Hs). }
    split.
    { intros s. rewrite fmap_app, !elem_of_app, Hids. reflexivity. }
    intros m [Hm| ->%list_elem_of_singleton]%elem_of_app; [exact (Hold m Hm)|].
    exists (length done), x.
    split; [apply list_lookup_middle; reflexivity|].
    split; [reflexivity|]. split; [reflexivity|].
    intros j q Hj Hq Heq. rewrite lookup_app_l in Hq by exact Hj.
    apply Hnew. rewrite <- Heq. apply Hids.
    apply list_elem_of_fmap_2, (list_elem_of_lookup_2 _ _ _ Hq).
Qed.

(** X17: The markers of the map: none when markers are not shown; otherwise one
    marker per FSA that has a visible polygon, no FSA twice, each at the
    center of the first visible polygon of its FSA. *)
Theorem fsaMarkers_one_per_fsa visible :
  fsaMarkers visible false = []
  ∧ NoDup (marker_fsaId <$> fsaMarkers visible true)
  ∧ (∀ s, s ∈ marker_fsaId <$> fsaMarkers visible true
          ↔ s ∈ fsaId <$> visible)
  ∧ (∀ m, m ∈ fsaMarkers visible true →
          ∃ i p, visible !! i = Some p
                 ∧ fsaId p = marker_fsaId m ∧ center p = marker_center m
                 ∧ ∀ j q, j < i → visible !! j = Some q → fsaId q ≠ fsaId p).
Proof. split; [reflexivity|]. apply fsaMarkers_fold. Qed.

(** X18: A click on an FSA selects it, whatever was selected: the value handed
    to the selection handler is the FSA clicked, also when that FSA is the
    selected one.  The handler never deselects. *)
Theorem handleSelectFsa_selects (selectedFsaId fsaId : option string) :
  handleSelectFsa selectedFsaId fsaId = fsaId.
Proof.
  unfold handleSelectFsa. destruct (decide _) as [->|]; reflexivity.
Qed.

End MapComponent.
